(** * markdown-utils: the text rules, embedded and checked against their specification

    The library under study is a set of pure TypeScript functions over
    strings, each built from regular-expression scans ([replace], [exec],
    [match], [split], [test]) and array transforms.  The file has three
    parts:

    - [Chars], [Regex], [Driver]: strings as lists of code units, the
      regular-expression constructs the sources use, a backtracking matcher
      with the priorities of the ECMAScript semantics, and the string
      methods built on it;
    - [ContentUtils], [PathUtils], [DateUtils], [PathDates],
      [ValidationUtils]: the functions of [src/contentUtils.ts],
      [src/pathUtils.ts], [src/dateUtils.ts] and [src/validationUtils.ts],
      pattern by pattern ([PathDates] holds the functions of
      [src/pathUtils.ts] that work with dates);
    - the properties: general facts about the matcher ([MatcherFacts]), then
      the properties of the functions, source file by source file.

    Texts range over the code units below 256 (ASCII and Latin-1); within
    that range [\s], [\w], [\d], [.], [trim] and [toLowerCase] follow
    ECMAScript.  Where a comment quotes a pattern of the sources, a blank
    separates a star from a closing parenthesis that follows it. *)

From Stdlib Require Import String Ascii DecimalString List Bool Arith Lia ZArith Permutation.
Import ListNotations.

(* ================================================================= *)
(** ** Characters and strings *)

Module Chars.

Definition str := list ascii.

(** String literals of the sources; [lit "abc"] is the list of its code units. *)
Definition lit (s : string) : str := list_ascii_of_string s.

Definition nl : ascii := "010"%char.      (* \n *)
Definition dquote : ascii := "034"%char.  (* the double quote *)
Definition bslash : ascii := "092"%char.  (* the backslash *)

Definition code (c : ascii) : nat := nat_of_ascii c.

Definition between (lo hi : nat) (c : ascii) : bool :=
  (lo <=? code c) && (code c <=? hi).

(** ECMAScript LineTerminator, below 256: LF and CR. *)
Definition is_lt (c : ascii) : bool := (code c =? 10) || (code c =? 13).

(** ECMAScript WhiteSpace and LineTerminator, below 256:
    TAB, LF, VT, FF, CR, SP, NBSP.  This is [\s] and what [trim] removes. *)
Definition is_ws (c : ascii) : bool :=
  between 9 13 c || (code c =? 32) || (code c =? 160).

Definition is_digit (c : ascii) : bool := between 48 57 c.

(** [\w] is [A-Za-z0-9_]. *)
Definition is_word (c : ascii) : bool :=
  between 65 90 c || between 97 122 c || is_digit c || (code c =? 95).

(** [String.prototype.toLowerCase] on one code unit below 256: A-Z and the
    Latin-1 capitals (all of C0..DE but the multiplication sign D7). *)
Definition lower_char (c : ascii) : ascii :=
  if between 65 90 c || (between 192 222 c && negb (code c =? 215))
  then ascii_of_nat (code c + 32) else c.

Definition toLowerCase (s : str) : str := map lower_char s.

Fixpoint dropWhile (p : ascii -> bool) (s : str) : str :=
  match s with
  | [] => []
  | c :: s' => if p c then dropWhile p s' else s
  end.

Fixpoint takeWhile (p : ascii -> bool) (s : str) : str :=
  match s with
  | [] => []
  | c :: s' => if p c then c :: takeWhile p s' else []
  end.

Definition trimStart (s : str) : str := dropWhile is_ws s.
Definition trimEnd (s : str) : str := rev (dropWhile is_ws (rev s)).
Definition trim (s : str) : str := trimEnd (trimStart s).

Definition str_eqb (a b : str) : bool :=
  if list_eq_dec ascii_dec a b then true else false.

(** [s.startsWith(p)] *)
Fixpoint startsWith (p s : str) : bool :=
  match p, s with
  | [], _ => true
  | a :: p', b :: s' => Ascii.eqb a b && startsWith p' s'
  | _ :: _, [] => false
  end.

(** [s.includes(p)] *)
Fixpoint includes (p s : str) : bool :=
  startsWith p s ||
  match s with
  | [] => false
  | _ :: s' => includes p s'
  end.

(** [s.substring(n)] for [n] within bounds or beyond. *)
Definition substring_from (n : nat) (s : str) : str := skipn n s.

(** Every code unit of the model, for properties decided by enumeration. *)
Definition all_ascii : list ascii := map ascii_of_nat (seq 0 256).

Definition forall_ascii (P : ascii -> bool) : bool := forallb P all_ascii.

(** [toUpperCase] on one code unit that [\w] matches: the letters a-z go to
    A-Z, digits and the underscore stay. *)
Definition upper_char (c : ascii) : ascii :=
  if between 97 122 c then ascii_of_nat (code c - 32) else c.

(** [a.pop()] as the value it returns, for an array that is not empty. *)
Definition pop (l : list str) : str := last l [].

(** [a.join(sep)] *)
Fixpoint join (sep : str) (l : list str) : str :=
  match l with
  | [] => []
  | [a] => a
  | a :: l' => a ++ sep ++ join sep l'
  end.


End Chars.
Export Chars.

(* ================================================================= *)
(** ** Regular expressions *)

Module Regex.

(** Character classes: what stands between brackets, and the escapes. *)
Inductive cclass : Type :=
| CChar (c : ascii)               (* a literal character *)
| CRange (lo hi : ascii)          (* a-z *)
| CSpace                          (* \s *)
| CWord                           (* \w *)
| CDigit                          (* \d *)
| CDot                            (* .  : anything but a line terminator *)
| CAny                            (* [\s\S] *)
| COr (a b : cclass)              (* [ab] *)
| CNot (a : cclass).              (* [^a] *)

Fixpoint in_class (k : cclass) (c : ascii) : bool :=
  match k with
  | CChar a => Ascii.eqb a c
  | CRange lo hi => between (code lo) (code hi) c
  | CSpace => is_ws c
  | CWord => is_word c
  | CDigit => is_digit c
  | CDot => negb (is_lt c)
  | CAny => true
  | COr a b => in_class a c || in_class b c
  | CNot a => negb (in_class a c)
  end.

(** [COneOf [a; b; c]] is the class [[abc]]. *)
Definition COneOf (l : list cclass) : cclass :=
  fold_right COr (CNot CAny) l.

(** The patterns.  [Rep g max r] is [r{0,max}] ([max = None]: unbounded),
    greedy when [g] and lazy otherwise; the derived forms are below. *)
Inductive regex : Type :=
| Eps
| Cls (k : cclass)
| Seq (r1 r2 : regex)
| Alt (r1 r2 : regex)
| Rep (greedy : bool) (max : option nat) (r : regex)
| Grp (n : nat) (r : regex)       (* the n-th capturing group *)
| Bol                             (* ^ *)
| Eol                             (* $ *)
| WordB.                          (* \b *)

Definition Chr (c : ascii) : regex := Cls (CChar c).
Definition Star (r : regex) : regex := Rep true None r.          (* r*  *)
Definition StarLazy (r : regex) : regex := Rep false None r.     (* r*? *)
Definition Plus (r : regex) : regex := Seq r (Rep true None r).  (* r+  *)
Definition PlusLazy (r : regex) : regex := Seq r (Rep false None r). (* r+? *)
Definition Opt (r : regex) : regex := Rep true (Some 1) r.       (* r?  *)

(** [r{min,max}], greedy. *)
Fixpoint Times (min : nat) (r tail : regex) : regex :=
  match min with
  | 0 => tail
  | S m => Seq r (Times m r tail)
  end.
Definition Count (min max : nat) (r : regex) : regex :=
  Times min r (Rep true (Some (max - min)) r).

(** A literal run of characters. *)
Fixpoint Lit (s : str) : regex :=
  match s with
  | [] => Eps
  | c :: s' => Seq (Chr c) (Lit s')
  end.
Definition L (s : string) : regex := Lit (lit s).

Fixpoint Alts (l : list regex) : regex :=
  match l with
  | [] => Cls (CNot CAny)
  | [r] => r
  | r :: l' => Alt r (Alts l')
  end.

Fixpoint Seqs (l : list regex) : regex :=
  match l with
  | [] => Eps
  | [r] => r
  | r :: l' => Seq r (Seqs l')
  end.

(** The state of a match in progress: the character before the current
    position (none at the start of the input), the input from the current
    position on, and the captures recorded so far (latest first). *)
Record mstate : Type := MState {
  prev : option ascii;
  rest : str;
  caps : list (nat * str)
}.

Definition advance (c : ascii) (st : mstate) (tl : str) : mstate :=
  MState (Some c) tl (caps st).

(** The text consumed between two states of one match. *)
Definition consumed (st st' : mstate) : str :=
  firstn (length (rest st) - length (rest st')) (rest st).

Definition set_cap (n : nat) (s : str) (st : mstate) : mstate :=
  MState (prev st) (rest st) ((n, s) :: caps st).

Fixpoint assoc (n : nat) (l : list (nat * str)) : option str :=
  match l with
  | [] => None
  | (m, s) :: l' => if m =? n then Some s else assoc n l'
  end.

(** [match[n]], absent when the group took no part in the match. *)
Definition cap_opt (n : nat) (st : mstate) : option str := assoc n (caps st).
Definition cap (n : nat) (st : mstate) : str :=
  match cap_opt n st with Some s => s | None => [] end.

(** [^]: at the start of the input, or with the [m] flag after a line terminator. *)
Definition at_bol (ml : bool) (st : mstate) : bool :=
  match prev st with
  | None => true
  | Some c => ml && is_lt c
  end.

(** [$]: at the end of the input, or with the [m] flag before a line terminator. *)
Definition at_eol (ml : bool) (st : mstate) : bool :=
  match rest st with
  | [] => true
  | c :: _ => ml && is_lt c
  end.

(** [\b]: exactly one of the two neighbours is a word character. *)
Definition at_wordb (st : mstate) : bool :=
  let a := match prev st with Some c => is_word c | None => false end in
  let b := match rest st with c :: _ => is_word c | [] => false end in
  xorb a b.

Definition orelse {A : Type} (x y : option A) : option A :=
  match x with Some _ => x | None => y end.

Definition cont : Type := mstate -> option mstate.

(** The loop of a quantifier over a body matcher: up to [n] more
    iterations, each of which has to consume something; a greedy quantifier
    tries one more iteration before it tries to go on, a lazy one the other
    way round. *)
Fixpoint rep_loop (body : cont -> mstate -> option mstate) (g : bool) (k : cont)
  (n : nat) (st : mstate) {struct n} : option mstate :=
  match n with
  | 0 => k st
  | S n' =>
      let again :=
        body (fun st' =>
                if length (rest st') <? length (rest st)
                then rep_loop body g k n' st' else None) st in
      if g then orelse again (k st) else orelse (k st) again
  end.

(** The backtracking matcher, in continuation-passing style as in the
    ECMAScript semantics: [rmatch ml r k st] tries the ways [r] can match at
    [st] in priority order and returns the first one that [k] accepts.
    [ml] is the [m] flag. *)
Fixpoint rmatch (ml : bool) (r : regex) (k : cont) (st : mstate) : option mstate :=
  match r with
  | Eps => k st
  | Cls c =>
      match rest st with
      | a :: tl => if in_class c a then k (advance a st tl) else None
      | [] => None
      end
  | Seq r1 r2 => rmatch ml r1 (rmatch ml r2 k) st
  | Alt r1 r2 => orelse (rmatch ml r1 k st) (rmatch ml r2 k st)
  | Rep g max r1 =>
      rep_loop (rmatch ml r1) g k
        (match max with Some n => n | None => length (rest st) end) st
  | Grp n r1 => rmatch ml r1 (fun st' => k (set_cap n (consumed st st') st')) st
  | Bol => if at_bol ml st then k st else None
  | Eol => if at_eol ml st then k st else None
  | WordB => if at_wordb st then k st else None
  end.

(** A match attempt at one position; the text of the whole match is
    recorded as group 0, as in [match[0]] and [$&]. *)
Definition finish (st : mstate) : cont :=
  fun e => Some (set_cap 0 (consumed st e) e).

Definition exec_at (ml : bool) (r : regex) (st : mstate) : option mstate :=
  rmatch ml r (finish st) st.

(** A character of a pattern under the [i] flag: itself in either case.
    The patterns of the sources that carry the flag hold ASCII letters only. *)
Definition ChrI (c : ascii) : regex :=
  Cls (COr (CChar (lower_char c)) (CChar (upper_char c))).

Fixpoint LitI (s : str) : regex :=
  match s with
  | [] => Eps
  | c :: s' => Seq (ChrI c) (LitI s')
  end.
Definition LI (s : string) : regex := LitI (lit s).


End Regex.
Export Regex.

(* ================================================================= *)
(** ** The string methods that take a pattern *)

Module Driver.

(** A replacement string: literal text and [$n] references. *)
Inductive rpiece : Type :=
| RText (s : str)
| RGroup (n : nat).

Definition template : Type := list rpiece.

Definition expand_piece (m : mstate) (p : rpiece) : str :=
  match p with
  | RText s => s
  | RGroup n => cap n m
  end.

Definition expand (t : template) (m : mstate) : str :=
  flat_map (expand_piece m) t.

(** One match: the state where it starts and the state where it ends. *)
Definition found : Type := (mstate * mstate)%type.

Definition start_state (p : option ascii) (s : str) : mstate := MState p s [].

(** The leftmost match at or after the current position ([RegExp.prototype.exec]
    from [lastIndex]); the skipped text is returned with it. *)
Fixpoint search (ml : bool) (r : regex) (p : option ascii) (s : str)
  : option (str * found) :=
  match exec_at ml r (start_state p s) with
  | Some e => Some ([], (start_state p s, e))
  | None =>
      match s with
      | [] => None
      | c :: s' =>
          match search ml r (Some c) s' with
          | Some (skipped, f) => Some (c :: skipped, f)
          | None => None
          end
      end
  end.

(** [r.test(s)] and [s.match(r)] without the [g] flag, from the start. *)
Definition test (ml : bool) (r : regex) (s : str) : bool :=
  match search ml r None s with Some _ => true | None => false end.

Definition match_first (ml : bool) (r : regex) (s : str) : option mstate :=
  match search ml r None s with Some (_, (_, e)) => Some e | None => None end.

(** [s.replace(r, t)] without the [g] flag: the first match only. *)
Definition replace_first (ml : bool) (r : regex) (t : template) (s : str) : str :=
  match search ml r None s with
  | Some (skipped, (_, e)) => skipped ++ expand t e ++ rest e
  | None => s
  end.

(** [s.replace(r, t)] with the [g] flag: every match from left to right, the
    next search starting where the previous match ended, and one character
    further after an empty match.  [fuel] bounds the number of positions
    visited; [S (length s)] is enough since every step that is not the last
    moves forward. *)
Fixpoint replace_loop (ml : bool) (r : regex) (t : template)
  (fuel : nat) (p : option ascii) (s : str) : str :=
  match fuel with
  | 0 => s
  | S fuel' =>
      match exec_at ml r (start_state p s) with
      | Some e =>
          if length (rest e) <? length s
          then expand t e ++ replace_loop ml r t fuel' (prev e) (rest e)
          else expand t e ++
               match s with
               | [] => []
               | c :: s' => c :: replace_loop ml r t fuel' (Some c) s'
               end
      | None =>
          match s with
          | [] => []
          | c :: s' => c :: replace_loop ml r t fuel' (Some c) s'
          end
      end
  end.

Definition replace_all (ml : bool) (r : regex) (t : template) (s : str) : str :=
  replace_loop ml r t (S (length s)) None s.

(** The matches that a loop [while ((m = r.exec(s)) !== null)] visits with a
    [g] pattern, and [s.match(r)] with the [g] flag.  After an empty match
    the scan moves one character further, as [match] does; the patterns the
    sources use in an [exec] loop consume at least one character
    ([scanned_patterns_consume] below), so that their loops end. *)
Fixpoint exec_loop (ml : bool) (r : regex)
  (fuel : nat) (p : option ascii) (s : str) : list found :=
  match fuel with
  | 0 => []
  | S fuel' =>
      match exec_at ml r (start_state p s) with
      | Some e =>
          (start_state p s, e) ::
          (if length (rest e) <? length s
           then exec_loop ml r fuel' (prev e) (rest e)
           else match s with
                | [] => []
                | c :: s' => exec_loop ml r fuel' (Some c) s'
                end)
      | None =>
          match s with
          | [] => []
          | c :: s' => exec_loop ml r fuel' (Some c) s'
          end
      end
  end.

Definition match_all (ml : bool) (r : regex) (s : str) : list found :=
  exec_loop ml r (S (length s)) None s.

(** [s.split(r)] for a pattern without capturing groups.  [cur] is the
    current piece, reversed; a match that ends where the current piece starts
    is skipped, and no match is tried at the end of the input. *)
Fixpoint split_loop (ml : bool) (r : regex)
  (fuel : nat) (p : option ascii) (cur : str) (s : str) : list str :=
  match fuel with
  | 0 => [rev cur ++ s]
  | S fuel' =>
      match s with
      | [] => [rev cur]
      | c :: s' =>
          match exec_at ml r (start_state p s) with
          | Some e =>
              if (length (rest e) <? length s) || negb (length cur =? 0)
              then rev cur :: split_loop ml r fuel' (prev e) [] (rest e)
              else split_loop ml r fuel' (Some c) (c :: cur) s'
          | None => split_loop ml r fuel' (Some c) (c :: cur) s'
          end
      end
  end.

Definition split (ml : bool) (r : regex) (s : str) : list str :=
  match s with
  | [] => match exec_at ml r (start_state None []) with
          | Some _ => []
          | None => [[]]
          end
  | _ => split_loop ml r (2 * length s + 1) None [] s
  end.

(** [s.split(c)] with a one-character string separator. *)
Fixpoint split_char_loop (c : ascii) (cur : str) (s : str) : list str :=
  match s with
  | [] => [rev cur]
  | a :: s' =>
      if Ascii.eqb a c then rev cur :: split_char_loop c [] s'
      else split_char_loop c (a :: cur) s'
  end.

Definition split_char (c : ascii) (s : str) : list str := split_char_loop c [] s.

(** [s.replace(r, f)] with the [g] flag and a function [f] of the match:
    the scan of [replace_loop], the text of each match replaced by what [f]
    returns for it. *)
Fixpoint replace_loop_with (ml : bool) (r : regex) (f : mstate -> str)
  (fuel : nat) (p : option ascii) (s : str) : str :=
  match fuel with
  | 0 => s
  | S fuel' =>
      match exec_at ml r (start_state p s) with
      | Some e =>
          if length (rest e) <? length s
          then f e ++ replace_loop_with ml r f fuel' (prev e) (rest e)
          else f e ++
               match s with
               | [] => []
               | c :: s' => c :: replace_loop_with ml r f fuel' (Some c) s'
               end
      | None =>
          match s with
          | [] => []
          | c :: s' => c :: replace_loop_with ml r f fuel' (Some c) s'
          end
      end
  end.

Definition replace_all_with (ml : bool) (r : regex) (f : mstate -> str) (s : str)
  : str :=
  replace_loop_with ml r f (S (length s)) None s.


(** [s.split(sep)] with a separator of one character or more: the text is
    cut at each occurrence of [sep], found from left to right.  [skip]
    counts the characters of an occurrence still to pass. *)
Fixpoint split_str_loop (sep : str) (skip : nat) (cur : str) (s : str)
  : list str :=
  match s with
  | [] => [rev cur]
  | c :: s' =>
      match skip with
      | S k => split_str_loop sep k cur s'
      | 0 =>
          if startsWith sep s
          then rev cur :: split_str_loop sep (length sep - 1) [] s'
          else split_str_loop sep 0 (c :: cur) s'
      end
  end.

Definition split_str (sep : str) (s : str) : list str :=
  split_str_loop sep 0 [] s.


End Driver.
Export Driver.

(* ================================================================= *)
(** ** src/contentUtils.ts *)

Module ContentUtils.

(** The character classes the patterns of this file share. *)
Definition not_char (c : ascii) : cclass := CNot (CChar c).
Definition hash : regex := Chr "#".
Definition star_c : regex := Chr "*".
Definition tick : regex := Chr "`".

(** Pattern: /^# (.* )$/m *)
Definition firstHeadingRegex : regex :=
  Seqs [Bol; hash; Chr " "; Grp 1 (Star (Cls CDot)); Eol].

Definition getFirstHeading (markdownContent : str) : str :=
  match match_first true firstHeadingRegex markdownContent with
  | Some m => trim (cap 1 m)
  | None => []
  end.


(** Pattern: /^(#{1,6})\s+(.* )$/gm *)
Definition headingRegex : regex :=
  Seqs [Bol; Grp 1 (Count 1 6 hash); Plus (Cls CSpace);
        Grp 2 (Star (Cls CDot)); Eol].





(** The patterns of [getFirstParagraph], in the order they are applied. *)
(** Pattern: /^#{1,6}\s+.*$/gm *)
Definition headingLineRegex : regex :=
  Seqs [Bol; Count 1 6 hash; Plus (Cls CSpace); Star (Cls CDot); Eol].
(** Pattern: /```[\s\S]*?```/g *)
Definition fenceRegex : regex :=
  Seqs [L "```"; StarLazy (Cls CAny); L "```"].
(** Pattern: /`[^`]*`/g *)
Definition inlineCodeRegex : regex :=
  Seqs [tick; Star (Cls (not_char "`")); tick].
(** Pattern: /\*\*([^*]* )\*\*/g *)
Definition boldRegex : regex :=
  Seqs [L "**"; Grp 1 (Star (Cls (not_char "*"))); L "**"].
(** Pattern: /\*([^*]* )\*/g *)
Definition italicRegex : regex :=
  Seqs [star_c; Grp 1 (Star (Cls (not_char "*"))); star_c].
(** Pattern: /\[([^\]]* )\]\([^)]*\)/g *)
Definition linkTextRegex : regex :=
  Seqs [Chr "["; Grp 1 (Star (Cls (not_char "]"))); L "](";
        Star (Cls (not_char ")")); Chr ")"].
(** Pattern: /\n\s*\n/ *)
Definition blankLineRegex : regex :=
  Seqs [Chr nl; Star (Cls CSpace); Chr nl].

Definition keep1 : template := [RGroup 1].

(** The text of [getFirstParagraph] before it is split. *)
Definition cleaned (markdownContent : str) : str :=
  trim
    (replace_all false linkTextRegex keep1
    (replace_all false italicRegex keep1
    (replace_all false boldRegex keep1
    (replace_all false inlineCodeRegex []
    (replace_all false fenceRegex []
    (replace_all true headingLineRegex [] markdownContent)))))).

Definition paragraphs (markdownContent : str) : list str :=
  split false blankLineRegex (cleaned markdownContent).

Definition nonEmptyTrimmed (p : str) : bool := 0 <? length (trim p).

(** [paragraphs.find(p => p.trim().length > 0) || ''] *)
Definition getFirstParagraph (markdownContent : str) : str :=
  match find nonEmptyTrimmed (paragraphs markdownContent) with
  | Some p => p
  | None => []
  end.

Record link : Type := Link {
  link_text : str;
  url : str
}.

(** Pattern: /\[([^\]]* )\]\(([^)]* )\)/g *)
Definition linkRegex : regex :=
  Seqs [Chr "["; Grp 1 (Star (Cls (not_char "]"))); L "](";
        Grp 2 (Star (Cls (not_char ")"))); Chr ")"].

Definition linkOf (m : mstate) : link := Link (cap 1 m) (cap 2 m).

Definition extractLinks (markdownContent : str) : list link :=
  map (fun f => linkOf (snd f)) (match_all false linkRegex markdownContent).

Record image : Type := Image {
  alt : str;
  src : str;
  title : option str
}.

(** The pattern of [extractImages]: "![", group 1 [^\]]*, "](", group 2 [^)]*? (lazy),
    an optional title made of \s+, a double quote, group 3 (any run without
    a double quote) and a double quote, then ")"; flag g. *)
Definition imageRegex : regex :=
  Seqs [L "!["; Grp 1 (Star (Cls (not_char "]"))); L "](";
        Grp 2 (StarLazy (Cls (not_char ")")));
        Opt (Seqs [Plus (Cls CSpace); Chr dquote;
                   Grp 3 (Star (Cls (not_char dquote))); Chr dquote]);
        Chr ")"].

(** [match[3] || undefined]: an empty title is dropped like a missing one. *)
Definition titleOf (m : mstate) : option str :=
  match cap_opt 3 m with
  | Some (c :: s) => Some (c :: s)
  | _ => None
  end.

Definition imageOf (m : mstate) : image := Image (cap 1 m) (cap 2 m) (titleOf m).

Definition extractImages (markdownContent : str) : list image :=
  map (fun f => imageOf (snd f)) (match_all false imageRegex markdownContent).

(** The patterns of [stripMarkdown] that are not shared with the above. *)
(** Pattern: /^#{1,6}\s+/gm *)
Definition headingMarkerRegex : regex :=
  Seqs [Bol; Count 1 6 hash; Plus (Cls CSpace)].
(** Pattern: /~~([^~]* )~~/g *)
Definition strikeRegex : regex :=
  Seqs [L "~~"; Grp 1 (Star (Cls (not_char "~"))); L "~~"].
(** Pattern: /`([^`]* )`/g *)
Definition inlineCodeKeepRegex : regex :=
  Seqs [tick; Grp 1 (Star (Cls (not_char "`"))); tick].
(** Pattern: /!\[([^\]]* )\]\([^)]*\)/g *)
Definition imageAltRegex : regex :=
  Seqs [L "!["; Grp 1 (Star (Cls (not_char "]"))); L "](";
        Star (Cls (not_char ")")); Chr ")"].
(** Pattern: /^\s*[-*+]\s+/gm *)
Definition bulletRegex : regex :=
  Seqs [Bol; Star (Cls CSpace);
        Cls (COneOf [CChar "-"; CChar "*"; CChar "+"]); Plus (Cls CSpace)].
(** Pattern: /^\s*\d+\.\s+/gm *)
Definition numberedRegex : regex :=
  Seqs [Bol; Star (Cls CSpace); Plus (Cls CDigit); Chr "."; Plus (Cls CSpace)].
(** Pattern: /^\s*>\s+/gm *)
Definition quoteRegex : regex :=
  Seqs [Bol; Star (Cls CSpace); Chr ">"; Plus (Cls CSpace)].

(** The twelve replacements of [stripMarkdown] before the final [trim],
    innermost first as the method chain applies them. *)
Definition stripped (markdownContent : str) : str :=
    (replace_all false blankLineRegex [RText [nl]]       (* extra line breaks *)
    (replace_all true quoteRegex []                      (* blockquote markers *)
    (replace_all true numberedRegex []                   (* numbered list markers *)
    (replace_all true bulletRegex []                     (* list markers *)
    (replace_all false imageAltRegex keep1               (* images, keep alt text *)
    (replace_all false linkTextRegex keep1               (* links, keep text *)
    (replace_all false fenceRegex []                     (* code blocks *)
    (replace_all false inlineCodeKeepRegex keep1         (* inline code *)
    (replace_all false strikeRegex keep1                 (* strikethrough *)
    (replace_all false italicRegex keep1                 (* italic *)
    (replace_all false boldRegex keep1                   (* bold *)
    (replace_all true headingMarkerRegex [] markdownContent)))))))))))).

Definition stripMarkdown (markdownContent : str) : str :=
  trim (stripped markdownContent).

Record codeBlock : Type := CodeBlock {
  cb_language : str;
  cb_content : str
}.

(** Pattern: /```(\w* )\n([\s\S]*?)```/g *)
Definition codeBlockRegex : regex :=
  Seqs [L "```"; Grp 1 (Star (Cls CWord)); Chr nl;
        Grp 2 (StarLazy (Cls CAny)); L "```"].

(** [match[1] || 'text'] and [match[2].trim()] *)
Definition codeBlockOf (m : mstate) : codeBlock :=
  CodeBlock (match cap 1 m with [] => lit "text" | l => l end) (trim (cap 2 m)).

Definition extractCodeBlocks (markdownContent : str) : list codeBlock :=
  map (fun f => codeBlockOf (snd f)) (match_all false codeBlockRegex markdownContent).

(** Pattern: /\s+/g, replaced by one blank before the words are counted. *)
Definition whiteSpaceRegex : regex := Plus (Cls CSpace).

Definition getWordCount (markdownContent : str) : nat :=
  let plainText := stripMarkdown markdownContent in
  let normalizedText :=
    trim (replace_all false whiteSpaceRegex [RText (lit " ")] plainText) in
  if length normalizedText =? 0 then 0
  else length (filter (fun word => 0 <? length word)
                 (split_char " " normalizedText)).


(** The patterns of [markdownToHtml].  Those of the first chain carry the
    flags [gim]; [i] bears on letters, and these patterns have none. *)

(** Patterns: /^###### (.*$)/gim down to /^# (.*$)/gim. *)
Definition headerRegex (n : nat) : regex :=
  Seqs [Bol; Lit (repeat "#"%char n); Chr " ";
        Grp 1 (Seq (Star (Cls CDot)) Eol)].

Definition headerTemplate (n : string) : template :=
  [RText (lit "<h" ++ lit n ++ lit ">"); RGroup 1;
   RText (lit "</h" ++ lit n ++ lit ">")].

(** Patterns: /\*\*(.*?)\*\*/gim, /\*(.*?)\*/gim and /~~(.*?)~~/gim. *)
Definition strongRegex : regex :=
  Seqs [L "**"; Grp 1 (StarLazy (Cls CDot)); L "**"].
Definition emRegex : regex :=
  Seqs [star_c; Grp 1 (StarLazy (Cls CDot)); star_c].
Definition delRegex : regex :=
  Seqs [L "~~"; Grp 1 (StarLazy (Cls CDot)); L "~~"].

Definition wrap (open close : string) : template :=
  [RText (lit open); RGroup 1; RText (lit close)].

(** Pattern: /```(\w+)?\n([\s\S]*?)```/gim *)
Definition preRegex : regex :=
  Seqs [L "```"; Opt (Grp 1 (Plus (Cls CWord))); Chr nl;
        Grp 2 (StarLazy (Cls CAny)); L "```"].

(** The replacement: a [pre] and a [code] element of class [language-$1]
    around [$2]. *)
Definition preTemplate : template :=
  [RText (lit "<pre><code class=" ++ [dquote] ++ lit "language-"); RGroup 1;
   RText ([dquote] ++ lit ">"); RGroup 2; RText (lit "</code></pre>")].

(** Pattern: /`([^`]+)`/gim *)
Definition codeRegex : regex :=
  Seqs [tick; Grp 1 (Plus (Cls (not_char "`"))); tick].

(** Pattern: /\[([^\]]+)\]\(([^\)]+)\)/gim *)
Definition anchorRegex : regex :=
  Seqs [Chr "["; Grp 1 (Plus (Cls (not_char "]"))); L "](";
        Grp 2 (Plus (Cls (not_char ")"))); Chr ")"].

(** The replacement: an [a] element around [$1], with [$2] as [href], [_blank]
    as [target] and [noopener noreferrer] as [rel]. *)
Definition anchorTemplate : template :=
  [RText (lit "<a href=" ++ [dquote]); RGroup 2;
   RText ([dquote] ++ lit " target=" ++ [dquote] ++ lit "_blank" ++ [dquote]
          ++ lit " rel=" ++ [dquote] ++ lit "noopener noreferrer" ++ [dquote]
          ++ lit ">");
   RGroup 1; RText (lit "</a>")].

(** The image pattern of [markdownToHtml], flags [gim]: as the pattern of
    [extractImages], but for group 2, which is [^\)]+ here, greedy and not
    empty. *)
Definition imgRegex : regex :=
  Seqs [L "!["; Grp 1 (Star (Cls (not_char "]"))); L "](";
        Grp 2 (Plus (Cls (not_char ")")));
        Opt (Seqs [Plus (Cls CSpace); Chr dquote;
                   Grp 3 (Star (Cls (not_char dquote))); Chr dquote]);
        Chr ")"].

(** The replacement: an [img] element with [$2] as [src], [$1] as [alt], [$3]
    as [title] and a fixed [style]. *)
Definition imgTemplate : template :=
  [RText (lit "<img src=" ++ [dquote]); RGroup 2;
   RText ([dquote] ++ lit " alt=" ++ [dquote]); RGroup 1;
   RText ([dquote] ++ lit " title=" ++ [dquote]); RGroup 3;
   RText ([dquote] ++ lit " style=" ++ [dquote]
          ++ lit "max-width: 100%; height: auto;" ++ [dquote] ++ lit " />")].

(** Patterns: /^---+$/gim, /^>\s*(.*$)/gim, /^\s*[-*+]\s+(.* )$/gim,
    /^\s*\d+\.\s+(.* )$/gim and /\n/gim. *)
Definition hrRegex : regex := Seqs [Bol; L "--"; Plus (Chr "-"); Eol].
Definition blockquoteRegex : regex :=
  Seqs [Bol; Chr ">"; Star (Cls CSpace); Grp 1 (Seq (Star (Cls CDot)) Eol)].
Definition bulletItemRegex : regex :=
  Seqs [Bol; Star (Cls CSpace);
        Cls (COneOf [CChar "-"; CChar "*"; CChar "+"]); Plus (Cls CSpace);
        Grp 1 (Star (Cls CDot)); Eol].
Definition numberedItemRegex : regex :=
  Seqs [Bol; Star (Cls CSpace); Plus (Cls CDigit); Chr "."; Plus (Cls CSpace);
        Grp 1 (Star (Cls CDot)); Eol].
Definition lineFeedRegex : regex := Chr nl.

(** The patterns of the second chain; with the flag [s] the dot matches
    every character, and with [i] the letters of the tags match in either
    case.  /(<li>.*?<\/li>(?:<br><li>.*?<\/li>)* )/gims *)
Definition listRegex : regex :=
  Grp 1 (Seqs [LI "<li>"; StarLazy (Cls CAny); LI "</li>";
               Star (Seqs [LI "<br><li>"; StarLazy (Cls CAny); LI "</li>"])]).
(** Pattern: /<ul>(.*?)<\/ul>/gims *)
Definition ulRegex : regex :=
  Seqs [LI "<ul>"; Grp 1 (StarLazy (Cls CAny)); LI "</ul>"].
(** Patterns: /<br>/g, /<\/ul><br><ul>/gim and /<\/ol><br><ol>/gim. *)
Definition brRegex : regex := L "<br>".
Definition ulJoinRegex : regex := LI "</ul><br><ul>".
Definition olJoinRegex : regex := LI "</ol><br><ol>".

(** [(_, content) => '<ul>' + content.replace(/<br>/g, '') + '</ul>'] *)
Definition cleanList (m : mstate) : str :=
  lit "<ul>" ++ replace_all false brRegex [] (cap 1 m) ++ lit "</ul>".

(** The pattern of the lines that are left as they are:
    /^<[h1-6]|^<ul|^<ol|^<li|^<pre|^<blockquote|^<hr|^<img/ *)
Definition blockTagRegex : regex :=
  Alts [ Seqs [Bol; Chr "<"; Cls (COneOf [CChar "h"; CRange "1" "6"])];
         Seqs [Bol; L "<ul"]; Seqs [Bol; L "<ol"]; Seqs [Bol; L "<li"];
         Seqs [Bol; L "<pre"]; Seqs [Bol; L "<blockquote"]; Seqs [Bol; L "<hr"];
         Seqs [Bol; L "<img"] ].

(** The function mapped over the lines. *)
Definition paragraphOf (line : str) : str :=
  let trimmed := trim line in
  match trimmed with
  | [] => trimmed
  | _ =>
      if negb (test false blockTagRegex trimmed)
      then lit "<p>" ++ trimmed ++ lit "</p>"
      else trimmed
  end.

(** The first chain of [markdownToHtml], innermost first. *)
Definition inlineHtml (markdownContent : str) : str :=
    (replace_all true lineFeedRegex [RText (lit "<br>")]
    (replace_all true numberedItemRegex (wrap "<li>" "</li>")
    (replace_all true bulletItemRegex (wrap "<li>" "</li>")
    (replace_all true blockquoteRegex (wrap "<blockquote>" "</blockquote>")
    (replace_all true hrRegex [RText (lit "<hr>")]
    (replace_all true imgRegex imgTemplate
    (replace_all true anchorRegex anchorTemplate
    (replace_all true codeRegex (wrap "<code>" "</code>")
    (replace_all true preRegex preTemplate
    (replace_all true delRegex (wrap "<del>" "</del>")
    (replace_all true emRegex (wrap "<em>" "</em>")
    (replace_all true strongRegex (wrap "<strong>" "</strong>")
    (replace_all true (headerRegex 1) (headerTemplate "1")
    (replace_all true (headerRegex 2) (headerTemplate "2")
    (replace_all true (headerRegex 3) (headerTemplate "3")
    (replace_all true (headerRegex 4) (headerTemplate "4")
    (replace_all true (headerRegex 5) (headerTemplate "5")
    (replace_all true (headerRegex 6) (headerTemplate "6")
       markdownContent)))))))))))))))))).

(** The second chain, up to the split into lines. *)
Definition listHtml (html : str) : str :=
    (replace_all true olJoinRegex []
    (replace_all true ulJoinRegex []
    (replace_all_with true ulRegex cleanList
    (replace_all true listRegex (wrap "<ul>" "</ul>") html)))).

Definition markdownToHtml (markdownContent : str) : str :=
  let html := inlineHtml markdownContent in
  let html := listHtml html in
  concat                                                    (* join *)
    (filter (fun line => 0 <? length (trim line))
       (map paragraphOf (split_str (lit "<br>") html))).


End ContentUtils.

(* ================================================================= *)
(** ** src/pathUtils.ts *)

Module PathUtils.

(** Pattern: /\\/g, replaced by a slash. *)
Definition backslashRegex : regex := Chr bslash.

Definition normalizePath (path : str) : str :=
  replace_all false backslashRegex [RText (lit "/")] path.

(** The class of [/[.*+?^${}()|[\]\\]/g]: the syntax characters that
    [getRelativePath] escapes in the base folder name. *)
Definition syntaxChars : cclass :=
  COneOf (map CChar (lit ".*+?^${}()|[]" ++ [bslash])).

(** [s.replace(/[.*+?^${}()|[\]\\]/g, '\\$&')]: a backslash before each
    syntax character. *)
Definition escapeRegExp (s : str) : str :=
  replace_all false (Cls syntaxChars) [RText [bslash]; RGroup 0] s.

(** [new RegExp(src)] on a source made of plain characters and escaped
    characters: each stands for itself. *)
Fixpoint literalPattern (src : str) : regex :=
  match src with
  | [] => Eps
  | c :: src' =>
      if Ascii.eqb c bslash then
        match src' with
        | d :: src'' => Seq (Chr d) (literalPattern src'')
        | [] => Chr c
        end
      else Seq (Chr c) (literalPattern src')
  end.

(** [new RegExp(`^.*?${escaped}/`)] *)
Definition baseRegex (normalizedBase : str) : regex :=
  Seqs [Bol; StarLazy (Cls CDot); literalPattern (escapeRegExp normalizedBase);
        Chr "/"].

(** Pattern: /^\// *)
Definition leadingSlashRegex : regex := Seqs [Bol; Chr "/"].

Definition getRelativePath (filePath baseFolderName : str) : str :=
  let normalizedPath := normalizePath filePath in
  let normalizedBase := normalizePath baseFolderName in
  if startsWith normalizedBase normalizedPath then
    replace_first false leadingSlashRegex []
      (substring_from (length normalizedBase) normalizedPath)
  else
    let relativePath :=
      replace_first false (baseRegex normalizedBase) [] normalizedPath in
    match relativePath with
    | [] => normalizedPath          (* relativePath || normalizedPath *)
    | _ => relativePath
    end.

(** Pattern: /\.[^/.]+$/ *)
Definition extensionRegex : regex :=
  Seqs [Chr "."; Plus (Cls (CNot (COneOf [CChar "/"; CChar "."]))); Eol].

Definition removeExtension (filename : str) : str :=
  replace_first false extensionRegex [] filename.

(** The extension that [removeExtension] takes off: the text of the match,
    empty when there is none. *)
Definition extensionOf (filename : str) : str :=
  match match_first false extensionRegex filename with
  | Some m => cap 0 m
  | None => []
  end.

(** The patterns of [filenameToSlug]: /_/g, /[^a-z0-9\s-]/g, /\s+/g, /-+/g. *)
Definition underscoreRegex : regex := Chr "_".
Definition slugKeep : cclass :=
  COneOf [CRange "a" "z"; CRange "0" "9"; CSpace; CChar "-"].
Definition specialRegex : regex := Cls (CNot slugKeep).
Definition spacesRegex : regex := Plus (Cls CSpace).
Definition hyphensRegex : regex := Plus (Chr "-").

Definition hyphen : template := [RText (lit "-")].

Definition filenameToSlug (filename : str) : str :=
  trim
    (replace_all false hyphensRegex hyphen        (* multiple hyphens to one *)
    (replace_all false spacesRegex hyphen         (* spaces to hyphens *)
    (replace_all false specialRegex []            (* special characters *)
    (replace_all false underscoreRegex hyphen     (* underscores to hyphens *)
    (toLowerCase
    (removeExtension filename)))))).              (* extension first *)

(** Pattern: /_([a-f0-9]+)$/ *)
Definition hexClass : cclass := COneOf [CRange "a" "f"; CRange "0" "9"].
Definition gitHashRegex : regex :=
  Seqs [Chr "_"; Grp 1 (Plus (Cls hexClass)); Eol].

(** [match?.[1] ?? '-'] *)
Definition getGitHash (path : str) : str :=
  match match_first false gitHashRegex path with
  | Some m => match cap_opt 1 m with Some h => h | None => lit "-" end
  | None => lit "-"
  end.

(** [filePath.split('/').pop() || filePath.split('\\').pop() || ''], then
    the extension is taken off with the pattern of [removeExtension]. *)
Definition getFileNameWithoutExtension (filePath : str) : str :=
  let filename :=
    match pop (split_char "/" filePath) with
    | [] => pop (split_char bslash filePath)
    | f => f
    end in
  replace_first false extensionRegex [] filename.

(** The separators are normalized as in [normalizePath]; the last part is
    dropped and the others are joined again. *)
Definition getDirectoryPath (filePath : str) : str :=
  let parts :=
    split_char "/" (replace_all false backslashRegex [RText (lit "/")] filePath) in
  join (lit "/") (removelast parts).

(** The patterns of [filenameToTitle]: /^\d{4}-\d{2}-\d{2}[_-]?/, /-/g, /_/g
    and /\b\w/g. *)
Definition datePrefixRegex : regex :=
  Seqs [Bol; Count 4 4 (Cls CDigit); Chr "-"; Count 2 2 (Cls CDigit); Chr "-";
        Count 2 2 (Cls CDigit); Opt (Cls (COneOf [CChar "_"; CChar "-"]))].
Definition hyphenRegex : regex := Chr "-".
Definition wordStartRegex : regex := Seqs [WordB; Cls CWord].

Definition blankText : template := [RText (lit " ")].

(** [l => l.toUpperCase()] *)
Definition capitalize (m : mstate) : str := map upper_char (cap 0 m).

Definition filenameToTitle (filename : str) : str :=
  trim
    (replace_all_with false wordStartRegex capitalize  (* first letter of each word *)
    (replace_all false underscoreRegex blankText       (* underscores to spaces *)
    (replace_all false hyphenRegex blankText           (* hyphens to spaces *)
    (replace_first false datePrefixRegex []            (* date prefix *)
    (replace_first false extensionRegex [] filename))))).  (* extension first *)




(** The property names that every object inherits from [Object.prototype]:
    read on an object without such a property of its own, each gives a
    function or an object, which is truthy and has no [push]. *)
Definition inheritedNames : list str :=
  map lit [ "constructor"; "hasOwnProperty"; "isPrototypeOf";
            "propertyIsEnumerable"; "toLocaleString"; "toString"; "valueOf";
            "__proto__"; "__defineGetter__"; "__defineSetter__";
            "__lookupGetter__"; "__lookupSetter__" ]%string.

(** The object that [groupPathsByDirectory] fills: its own properties with
    their arrays, listed as they were created.  Only the lookup of a key is
    used below, not the order in which the keys are enumerated. *)
Definition groups : Type := list (str * list str).

Fixpoint own (directory : str) (g : groups) : option (list str) :=
  match g with
  | [] => None
  | (k, v) :: g' => if str_eqb k directory then Some v else own directory g'
  end.

(** [groups[directory].push(path)] on a property of the object itself. *)
Fixpoint push (directory path : str) (g : groups) : groups :=
  match g with
  | [] => []
  | (k, v) :: g' =>
      if str_eqb k directory then (k, v ++ [path]) :: g'
      else (k, v) :: push directory path g'
  end.

(** One turn of the loop; [None] is the [TypeError] raised by [push] on an
    inherited property. *)
Definition groupStep (g : option groups) (path : str) : option groups :=
  match g with
  | None => None
  | Some g =>
      let directory :=
        match getDirectoryPath path with [] => lit "root" | d => d end in
      match own directory g with
      | Some _ => Some (push directory path g)
      | None =>
          if existsb (str_eqb directory) inheritedNames then None
          else Some (g ++ [(directory, [path])])
      end
  end.

Definition groupPathsByDirectory (paths : list str) : option groups :=
  fold_left groupStep paths (Some []).


End PathUtils.

(* ================================================================= *)
(** ** src/dateUtils.ts *)

Module DateUtils.

(** A time value: milliseconds since the epoch, or NaN. *)
Definition timeval : Type := option Z.

Definition isNaN (t : timeval) : bool :=
  match t with Some _ => false | None => true end.

(** [a > b] on numbers: false as soon as one side is NaN. *)
Definition gt (a b : timeval) : bool :=
  match a, b with
  | Some x, Some y => (y <? x)%Z
  | _, _ => false
  end.

(** The alternatives of the label group of [getCreationDate], as the source
    lists them, blanks included. *)
Definition creationLabels : list regex :=
  [ Seqs [L "**Date"; Opt (Chr ":"); L "**"];
    L "Date:"; L "Created:";
    L "Created At:"; L "Created On:"; L "Created Date:"; L "Created Time:";
    L "Created At"; L "Created On"; L "Created Date"; L "Created Time";
    L "Date ";
    L " Date Created: "; L " Date Created "; L " Date Created On ";
    L " Date Created At "; L " Date Created On: "; L " Date Created Time ";
    L " " ].

(** The pattern of [getCreationDate], flag m: the label group, a blank,
    group 1 = .+? and then a line feed or [$]. *)
Definition creationRegex : regex :=
  Seqs [Alts creationLabels; Chr " "; Grp 1 (PlusLazy (Cls CDot));
        Alt (Chr nl) Eol].

(** The pattern of [getUpdateDate], flag m. *)
Definition updateWords : regex :=
  Alts [L "Updated"; L "Modified"; L "Changed"; L "Last Changed"].
Definition updateRegex : regex :=
  Seqs [Alt (Seqs [L "**"; updateWords; Opt (Chr ":"); L "**"])
            (Seqs [updateWords; Chr ":"]);
        Chr " "; Grp 1 (PlusLazy (Cls CDot)); Alt (Chr nl) Eol].

Section Dates.

(** The [Date] objects of the host: [getTime] reads the time value of one,
    [newDate] is the constructor applied to a string. *)
Variable Date : Type.
Variable getTime : Date -> timeval.
Variable newDate : str -> Date.

Definition parseCaptured (m : mstate) : option Date :=
  let dateStr := trim (cap 1 m) in
  let parsedDate := newDate dateStr in
  if isNaN (getTime parsedDate) then None else Some parsedDate.

Definition getCreationDate (content : str) : option Date :=
  match match_first true creationRegex content with
  | None => None
  | Some m => parseCaptured m
  end.

Definition getUpdateDate (content : str) : option Date :=
  match match_first true updateRegex content with
  | None => None
  | Some m => parseCaptured m
  end.

Definition getMostRecentDate (createdAt updatedAt : option Date) : option Date :=
  match createdAt, updatedAt with
  | None, None => None
  | None, Some _ => updatedAt
  | Some _, None => createdAt
  | Some c, Some u => if gt (getTime u) (getTime c) then updatedAt else createdAt
  end.

End Dates.

(** A host to run the functions on: a [Date] object is a reference paired
    with its time value, and the constructor reads the date-only form
    YYYY-MM-DD of the ECMAScript date-time format as UTC midnight.  What the
    constructor makes of other strings is left to the engine by the
    language; here they give an invalid date. *)
Module Host.

Definition digitVal (c : ascii) : Z := (Z.of_nat (code c) - 48)%Z.

Definition isLeap (y : Z) : bool :=
  ((y mod 4 =? 0) && negb (y mod 100 =? 0) || (y mod 400 =? 0))%Z.

Definition daysInMonth (y m : Z) : Z :=
  (if m =? 2 then (if isLeap y then 29 else 28)
   else if (m =? 4) || (m =? 6) || (m =? 9) || (m =? 11) then 30 else 31)%Z.

(** Days from 1970-01-01 to the civil date y-m-d. *)
Definition daysFromCivil (y m d : Z) : Z :=
  (let y' := if m <=? 2 then y - 1 else y in
   let era := y' / 400 in
   let yoe := y' - era * 400 in
   let mp := if 2 <? m then m - 3 else m + 9 in
   let doy := (153 * mp + 2) / 5 + d - 1 in
   let doe := yoe * 365 + yoe / 4 - yoe / 100 + doy in
   era * 146097 + doe - 719468)%Z.

Definition parseDateOnly (s : str) : timeval :=
  match s with
  | [y1; y2; y3; y4; h1; m1; m2; h2; d1; d2] =>
      if forallb is_digit [y1; y2; y3; y4; m1; m2; d1; d2]
         && Ascii.eqb h1 "-" && Ascii.eqb h2 "-"
      then
        (let y := digitVal y1 * 1000 + digitVal y2 * 100
                  + digitVal y3 * 10 + digitVal y4 in
         let m := digitVal m1 * 10 + digitVal m2 in
         let d := digitVal d1 * 10 + digitVal d2 in
         if (1 <=? m) && (m <=? 12) && (1 <=? d) && (d <=? daysInMonth y m)
         then Some (daysFromCivil y m d * 86400000)
         else None)%Z
      else None
  | _ => None
  end.

Record Date : Type := MkDate {
  ref : nat;
  time : timeval
}.

Definition getTime (d : Date) : timeval := time d.
Definition newDate (s : str) : Date := MkDate 0 (parseDateOnly s).

End Host.

(** The pattern of [getUpdatedTimeFromContent]: /updated:\s*(.+)/i *)
Definition updatedLineRegex : regex :=
  Seqs [LI "updated:"; Star (Cls CSpace); Grp 1 (Plus (Cls CDot))].

(** [line.toLowerCase().startsWith('updated:')] *)
Definition isUpdateLine (line : str) : bool :=
  startsWith (lit "updated:") (toLowerCase line).

(** The pattern of [getUpdatedTimeFromPath]: /_([a-f0-9]+)$/ *)
Definition pathStampRegex : regex :=
  Seqs [Chr "_"; Grp 1 (Plus (Cls (COneOf [CRange "a" "f"; CRange "0" "9"]))); Eol].

(** The units of [getTimeAgo], largest first, with their length in seconds. *)
Definition intervals : list (str * Z) :=
  [ (lit "year", 31536000%Z); (lit "month", 2592000%Z); (lit "week", 604800%Z);
    (lit "day", 86400%Z); (lit "hour", 3600%Z); (lit "minute", 60%Z) ].

(** The loop over the units; [Math.floor] of the quotient is the division of
    integers rounded down. *)
Fixpoint timeAgoLoop (diffInSeconds : Z) (l : list (str * Z)) : str :=
  match l with
  | [] => lit "just now"
  | (label, seconds) :: l' =>
      let count := (diffInSeconds / seconds)%Z in
      if (1 <=? count)%Z then
        lit (DecimalString.NilEmpty.string_of_uint (N.to_uint (Z.to_N count)))
        ++ lit " " ++ label ++ (if (1 <? count)%Z then lit "s" else [])
        ++ lit " ago"
      else timeAgoLoop diffInSeconds l'
  end.

Section MoreDates.

Variable Date : Type.
Variable getTime : Date -> timeval.
Variable newDate : str -> Date.

(** The date is built from the captured text as it stands and returned
    without a check of its time value. *)
Definition getUpdatedTimeFromContent (content : str) : option Date :=
  let lines := split_char nl content in
  match find isUpdateLine lines with
  | Some updateLine =>
      match match_first false updatedLineRegex updateLine with
      | Some dateMatch => Some (newDate (cap 1 dateMatch))
      | None => None
      end
  | None => None
  end.

Definition getUpdatedTimeFromPath (path : str) : option Date :=
  match match_first false pathStampRegex path with
  | Some m => Some (newDate (cap 1 m))
  | None => None
  end.

(** [now] is the value of [new Date()] at the call.  With a time value that
    is NaN the difference is NaN, no count reaches 1 and the loop runs out.
    Time values are integers; the subtraction and the divisions are those of
    integers as long as the difference stays below 2^53 in size, which is
    where the numbers of the language are exact. *)
Definition getTimeAgo (now date : Date) : str :=
  match getTime now, getTime date with
  | Some n, Some d => timeAgoLoop ((n - d) / 1000)%Z intervals
  | _, _ => lit "just now"
  end.

End MoreDates.


End DateUtils.

(* ================================================================= *)
(** ** src/pathUtils.ts, the functions that read dates *)

Module PathDates.

Import PathUtils DateUtils.

(** The patterns that [extractDateFromPath] tries in turn: /(\d{4}-\d{2}-\d{2})/,
    /(\d{4}_\d{2}_\d{2})/, /(\d{8})/, /(\d{2}-\d{2}-\d{4})/ and
    /(\d{2}_\d{2}_\d{4})/. *)
Definition digits (n : nat) : regex := Count n n (Cls CDigit).
Definition datePatterns : list regex :=
  [ Grp 1 (Seqs [digits 4; Chr "-"; digits 2; Chr "-"; digits 2]);
    Grp 1 (Seqs [digits 4; Chr "_"; digits 2; Chr "_"; digits 2]);
    Grp 1 (digits 8);
    Grp 1 (Seqs [digits 2; Chr "-"; digits 2; Chr "-"; digits 4]);
    Grp 1 (Seqs [digits 2; Chr "_"; digits 2; Chr "_"; digits 4]) ].

(** The order of [sortPathsByDate]. *)
Inductive order : Type := Asc | Desc.

Section Dates.

Variable Date : Type.
Variable getTime : Date -> timeval.
Variable newDate : str -> Date.

(** The loop over the patterns: the first one that matches and gives a
    valid date decides. *)
Fixpoint tryPatterns (filename : str) (patterns : list regex) : option Date :=
  match patterns with
  | [] => None
  | pattern :: patterns' =>
      match match_first false pattern filename with
      | Some m =>
          let dateStr := replace_all false underscoreRegex hyphen (cap 1 m) in
          let date := newDate dateStr in
          if negb (isNaN (getTime date)) then Some date
          else tryPatterns filename patterns'
      | None => tryPatterns filename patterns'
      end
  end.

Definition extractDateFromPath (path : str) : option Date :=
  tryPatterns (getFileNameWithoutExtension path) datePatterns.

(** The comparator of [sortPathsByDate]: the number it returns, NaN when a
    time value is. *)
Definition minus (a b : timeval) : timeval :=
  match a, b with
  | Some x, Some y => Some (x - y)%Z
  | _, _ => None
  end.

Definition compareByDate (o : order) (a b : str) : timeval :=
  match extractDateFromPath a, extractDateFromPath b with
  | None, None => Some 0%Z
  | None, Some _ => match o with Desc => Some 1%Z | Asc => Some (-1)%Z end
  | Some _, None => match o with Desc => Some (-1)%Z | Asc => Some 1%Z end
  | Some dateA, Some dateB =>
      let timeA := getTime dateA in
      let timeB := getTime dateB in
      match o with Desc => minus timeB timeA | Asc => minus timeA timeB end
  end.

(** [paths.sort(cmp)]: the sort is stable, and the order it produces with a
    consistent comparator is fixed by the language; it is computed here by
    insertion from the right.  [a] goes after [b] when the comparator
    returns a positive number for them.  The source sorts the array it is
    given in place and returns that same array; the list here is its
    content after the call. *)
Definition sortsAfter (o : order) (a b : str) : bool :=
  match compareByDate o a b with
  | Some v => (0 <? v)%Z
  | None => false
  end.

Fixpoint insertPath (o : order) (a : str) (sorted : list str) : list str :=
  match sorted with
  | [] => [a]
  | b :: sorted' => if sortsAfter o a b then b :: insertPath o a sorted' else a :: sorted
  end.

Definition sortPathsByDate (paths : list str) (o : order) : list str :=
  fold_right (insertPath o) [] paths.

End Dates.

End PathDates.

(* ================================================================= *)
(** ** src/validationUtils.ts *)

Module ValidationUtils.

Import ContentUtils.

(** Decimal rendering of a number inside a template literal. *)
Definition showNat (n : nat) : str :=
  lit (DecimalString.NilEmpty.string_of_uint (Nat.to_uint n)).

(** Pattern: /^#{1,6}\s+.+$/m, also used with the flags gm for the statistics. *)
Definition headingTestRegex : regex :=
  Seqs [Bol; Count 1 6 hash; Plus (Cls CSpace); Plus (Cls CDot); Eol].

(** The pattern for markdown syntax, flag m: one group of five alternatives,
    \*\*.*\*\* or \*.*\* or `.*` or \[.*\]\(.*\) or ^[-*+]\s+ *)
Definition syntaxTestRegex : regex :=
  Grp 1 (Alts
    [ Seqs [L "**"; Star (Cls CDot); L "**"];
      Seqs [star_c; Star (Cls CDot); star_c];
      Seqs [tick; Star (Cls CDot); tick];
      Seqs [Chr "["; Star (Cls CDot); L "]("; Star (Cls CDot); Chr ")"];
      Seqs [Bol; Cls (COneOf [CChar "-"; CChar "*"; CChar "+"]);
            Plus (Cls CSpace)] ]).

Definition isValidMarkdown (content : str) : bool :=
  match content with
  | [] => false                                  (* !content *)
  | _ =>
      let hasHeadings := test true headingTestRegex content in
      let hasText := 0 <? length (trim content) in
      let hasMarkdownSyntax := test true syntaxTestRegex content in
      hasText && (hasHeadings || hasMarkdownSyntax || (10 <? length content))
  end.

Record frontmatterResult : Type := FrontmatterResult {
  fm_isValid : bool;
  fm_frontmatter : option (list (str * str));
  fm_content : option str;
  fm_error : option str
}.

(** Pattern: /^---\s*\n([\s\S]*?)\n---\s*\n([\s\S]* )$/ *)
Definition frontmatterRegex : regex :=
  Seqs [Bol; L "---"; Star (Cls CSpace); Chr nl;
        Grp 1 (StarLazy (Cls CAny)); Chr nl; L "---"; Star (Cls CSpace);
        Chr nl; Grp 2 (Star (Cls CAny)); Eol].

(** The pattern that takes a quote off either end of a value, flag g. *)
Definition quoteClass : cclass := COneOf [CChar dquote; CChar "'"].
Definition quotesRegex : regex :=
  Alt (Seqs [Bol; Cls quoteClass]) (Seqs [Cls quoteClass; Eol]).

(** [line.indexOf(':')] as the text before and after the first colon. *)
Fixpoint cutAtColon (acc : str) (line : str) : option (str * str) :=
  match line with
  | [] => None
  | c :: line' =>
      if Ascii.eqb c ":" then Some (rev acc, line')
      else cutAtColon (c :: acc) line'
  end.

(** [frontmatter[key] = value] *)
Fixpoint setKey (key value : str) (o : list (str * str)) : list (str * str) :=
  match o with
  | [] => [(key, value)]
  | (k, v) :: o' =>
      if str_eqb k key then (k, value) :: o' else (k, v) :: setKey key value o'
  end.

Definition frontmatterLine (frontmatter : list (str * str)) (line : str)
  : list (str * str) :=
  match trim line with
  | [] => frontmatter
  | _ =>
      match cutAtColon [] line with
      | None => frontmatter
      | Some (before, after) =>
          let key := trim before in
          let value := trim after in
          let cleanValue := replace_all false quotesRegex [] value in
          setKey key cleanValue frontmatter
      end
  end.

(** No operation of the guarded block raises, so the handler that would
    report an invalid frontmatter is never entered. *)
Definition validateFrontmatter (content : str) : frontmatterResult :=
  match match_first false frontmatterRegex content with
  | None => FrontmatterResult true None (Some content) None
  | Some m =>
      let frontmatterText := cap 1 m in
      let markdownContent := cap 2 m in
      let lines := split_char nl frontmatterText in
      FrontmatterResult true (Some (fold_left frontmatterLine lines []))
        (Some markdownContent) None
  end.

(** The URL pattern shared by the link and image checks:
    ^https?:\/\/(www\.)?[-a-zA-Z0-9@:%._\+~#=]{1,256}\.[a-zA-Z0-9()]{1,6}\b
    followed by ([-a-zA-Z0-9()@:%_\+.~#?&//=]* )$ *)
Definition alnum : list cclass := [CRange "a" "z"; CRange "A" "Z"; CRange "0" "9"].
Definition hostClass : cclass :=
  COneOf (CChar "-" :: alnum ++ map CChar (lit "@:%._+~#=")).
Definition tldClass : cclass := COneOf (alnum ++ map CChar (lit "()")).
Definition pathClass : cclass :=
  COneOf (CChar "-" :: alnum ++ map CChar (lit "()@:%_+.~#?&//=")).
Definition urlPattern : regex :=
  Seqs [Bol; L "http"; Opt (Chr "s"); L "://"; Opt (Grp 1 (L "www."));
        Count 1 256 (Cls hostClass); Chr "."; Count 1 6 (Cls tldClass); WordB;
        Grp 2 (Star (Cls pathClass)); Eol].

Definition isHttp (u : str) : bool :=
  startsWith (lit "http://") u || startsWith (lit "https://") u.

Definition blank (s : str) : bool :=
  match trim s with [] => true | _ => false end.

Record linkResult : Type := LinkResult {
  lr_text : str;
  lr_url : str;
  lr_isValid : bool;
  lr_error : option str
}.

Definition checkLink (m : mstate) : linkResult :=
  let text := cap 1 m in
  let url := cap 2 m in
  if blank url then
    LinkResult text url false (Some (lit "Empty URL"))
  else if isHttp url then
    if test false urlPattern url then LinkResult text url true None
    else LinkResult text url false (Some (lit "Invalid URL format"))
  else if startsWith (lit "#") url then
    if length url =? 1
    then LinkResult text url false (Some (lit "Empty anchor"))
    else LinkResult text url true None
  else if startsWith (lit "/") url || includes (lit ".") url then
    if includes (lit "..") url && includes (lit "./") url
    then LinkResult text url false (Some (lit "Potentially unsafe relative path"))
    else LinkResult text url true None
  else LinkResult text url true None.

Definition validateMarkdownLinks (content : str) : list linkResult :=
  map (fun f => checkLink (snd f)) (match_all false linkRegex content).

Record imageResult : Type := ImageResult {
  ir_alt : str;
  ir_src : str;
  ir_isValid : bool;
  ir_error : option str
}.

(** Pattern: /!\[([^\]]* )\]\(([^)]* )\)/g *)
Definition imageCheckRegex : regex :=
  Seqs [L "!["; Grp 1 (Star (Cls (not_char "]"))); L "](";
        Grp 2 (Star (Cls (not_char ")"))); Chr ")"].

(** The alt text is checked first, then the source; a later assignment
    overwrites the error of an earlier one. *)
Definition checkImage (m : mstate) : imageResult :=
  let alt := cap 1 m in
  let src := cap 2 m in
  let '(isValid, error) :=
    if blank alt then (false, Some (lit "Missing alt text")) else (true, None) in
  let '(isValid, error) :=
    if blank src then (false, Some (lit "Missing image source"))
    else if isHttp src then
      if test false urlPattern src then (isValid, error)
      else (false, Some (lit "Invalid image URL format"))
    else (isValid, error) in
  ImageResult alt src isValid error.

Definition validateMarkdownImages (content : str) : list imageResult :=
  map (fun f => checkImage (snd f)) (match_all false imageCheckRegex content).

Record tableResult : Type := TableResult {
  tr_lineNumber : nat;
  tr_isValid : bool;
  tr_error : option str
}.

(** Pattern: /^\|?[\s]*:?-+:?[\s]*\|/ *)
Definition separatorRegex : regex :=
  Seqs [Bol; Opt (Chr "|"); Star (Cls CSpace); Opt (Chr ":"); Plus (Chr "-");
        Opt (Chr ":"); Star (Cls CSpace); Chr "|"].

(** [line.split('|').filter(cell => cell.trim() !== '').length] *)
Definition columns (line : str) : nat :=
  length (filter (fun cell => negb (blank cell)) (split_char "|" line)).

(** The loop over the lines: [i] is the index of the current line and
    [before] the line at index [i - 1], absent for the first. *)
Fixpoint tableLoop (i : nat) (before : option str) (lines : list str)
  : list tableResult :=
  match lines with
  | [] => []
  | raw :: lines' =>
      let line := trim raw in
      let here :=
        if test false separatorRegex line then
          let headerLine := match before with Some h => trim h | None => [] end in
          if (length headerLine =? 0) || negb (includes (lit "|") headerLine) then
            [TableResult (i + 1) false
               (Some (lit "Table separator without header row"))]
          else
            let headerCols := columns headerLine in
            let separatorCols := columns line in
            if negb (headerCols =? separatorCols) then
              [TableResult (i + 1) false
                 (Some (lit "Column count mismatch: header has "
                        ++ showNat headerCols ++ lit ", separator has "
                        ++ showNat separatorCols))]
            else [TableResult (i + 1) true None]
        else [] in
      here ++ tableLoop (i + 1) (Some raw) lines'
  end.

Definition validateMarkdownTables (content : str) : list tableResult :=
  tableLoop 0 None (split_char nl content).

Record stats : Type := Stats {
  wordCount : nat;
  headingCount : nat;
  linkCount : nat;
  imageCount : nat
}.

Record report : Type := Report {
  isValid : bool;
  errors : list str;
  warnings : list str;
  report_stats : stats
}.

(** The text of an absent error in a template literal. *)
Definition showError (e : option str) : str :=
  match e with Some s => s | None => lit "undefined" end.

Definition linkWarning (r : linkResult) : list str :=
  if lr_isValid r then []
  else [lit "Invalid link " ++ [dquote] ++ lr_text r ++ [dquote] ++ lit ": "
        ++ showError (lr_error r)].

Definition imageWarning (r : imageResult) : list str :=
  if ir_isValid r then []
  else [lit "Invalid image " ++ [dquote] ++ ir_alt r ++ [dquote] ++ lit ": "
        ++ showError (ir_error r)].

Definition tableWarning (r : tableResult) : list str :=
  if tr_isValid r then []
  else [lit "Table error at line " ++ showNat (tr_lineNumber r) ++ lit ": "
        ++ showError (tr_error r)].

(** Pattern: /\s+/ of the word split. *)
Definition wordSplitRegex : regex := Plus (Cls CSpace).

(** The two arrays are filled in the order of the source: first the content
    check and the frontmatter check into [errors], then the link, image and
    table results into [warnings]. *)
Definition validateMarkdown (content : str) : report :=
  let errors := [] in
  let warnings := [] in
  let errors :=
    if negb (isValidMarkdown content)
    then errors ++ [lit "Content does not appear to be valid markdown"]
    else errors in
  let frontmatterResult := validateFrontmatter content in
  let errors :=
    if negb (fm_isValid frontmatterResult)
    then errors ++ [lit "Frontmatter error: "
                    ++ showError (fm_error frontmatterResult)]
    else errors in
  let warnings := warnings ++ flat_map linkWarning (validateMarkdownLinks content) in
  let warnings := warnings ++ flat_map imageWarning (validateMarkdownImages content) in
  let warnings := warnings ++ flat_map tableWarning (validateMarkdownTables content) in
  let headings := match_all true headingTestRegex content in
  let links := match_all false linkRegex content in
  let images := match_all false imageCheckRegex content in
  let words :=
    filter (fun word => 0 <? length word) (split false wordSplitRegex content) in
  Report (length errors =? 0) errors warnings
    (Stats (length words) (length headings) (length links) (length images)).

End ValidationUtils.

(* ================================================================= *)
(** * General facts about characters, strings and the matcher *)

Module MatcherFacts.

(* ----------------------------------------------------------------- *)
(** ** Characters and strings *)

Lemma all_ascii_complete (c : ascii) : In c all_ascii.
Proof.
  unfold all_ascii.
  rewrite <- (ascii_nat_embedding c).
  apply in_map, in_seq.
  pose proof (nat_ascii_bounded c). lia.
Qed.

Lemma forall_ascii_spec (P : ascii -> bool) :
  forall_ascii P = true -> forall c, P c = true.
Proof.
  unfold forall_ascii. rewrite forallb_forall.
  intros H c. apply H, all_ascii_complete.
Qed.

(** Facts about single characters, each decided on all of them. *)
Lemma char_fact (P : ascii -> bool) (c : ascii) :
  forall_ascii P = true -> P c = true.
Proof. intro H. now apply forall_ascii_spec. Qed.

Definition is_nl : ascii -> bool := Ascii.eqb nl.

Definition is_dot : ascii -> bool := Ascii.eqb ".".

Definition is_hash : ascii -> bool := Ascii.eqb "#".

Definition is_tick : ascii -> bool := Ascii.eqb "`".

Definition is_hyphen : ascii -> bool := Ascii.eqb "-".

Definition is_bslash : ascii -> bool := Ascii.eqb bslash.

Lemma is_nl_eq (c : ascii) : is_nl c = true -> c = nl.
Proof. intro H. symmetry. now apply Ascii.eqb_eq. Qed.

Lemma nl_is_ws (c : ascii) : is_nl c = true -> is_ws c = true.
Proof. intro H. now rewrite (is_nl_eq c H). Qed.

Lemma not_ws_not_nl (c : ascii) : is_ws c = false -> is_nl c = false.
Proof.
  intro H.
  pose proof (forall_ascii_spec (fun a => implb (is_nl a) (is_ws a)) eq_refl c) as E.
  simpl in E. rewrite H in E. now destruct (is_nl c).
Qed.


Definition none_of (P : ascii -> bool) (s : str) : bool :=
  forallb (fun c => negb (P c)) s.

Lemma none_of_rev (P : ascii -> bool) (s : str) :
  none_of P s = true -> none_of P (rev s) = true.
Proof.
  unfold none_of. rewrite !forallb_forall. intros H x Hx.
  apply H. now apply in_rev.
Qed.

Lemma none_of_existsb (P : ascii -> bool) (s : str) :
  none_of P s = true -> existsb P s = false.
Proof.
  induction s as [|c s IH]; [reflexivity|]. simpl. intro H.
  apply andb_true_iff in H as [Hc H]. apply negb_true_iff in Hc.
  now rewrite Hc, IH.
Qed.

Lemma none_of_app (P : ascii -> bool) (a b : str) :
  none_of P (a ++ b) = none_of P a && none_of P b.
Proof. apply forallb_app. Qed.

Lemma forallb_impl (P Q : ascii -> bool) (s : str) :
  (forall c, P c = true -> Q c = true) ->
  forallb P s = true -> forallb Q s = true.
Proof.
  intros H. rewrite !forallb_forall. auto.
Qed.

Lemma forallb_last (P : ascii -> bool) (a : ascii) (s : str) :
  forallb P (a :: s) = true ->
  exists init d, a :: s = init ++ [d] /\ P d = true.
Proof.
  intro H. destruct (exists_last (l := a :: s)) as (init & d & E);
    [discriminate|].
  exists init, d. split; [exact E|].
  rewrite E, forallb_app in H. apply andb_true_iff in H as [_ H].
  simpl in H. now rewrite andb_true_r in H.
Qed.

Lemma map_id_on (f : ascii -> ascii) (P : ascii -> bool) (s : str) :
  (forall c, P c = true -> f c = c) -> forallb P s = true -> map f s = s.
Proof.
  intros H. induction s as [|a s IH]; intro Hs; [reflexivity|].
  simpl in *. apply andb_true_iff in Hs as [Ha Hs].
  now rewrite (H a Ha), IH.
Qed.

Lemma existsb_app_true (P : ascii -> bool) (a b : str) :
  existsb P a = true \/ existsb P b = true -> existsb P (a ++ b) = true.
Proof. rewrite existsb_app, orb_true_iff. auto. Qed.

Lemma dropWhile_none (p : ascii -> bool) (s : str) :
  forallb (fun c => negb (p c)) s = true -> dropWhile p s = s.
Proof.
  destruct s as [|c s]; simpl; [reflexivity|].
  intros H. apply andb_true_iff in H as [Hc _].
  apply negb_true_iff in Hc. now rewrite Hc.
Qed.

Lemma dropWhile_head (p : ascii -> bool) (s : str) :
  match dropWhile p s with
  | [] => True
  | c :: _ => p c = false
  end.
Proof.
  induction s as [|c s IH]; simpl; [exact I|].
  destruct (p c) eqn:E; [exact IH | exact E].
Qed.

Lemma dropWhile_idem (p : ascii -> bool) (s : str) :
  dropWhile p (dropWhile p s) = dropWhile p s.
Proof.
  pose proof (dropWhile_head p s) as H.
  destruct (dropWhile p s) as [|c s']; simpl; [reflexivity|].
  now rewrite H.
Qed.

Lemma dropWhile_suffix (p : ascii -> bool) (s : str) :
  exists a, s = a ++ dropWhile p s /\ forallb p a = true.
Proof.
  induction s as [|c s IH]; simpl.
  - now exists [].
  - destruct (p c) eqn:E.
    + destruct IH as [a [Ha Hp]]. exists (c :: a). simpl. rewrite E.
      split; [now f_equal | exact Hp].
    + now exists [].
Qed.

Lemma dropWhile_nonempty (p : ascii -> bool) (s : str) :
  existsb (fun c => negb (p c)) s = true -> dropWhile p s <> [].
Proof.
  induction s as [|c s IH]; simpl; [discriminate|].
  destruct (p c); simpl; [exact IH | discriminate].
Qed.

Lemma dropWhile_length (p : ascii -> bool) (s : str) :
  length (dropWhile p s) <= length s.
Proof.
  induction s as [|a s IH]; simpl; [lia|].
  destruct (p a); simpl; lia.
Qed.

Lemma dropWhile_tail_length (p : ascii -> bool) (s : str) (a : ascii) (r : str) :
  dropWhile p s = a :: r -> length r < length s.
Proof.
  intro H. pose proof (dropWhile_length p s) as L. rewrite H in L.
  simpl in L. lia.
Qed.

(** The longest prefix made of characters of the class, and the rest. *)
Lemma takeWhile_dropWhile (p : ascii -> bool) (s : str) :
  s = takeWhile p s ++ dropWhile p s.
Proof.
  induction s as [|a s IH]; simpl; [reflexivity|].
  destruct (p a); simpl; [now f_equal | reflexivity].
Qed.

Lemma takeWhile_all (p : ascii -> bool) (s : str) :
  forallb p (takeWhile p s) = true.
Proof.
  induction s as [|a s IH]; simpl; [reflexivity|].
  destruct (p a) eqn:E; simpl; [now rewrite E | reflexivity].
Qed.

(* ----------------------------------------------------------------- *)
(** ** Trimming *)

Lemma trimEnd_prefix (s : str) :
  exists z, s = trimEnd s ++ z /\ forallb is_ws z = true.
Proof.
  unfold trimEnd.
  destruct (dropWhile_suffix is_ws (rev s)) as (a & Ha & Hws).
  exists (rev a). split.
  - rewrite <- rev_app_distr, <- Ha. now rewrite rev_involutive.
  - rewrite forallb_forall in *. intros x Hx. apply Hws. now apply in_rev.
Qed.

(** A trimmed text is empty or starts with a character that is not white
    space. *)
Lemma trim_head (s : str) :
  match trim s with
  | [] => True
  | c :: _ => is_ws c = false
  end.
Proof.
  unfold trim. pose proof (dropWhile_head is_ws s) as Hh. fold (trimStart s) in Hh.
  destruct (trimEnd_prefix (trimStart s)) as (z & Hz & _).
  destruct (trimEnd (trimStart s)) as [|c y]; [exact I|].
  rewrite Hz in Hh. exact Hh.
Qed.

Lemma trim_nonempty (c : ascii) (x : str) :
  is_ws c = false -> trim (c :: x) <> [].
Proof.
  intros Hc. unfold trim, trimStart. simpl. rewrite Hc.
  unfold trimEnd. intro E.
  apply (f_equal (@rev ascii)) in E. rewrite rev_involutive in E. simpl in E.
  revert E. apply dropWhile_nonempty.
  rewrite existsb_app. simpl. rewrite Hc. simpl. apply orb_true_r.
Qed.

Lemma trim_none (s : str) : none_of is_ws s = true -> trim s = s.
Proof.
  intro H. unfold trim, trimStart, trimEnd.
  rewrite (dropWhile_none is_ws s H).
  rewrite (dropWhile_none is_ws (rev s) (none_of_rev _ _ H)).
  apply rev_involutive.
Qed.

Lemma trimEnd_idem (s : str) : trimEnd (trimEnd s) = trimEnd s.
Proof. unfold trimEnd. now rewrite rev_involutive, dropWhile_idem. Qed.

Lemma trim_idem (s : str) : trim (trim s) = trim s.
Proof.
  pose proof (trim_head s) as H.
  unfold trim at 1. unfold trimStart at 1.
  destruct (trim s) as [|c u] eqn:E; [reflexivity|].
  simpl. rewrite H. rewrite <- E. unfold trim. apply trimEnd_idem.
Qed.

(* ----------------------------------------------------------------- *)
(** ** Texts that hold a given text *)

Lemma startsWith_app (p x : str) : startsWith p (p ++ x) = true.
Proof. induction p as [|a p IH]; simpl; [reflexivity|]. now rewrite Ascii.eqb_refl. Qed.

Lemma startsWith_app_l (p a b : str) :
  startsWith p a = true -> startsWith p (a ++ b) = true.
Proof.
  revert a. induction p as [|c p IH]; intros a H; [reflexivity|].
  destruct a as [|d a]; simpl in *; [discriminate|].
  apply andb_true_iff in H as [H1 H2]. rewrite H1. now apply IH.
Qed.

Lemma includes_app_l (p a b : str) :
  includes p a = true -> includes p (a ++ b) = true.
Proof.
  induction a as [|c a IH]; simpl; intro H.
  - rewrite orb_false_r in H. destruct p; [|discriminate].
    destruct b; reflexivity.
  - apply orb_true_iff in H as [H|H].
    + apply (startsWith_app_l p (c :: a) b) in H. simpl in H.
      now rewrite H.
    + rewrite (IH H). apply orb_true_r.
Qed.

Lemma includes_app_r (p a b : str) :
  includes p b = true -> includes p (a ++ b) = true.
Proof.
  induction a as [|c a IH]; simpl; intro H; [exact H|].
  rewrite (IH H). apply orb_true_r.
Qed.

Lemma includes_mid (p a b : str) : includes p (a ++ p ++ b) = true.
Proof.
  apply includes_app_r. destruct p as [|c p]; simpl.
  - destruct b; reflexivity.
  - now rewrite Ascii.eqb_refl, startsWith_app.
Qed.

(* ----------------------------------------------------------------- *)
(** ** What a successful match consumed *)

(** The character before the position reached after [w]. *)
Fixpoint prev_after (p : option ascii) (w : str) : option ascii :=
  match w with
  | [] => p
  | c :: w' => prev_after (Some c) w'
  end.

Lemma prev_after_app (p : option ascii) (a b : str) :
  prev_after p (a ++ b) = prev_after (prev_after p a) b.
Proof. revert p; induction a as [|c a IH]; simpl; intros; [reflexivity | apply IH]. Qed.

(** Zero or more consecutive pieces, each in [P] at its own position. *)
Inductive iter (P : option ascii -> str -> str -> Prop)
  : option ascii -> str -> str -> Prop :=
| iter_nil : forall p t, iter P p [] t
| iter_cons : forall p w1 w2 t,
    P p w1 (w2 ++ t) -> iter P (prev_after p w1) w2 t -> iter P p (w1 ++ w2) t.

(** [lang ml r p w t]: with [p] before it and [t] after it, the text [w] is
    one of the texts [r] can consume.  Bounds and priorities of quantifiers
    are left out: this is the set the matcher chooses from. *)
Fixpoint lang (ml : bool) (r : regex) (p : option ascii) (w t : str) : Prop :=
  match r with
  | Eps => w = []
  | Cls c => exists a, w = [a] /\ in_class c a = true
  | Seq r1 r2 =>
      exists w1 w2, w = w1 ++ w2 /\ lang ml r1 p w1 (w2 ++ t)
                    /\ lang ml r2 (prev_after p w1) w2 t
  | Alt r1 r2 => lang ml r1 p w t \/ lang ml r2 p w t
  | Rep _ _ r1 => iter (lang ml r1) p w t
  | Grp _ r1 => lang ml r1 p w t
  | Bol => w = [] /\ at_bol ml (MState p t []) = true
  | Eol => w = [] /\ at_eol ml (MState p t []) = true
  | WordB => w = [] /\ at_wordb (MState p t []) = true
  end.

(** The states a continuation may be entered with after [w] was consumed
    from [st]. *)
Definition reached (st : mstate) (w t : str) (st' : mstate) : Prop :=
  rest st = w ++ t /\ prev st' = prev_after (prev st) w /\ rest st' = t.

Definition sound_body (ml : bool) (r : regex) : Prop :=
  forall k st res,
    rmatch ml r k st = Some res ->
    exists w t st', reached st w t st' /\ lang ml r (prev st) w t
                    /\ k st' = Some res.

Lemma rep_loop_sound (ml : bool) (r : regex) (g : bool) (k : cont) :
  sound_body ml r ->
  forall n st res,
    rep_loop (rmatch ml r) g k n st = Some res ->
    exists w t st', reached st w t st' /\ iter (lang ml r) (prev st) w t
                    /\ k st' = Some res.
Proof.
  intros Hbody n. induction n as [|n IH]; intros st res H; simpl in H.
  - exists [], (rest st), st. repeat split; [constructor | exact H].
  - assert (Hk : k st = Some res ->
                 exists w t st', reached st w t st' /\
                   iter (lang ml r) (prev st) w t /\ k st' = Some res).
    { intro E. exists [], (rest st), st. repeat split; [constructor | exact E]. }
    assert (Hagain :
      rmatch ml r (fun st' => if length (rest st') <? length (rest st)
                              then rep_loop (rmatch ml r) g k n st' else None) st
      = Some res ->
      exists w t st', reached st w t st' /\
        iter (lang ml r) (prev st) w t /\ k st' = Some res).
    { intro E. apply Hbody in E as (w1 & t1 & st1 & (Hr & Hp & Ht) & Hl & E).
      destruct (length (rest st1) <? length (rest st)); [|discriminate].
      apply IH in E as (w2 & t & st2 & (Hr2 & Hp2 & Ht2) & Hi & E).
      exists (w1 ++ w2), t, st2. split; [|split; [|exact E]].
      - red. rewrite Hr, <- Ht, Hr2, app_assoc, prev_after_app, <- Hp.
        now repeat split.
      - constructor.
        + rewrite <- Hr2, Ht. exact Hl.
        + rewrite <- Hp. exact Hi. }
    destruct g; unfold orelse in H.
    + match type of H with context [match ?x with _ => _ end] =>
        destruct x eqn:E end; [apply Hagain; congruence | now apply Hk].
    + destruct (k st) eqn:E; [apply Hk; congruence | now apply Hagain].
Qed.

(** Soundness of the matcher: whatever it returns was accepted by the
    continuation after a text of the pattern's language was consumed. *)
Theorem rmatch_sound (ml : bool) (r : regex) : sound_body ml r.
Proof.
  induction r as [|c|r1 IH1 r2 IH2|r1 IH1 r2 IH2|g mx r1 IH1|n r1 IH1| | |];
    intros k st res H; simpl in H.
  - exists [], (rest st), st. repeat split; exact H.
  - destruct (rest st) as [|a tl] eqn:E; [discriminate|].
    destruct (in_class c a) eqn:Ec; [|discriminate].
    exists [a], tl, (advance a st tl).
    split; [now repeat split|]. split; [simpl; eauto | exact H].
  - apply IH1 in H as (w1 & t1 & st1 & (Hr & Hp & Ht) & Hl & H).
    apply IH2 in H as (w2 & t & st2 & (Hr2 & Hp2 & Ht2) & Hl2 & H).
    exists (w1 ++ w2), t, st2. split; [|split; [|exact H]].
    + red. rewrite Hr, <- Ht, Hr2, app_assoc, prev_after_app, <- Hp.
      now repeat split.
    + simpl. exists w1, w2. rewrite <- Hr2, Ht, <- Hp. now repeat split.
  - unfold orelse in H. destruct (rmatch ml r1 k st) eqn:E.
    + rewrite <- H in *. apply IH1 in E as (w & t & st' & ? & ? & ?).
      exists w, t, st'. simpl. auto.
    + apply IH2 in H as (w & t & st' & ? & ? & ?).
      exists w, t, st'. simpl. auto.
  - apply (rep_loop_sound ml r1 g k IH1) in H. exact H.
  - apply IH1 in H as (w & t & st' & Hr & Hl & H).
    exists w, t, (set_cap n (consumed st st') st').
    split; [|split; [exact Hl | exact H]].
    destruct Hr as (? & ? & ?). now repeat split.
  - destruct (at_bol ml st) eqn:E; [|discriminate].
    exists [], (rest st), st. repeat split; [|exact H].
    unfold at_bol in *. simpl. exact E.
  - destruct (at_eol ml st) eqn:E; [|discriminate].
    exists [], (rest st), st. repeat split; [|exact H].
    unfold at_eol in *. simpl. exact E.
  - destruct (at_wordb st) eqn:E; [|discriminate].
    exists [], (rest st), st. repeat split; [|exact H].
    unfold at_wordb in *. simpl. exact E.
Qed.

(** A match attempt that succeeds splits the text at its position into the
    text of the match and the text left. *)
Lemma exec_at_sound (ml : bool) (r : regex) (st e : mstate) :
  exec_at ml r st = Some e ->
  exists w, rest st = w ++ rest e /\ lang ml r (prev st) w (rest e)
            /\ prev e = prev_after (prev st) w /\ cap 0 e = w.
Proof.
  unfold exec_at. intro H.
  apply rmatch_sound in H as (w & t & st' & (Hr & Hp & Ht) & Hl & H).
  unfold finish in H. injection H as <-. simpl.
  exists w. rewrite Ht. repeat split; auto.
  unfold cap, cap_opt. simpl. unfold consumed.
  rewrite Hr, Ht, length_app.
  replace (length w + length t - length t) with (length w) by lia.
  now rewrite firstn_app, Nat.sub_diag, firstn_all, app_nil_r.
Qed.

Lemma exec_at_shorter (ml : bool) (r : regex) (st e : mstate) :
  exec_at ml r st = Some e -> length (rest e) <= length (rest st).
Proof.
  intro H. apply exec_at_sound in H as (w & -> & _).
  rewrite length_app. lia.
Qed.

(* ----------------------------------------------------------------- *)
(** ** The texts of literal patterns, of alternatives and of repeated classes *)

Lemma lang_Lit (ml : bool) (s : str) :
  forall p w t, lang ml (Lit s) p w t -> w = s.
Proof.
  induction s as [|c s IH]; simpl; intros p w t H; [exact H|].
  destruct H as (w1 & w2 & -> & (a & -> & Ha) & H2).
  apply Ascii.eqb_eq in Ha. subst a. simpl. f_equal. eauto.
Qed.

Lemma lang_Alts (ml : bool) (l : list regex) :
  forall p w t, lang ml (Alts l) p w t -> exists r, In r l /\ lang ml r p w t.
Proof.
  induction l as [|r l IH]; intros p w t H.
  - simpl in H. destruct H as (a & _ & Ha). discriminate.
  - destruct l as [|r' l].
    + exists r. split; [now left | exact H].
    + destruct H as [H|H].
      * exists r. split; [now left | exact H].
      * destruct (IH _ _ _ H) as (x & Hx & Hl). exists x. split; [now right | exact Hl].
Qed.

(** Repetitions of one character. *)
Lemma iter_chr (ml : bool) (c : ascii) :
  forall p w t, iter (lang ml (Chr c)) p w t -> w = repeat c (length w).
Proof.
  intros p w t H. induction H as [|p w1 w2 t H1 _ IH]; [reflexivity|].
  destruct H1 as (a & -> & Ha). apply Ascii.eqb_eq in Ha. subst a.
  simpl. now f_equal.
Qed.

Lemma iter_cls (ml : bool) (k : cclass) :
  forall p w t, iter (lang ml (Cls k)) p w t -> forallb (in_class k) w = true.
Proof.
  intros p w t H. induction H as [|p w1 w2 t H1 _ IH]; [reflexivity|].
  destruct H1 as (a & -> & Ha). simpl. now rewrite Ha.
Qed.

(* ----------------------------------------------------------------- *)
(** ** Characters a pattern cannot match without *)

(** [needs P r]: every text of [r] holds a character of [P]. *)
Fixpoint needs (P : ascii -> bool) (r : regex) : bool :=
  match r with
  | Cls c => forall_ascii (fun a => implb (in_class c a) (P a))
  | Seq r1 r2 => needs P r1 || needs P r2
  | Alt r1 r2 => needs P r1 && needs P r2
  | Grp _ r1 => needs P r1
  | _ => false
  end.

Lemma needs_sound (P : ascii -> bool) (ml : bool) (r : regex) :
  needs P r = true ->
  forall p w t, lang ml r p w t -> existsb P w = true.
Proof.
  induction r as [|c|r1 IH1 r2 IH2|r1 IH1 r2 IH2|g mx r1 IH1|n r1 IH1| | |];
    simpl; intros N p w t H; try discriminate.
  - destruct H as (a & -> & Ha). simpl.
    pose proof (forall_ascii_spec _ N a) as Hi. simpl in Hi.
    rewrite Ha in Hi. simpl in Hi. now rewrite Hi.
  - destruct H as (w1 & w2 & -> & H1 & H2).
    apply existsb_app_true. apply orb_true_iff in N as [N|N]; eauto.
  - apply andb_true_iff in N as [N1 N2]. destruct H; eauto.
  - eauto.
Qed.

(** Patterns that consume nothing. *)
Definition zero_width (r : regex) : bool :=
  match r with
  | Eps | Bol | Eol | WordB => true
  | _ => false
  end.

Lemma zero_width_sound (ml : bool) (r : regex) :
  zero_width r = true -> forall p w t, lang ml r p w t -> w = [].
Proof. destruct r; simpl; try discriminate; intros _ p w t H; tauto. Qed.

(** [starts P r]: every text of [r] starts with a character of [P]. *)
Fixpoint starts (P : ascii -> bool) (r : regex) : bool :=
  match r with
  | Cls c => forall_ascii (fun a => implb (in_class c a) (P a))
  | Seq r1 r2 => starts P r1 || (zero_width r1 && starts P r2)
  | Alt r1 r2 => starts P r1 && starts P r2
  | Grp _ r1 => starts P r1
  | _ => false
  end.

Lemma starts_sound (P : ascii -> bool) (ml : bool) (r : regex) :
  starts P r = true ->
  forall p w t, lang ml r p w t -> exists a w', w = a :: w' /\ P a = true.
Proof.
  induction r as [|c|r1 IH1 r2 IH2|r1 IH1 r2 IH2|g mx r1 IH1|n r1 IH1| | |];
    simpl; intros N p w t H; try discriminate.
  - destruct H as (a & -> & Ha). exists a, [].
    pose proof (forall_ascii_spec _ N a) as Hi. simpl in Hi.
    rewrite Ha in Hi. now split.
  - destruct H as (w1 & w2 & -> & H1 & H2).
    apply orb_true_iff in N as [N|N].
    + destruct (IH1 N _ _ _ H1) as (a & w' & -> & Ha). now exists a, (w' ++ w2).
    + apply andb_true_iff in N as [Z N].
      rewrite (zero_width_sound ml r1 Z _ _ _ H1) in *. simpl in *. eauto.
  - apply andb_true_iff in N as [N1 N2]. destruct H; eauto.
  - eauto.
Qed.

(** No match where the characters the pattern needs are missing. *)
Lemma exec_at_needs (P : ascii -> bool) (ml : bool) (r : regex) (st : mstate) :
  needs P r = true -> existsb P (rest st) = false -> exec_at ml r st = None.
Proof.
  intros N E. destruct (exec_at ml r st) as [e|] eqn:X; [|reflexivity].
  apply exec_at_sound in X as (w & Hr & Hl & _).
  apply (needs_sound P ml r N) in Hl.
  rewrite Hr, existsb_app, Hl in E. discriminate.
Qed.

Lemma exec_at_starts (P : ascii -> bool) (ml : bool) (r : regex) (st : mstate) :
  starts P r = true ->
  match rest st with [] => True | a :: _ => P a = false end ->
  exec_at ml r st = None.
Proof.
  intros N E. destruct (exec_at ml r st) as [e|] eqn:X; [|reflexivity].
  apply exec_at_sound in X as (w & Hr & Hl & _).
  apply (starts_sound P ml r N) in Hl as (a & w' & -> & Ha).
  rewrite Hr in E. simpl in E. congruence.
Qed.

(** A pattern that starts with a character consumes something, so that the
    loops over its matches move forward. *)
Lemma starts_consumes (P : ascii -> bool) (ml : bool) (r : regex) (st e : mstate) :
  starts P r = true -> exec_at ml r st = Some e ->
  length (rest e) < length (rest st).
Proof.
  intros N H. apply exec_at_sound in H as (w & -> & Hl & _).
  apply (starts_sound P ml r N) in Hl as (a & w' & -> & _).
  simpl. rewrite length_app. lia.
Qed.

(* ----------------------------------------------------------------- *)
(** ** Quantified character classes *)

(** The loop of [c*], [c*?] and [c{0,n}] written out on the text. *)
Fixpoint cls_loop (c : cclass) (g : bool) (k : cont) (n : nat) (st : mstate)
  : option mstate :=
  match n with
  | 0 => k st
  | S n' =>
      let again :=
        match rest st with
        | a :: tl =>
            if in_class c a then cls_loop c g k n' (advance a st tl) else None
        | [] => None
        end in
      if g then orelse again (k st) else orelse (k st) again
  end.

Lemma rep_loop_cls (ml : bool) (c : cclass) (g : bool) (k : cont) :
  forall n st, rep_loop (rmatch ml (Cls c)) g k n st = cls_loop c g k n st.
Proof.
  induction n as [|n IH]; intros st; simpl; [reflexivity|].
  destruct (rest st) as [|a tl] eqn:E; [reflexivity|].
  destruct (in_class c a); [|reflexivity].
  simpl. replace (length tl <? S (length tl)) with true
    by (symmetry; apply Nat.ltb_lt; lia).
  now rewrite IH.
Qed.

(** The state after [w] was consumed from [st], [t] being left. *)
Definition adv (st : mstate) (w t : str) : mstate :=
  MState (prev_after (prev st) w) t (caps st).

Lemma adv_nil (st : mstate) : adv st [] (rest st) = st.
Proof. now destruct st. Qed.

Lemma adv_cons (st : mstate) (a : ascii) (w t : str) :
  adv (advance a st (w ++ t)) w t = adv st (a :: w) t.
Proof. reflexivity. Qed.

Lemma adv_app (st : mstate) (a b t1 t2 : str) :
  adv (adv st a t1) b t2 = adv st (a ++ b) t2.
Proof. unfold adv. simpl. now rewrite prev_after_app. Qed.

(** [t] does not go on with a character of the class. *)
Definition stops (c : cclass) (t : str) : Prop :=
  match t with [] => True | a :: _ => in_class c a = false end.

Lemma dropWhile_stops (c : cclass) (s : str) :
  stops c (dropWhile (in_class c) s).
Proof. exact (dropWhile_head (in_class c) s). Qed.

(** A greedy loop whose longest run is accepted returns just that. *)
Lemma cls_greedy_first (c : cclass) (k : cont) (res : mstate) :
  forall w n st t,
    rest st = w ++ t -> forallb (in_class c) w = true ->
    length w <= n -> (length w = n \/ stops c t) ->
    k (adv st w t) = Some res ->
    cls_loop c true k n st = Some res.
Proof.
  induction w as [|a w IH]; intros n st t Hr Hw Hn Hs Hk.
  - simpl in Hr. rewrite <- Hr, adv_nil in Hk.
    destruct n as [|n]; simpl; [exact Hk|].
    destruct Hs as [Hs|Hs]; [discriminate|].
    rewrite <- Hr in Hs. destruct (rest st) as [|b tl]; simpl; [exact Hk|].
    simpl in Hs. rewrite Hs. exact Hk.
  - simpl in Hw. apply andb_true_iff in Hw as [Ha Hw].
    destruct n as [|n]; simpl in Hn; [lia|].
    simpl. rewrite Hr. simpl. rewrite Ha.
    rewrite (IH n (advance a st (w ++ t)) t); try reflexivity; auto; try lia.
    destruct Hs as [Hs|Hs]; [left; simpl in Hs; lia | now right].
Qed.

(** A greedy loop before a continuation that refuses to start on a character
    of the class always takes the whole run. *)
Lemma cls_greedy_only (c : cclass) (k : cont) :
  (forall st a tl, rest st = a :: tl -> in_class c a = true -> k st = None) ->
  forall w n st t,
    rest st = w ++ t -> forallb (in_class c) w = true ->
    length w <= n -> stops c t ->
    cls_loop c true k n st = k (adv st w t).
Proof.
  intros Hrej. induction w as [|a w IH]; intros n st t Hr Hw Hn Hs.
  - simpl in Hr. rewrite <- Hr, adv_nil.
    destruct n as [|n]; simpl; [reflexivity|].
    rewrite <- Hr in Hs. destruct (rest st) as [|b tl]; simpl; [reflexivity|].
    simpl in Hs. now rewrite Hs.
  - simpl in Hw. apply andb_true_iff in Hw as [Ha Hw].
    destruct n as [|n]; simpl in Hn; [lia|].
    simpl. rewrite Hr. simpl. rewrite Ha.
    rewrite (IH n (advance a st (w ++ t)) t); auto; try lia.
    rewrite adv_cons. rewrite (Hrej st a (w ++ t) Hr Ha).
    now destruct (k (adv st (a :: w) t)).
Qed.

(* ----------------------------------------------------------------- *)
(** ** Running a pattern on a text of known shape *)

Lemma rmatch_seq (ml : bool) (r1 r2 : regex) (k : cont) (st : mstate) :
  rmatch ml (Seq r1 r2) k st = rmatch ml r1 (rmatch ml r2 k) st.
Proof. reflexivity. Qed.

Lemma rmatch_grp (ml : bool) (n : nat) (r : regex) (k : cont) (st : mstate) :
  rmatch ml (Grp n r) k st
  = rmatch ml r (fun st' => k (set_cap n (consumed st st') st')) st.
Proof. reflexivity. Qed.

Lemma rmatch_cls (ml : bool) (c : cclass) (k : cont) (st : mstate) (a : ascii)
  (t : str) :
  rest st = a :: t -> in_class c a = true ->
  rmatch ml (Cls c) k st = k (adv st [a] t).
Proof. intros Hr Ha. simpl. now rewrite Hr, Ha. Qed.

Lemma rmatch_chr (ml : bool) (a : ascii) (k : cont) (st : mstate) (t : str) :
  rest st = a :: t -> rmatch ml (Chr a) k st = k (adv st [a] t).
Proof. intros Hr. apply rmatch_cls; [exact Hr | apply Ascii.eqb_refl]. Qed.

Lemma rmatch_lit (ml : bool) (k : cont) :
  forall s st t, rest st = s ++ t -> rmatch ml (Lit s) k st = k (adv st s t).
Proof.
  induction s as [|a s IH]; intros st t Hr.
  - simpl in *. now rewrite <- Hr, adv_nil.
  - simpl Lit. rewrite rmatch_seq, (rmatch_chr ml a _ st (s ++ t) Hr).
    rewrite (IH _ t); [|reflexivity]. now rewrite adv_app.
Qed.

Lemma consumed_adv (st : mstate) (w t : str) (st' : mstate) :
  rest st = w ++ t -> rest st' = t -> consumed st st' = w.
Proof.
  intros Hr Ht. unfold consumed. rewrite Hr, Ht, length_app.
  replace (length w + length t - length t) with (length w) by lia.
  now rewrite firstn_app, Nat.sub_diag, firstn_all, app_nil_r.
Qed.

Lemma rmatch_rep (ml : bool) (g : bool) (mx : option nat) (r : regex) (k : cont)
  (st : mstate) :
  rmatch ml (Rep g mx r) k st
  = rep_loop (rmatch ml r) g k
      (match mx with Some n => n | None => length (rest st) end) st.
Proof. reflexivity. Qed.

(** [c*], greedy, when what follows accepts the longest run. *)
Lemma rmatch_star_first (ml : bool) (c : cclass) (k : cont) (st : mstate)
  (w t : str) (res : mstate) :
  rest st = w ++ t -> forallb (in_class c) w = true -> stops c t ->
  k (adv st w t) = Some res ->
  rmatch ml (Star (Cls c)) k st = Some res.
Proof.
  intros Hr Hw Hs Hk. unfold Star. rewrite rmatch_rep, rep_loop_cls.
  apply (cls_greedy_first c k res w _ st t); auto.
  rewrite Hr, length_app. lia.
Qed.


(** [c*], greedy, before something that cannot start inside the run. *)
Lemma rmatch_star_only (ml : bool) (c : cclass) (k : cont) (st : mstate)
  (w t : str) :
  (forall st' a tl, rest st' = a :: tl -> in_class c a = true -> k st' = None) ->
  rest st = w ++ t -> forallb (in_class c) w = true -> stops c t ->
  rmatch ml (Star (Cls c)) k st = k (adv st w t).
Proof.
  intros Hrej Hr Hw Hs. unfold Star. rewrite rmatch_rep, rep_loop_cls.
  apply (cls_greedy_only c k Hrej w _ st t); auto.
  rewrite Hr, length_app. lia.
Qed.

Lemma rmatch_bol (ml : bool) (k : cont) (st : mstate) :
  at_bol ml st = true -> rmatch ml Bol k st = k st.
Proof. intro H. simpl. now rewrite H. Qed.

Lemma rmatch_eol (ml : bool) (k : cont) (st : mstate) :
  at_eol ml st = true -> rmatch ml Eol k st = k st.
Proof. intro H. simpl. now rewrite H. Qed.

(* ----------------------------------------------------------------- *)
(** ** The bounds of the loops are wide enough *)

(** A matcher only asks its continuation about positions further on. *)
Lemma rep_loop_ext (body : cont -> mstate -> option mstate) (g : bool) :
  (forall k k' st,
      (forall st', length (rest st') <= length (rest st) -> k st' = k' st') ->
      body k st = body k' st) ->
  forall n k k' st,
    (forall st', length (rest st') <= length (rest st) -> k st' = k' st') ->
    rep_loop body g k n st = rep_loop body g k' n st.
Proof.
  intros Hb. induction n as [|n IH]; intros k k' st H; simpl.
  - apply H. lia.
  - rewrite (H st) by lia. f_equal.
    replace (body (fun st' => if length (rest st') <? length (rest st)
                              then rep_loop body g k n st' else None) st)
      with (body (fun st' => if length (rest st') <? length (rest st)
                             then rep_loop body g k' n st' else None) st);
      [reflexivity|].
    apply Hb. intros st' Hl.
    destruct (length (rest st') <? length (rest st)); [|reflexivity].
    symmetry. apply IH. intros st'' Hl'. apply H. lia.
Qed.

Lemma rmatch_ext (ml : bool) (r : regex) :
  forall k k' st,
    (forall st', length (rest st') <= length (rest st) -> k st' = k' st') ->
    rmatch ml r k st = rmatch ml r k' st.
Proof.
  induction r as [|c|r1 IH1 r2 IH2|r1 IH1 r2 IH2|g mx r1 IH1|n r1 IH1| | |];
    intros k k' st H; simpl.
  - apply H. lia.
  - destruct (rest st) as [|a tl] eqn:E; [reflexivity|].
    destruct (in_class c a); [|reflexivity]. apply H. simpl. lia.
  - apply IH1. intros st' Hl. apply IH2. intros st'' Hl'. apply H. lia.
  - now rewrite (IH1 k k' st H), (IH2 k k' st H).
  - now apply rep_loop_ext.
  - apply IH1. intros st' Hl. apply H. simpl. exact Hl.
  - destruct (at_bol ml st); [apply H; lia | reflexivity].
  - destruct (at_eol ml st); [apply H; lia | reflexivity].
  - destruct (at_wordb st); [apply H; lia | reflexivity].
Qed.

(** The loop of an unbounded quantifier runs at most once per character
    left: any bound from the length of the text left on gives the same
    result. *)
Lemma rep_loop_fuel (ml : bool) (r : regex) (g : bool) (k : cont) :
  forall n m st,
    length (rest st) <= n -> length (rest st) <= m ->
    rep_loop (rmatch ml r) g k n st = rep_loop (rmatch ml r) g k m st.
Proof.
  assert (Hstuck : forall x st,
             length (rest st) = 0 ->
             rmatch ml r (fun st' => if length (rest st') <? length (rest st)
                                     then rep_loop (rmatch ml r) g k x st'
                                     else None) st = None).
  { intros x st H0.
    destruct (rmatch ml r _ st) as [res|] eqn:E; [|reflexivity].
    apply rmatch_sound in E as (w & t & st' & _ & _ & E).
    rewrite H0 in E. discriminate. }
  induction n as [|n IH]; intros m st Hn Hm.
  - destruct m as [|m]; [reflexivity|]. simpl.
    rewrite Hstuck by lia. now destruct g, (k st).
  - destruct m as [|m].
    + simpl. rewrite Hstuck by lia. now destruct g, (k st).
    + simpl. f_equal.
      replace (rmatch ml r (fun st' => if length (rest st') <? length (rest st)
                                       then rep_loop (rmatch ml r) g k n st'
                                       else None) st)
        with (rmatch ml r (fun st' => if length (rest st') <? length (rest st)
                                      then rep_loop (rmatch ml r) g k m st'
                                      else None) st); [reflexivity|].
      apply rmatch_ext. intros st' Hl.
      destruct (length (rest st') <? length (rest st)) eqn:L; [|reflexivity].
      apply Nat.ltb_lt in L. symmetry. apply IH; lia.
Qed.

(** Any fuel above the length of the text gives the same scan. *)
Lemma exec_loop_fuel (ml : bool) (r : regex) :
  forall f1 f2 p s,
    length s < f1 -> length s < f2 ->
    exec_loop ml r f1 p s = exec_loop ml r f2 p s.
Proof.
  induction f1 as [|f1 IH]; intros f2 p s H1 H2; [lia|].
  destruct f2 as [|f2]; [lia|]. simpl.
  destruct (exec_at ml r (start_state p s)) as [e|] eqn:E.
  - f_equal. destruct (length (rest e) <? length s) eqn:L.
    + apply Nat.ltb_lt in L. apply IH; lia.
    + destruct s as [|c s]; [reflexivity|]. simpl in *. apply IH; lia.
  - destruct s as [|c s]; [reflexivity|]. simpl in *. apply IH; lia.
Qed.

Lemma replace_loop_fuel (ml : bool) (r : regex) (t : template) :
  forall f1 f2 p s,
    length s < f1 -> length s < f2 ->
    replace_loop ml r t f1 p s = replace_loop ml r t f2 p s.
Proof.
  induction f1 as [|f1 IH]; intros f2 p s H1 H2; [lia|].
  destruct f2 as [|f2]; [lia|]. simpl.
  destruct (exec_at ml r (start_state p s)) as [e|] eqn:E.
  - destruct (length (rest e) <? length s) eqn:L; f_equal.
    + apply Nat.ltb_lt in L. apply IH; lia.
    + destruct s as [|c s]; [reflexivity|]. simpl in *. f_equal. apply IH; lia.
  - destruct s as [|c s]; [reflexivity|]. simpl in *. f_equal. apply IH; lia.
Qed.

(** The measure of [split_loop]: two steps per character left, and one more
    while a piece is under way. *)
Definition split_measure (cur s : str) : nat :=
  2 * length s + (if length cur =? 0 then 0 else 1).

Lemma split_loop_fuel (ml : bool) (r : regex) :
  forall f1 f2 p cur s,
    split_measure cur s < f1 -> split_measure cur s < f2 ->
    split_loop ml r f1 p cur s = split_loop ml r f2 p cur s.
Proof.
  unfold split_measure.
  induction f1 as [|f1 IH]; intros f2 p cur s H1 H2; [lia|].
  destruct f2 as [|f2]; [lia|]. cbn [split_loop].
  destruct s as [|c s]; [reflexivity|].
  assert (Hpush : split_loop ml r f1 (Some c) (c :: cur) s
                  = split_loop ml r f2 (Some c) (c :: cur) s).
  { apply IH; simpl in *; destruct (length cur =? 0); lia. }
  destruct (exec_at ml r (start_state p (c :: s))) as [e|] eqn:E;
    [|exact Hpush].
  destruct ((length (rest e) <? length (c :: s)) || negb (length cur =? 0))
    eqn:B; [|exact Hpush].
  f_equal. apply exec_at_shorter in E. simpl in E.
  apply orb_true_iff in B as [B|B].
  - apply Nat.ltb_lt in B. simpl in *. apply IH; simpl;
      destruct (length cur =? 0); lia.
  - apply negb_true_iff in B. rewrite B in *. simpl in *. apply IH; simpl; lia.
Qed.

(* ----------------------------------------------------------------- *)
(** ** The scans: one step, and texts in which the pattern finds nothing *)

(** One step of a scan at a position where the pattern matches some text. *)
Lemma exec_loop_match (ml : bool) (r : regex) (f : nat) (p : option ascii)
  (s : str) (e : mstate) :
  exec_at ml r (start_state p s) = Some e ->
  length (rest e) < length s ->
  exec_loop ml r (S f) p s
  = (start_state p s, e) :: exec_loop ml r f (prev e) (rest e).
Proof.
  intros He Hl. simpl. rewrite He.
  apply Nat.ltb_lt in Hl. now rewrite Hl.
Qed.

Lemma replace_loop_match (ml : bool) (r : regex) (t : template) (f : nat)
  (p : option ascii) (s : str) (e : mstate) :
  exec_at ml r (start_state p s) = Some e ->
  length (rest e) < length s ->
  replace_loop ml r t (S f) p s
  = expand t e ++ replace_loop ml r t f (prev e) (rest e).
Proof.
  intros He Hl. simpl. rewrite He.
  apply Nat.ltb_lt in Hl. now rewrite Hl.
Qed.

Lemma replace_loop_miss (ml : bool) (r : regex) (t : template) (f : nat)
  (p : option ascii) (c : ascii) (s : str) :
  exec_at ml r (start_state p (c :: s)) = None ->
  replace_loop ml r t (S f) p (c :: s)
  = c :: replace_loop ml r t f (Some c) s.
Proof. intros He. simpl. now rewrite He. Qed.

(** A scan steps over a prefix in which the pattern cannot start. *)
Lemma exec_loop_skip (P : ascii -> bool) (ml : bool) (r : regex) :
  starts P r = true ->
  forall pre f p s,
    none_of P pre = true ->
    exec_loop ml r (length pre + f) p (pre ++ s)
    = exec_loop ml r f (prev_after p pre) s.
Proof.
  intros N. induction pre as [|c pre IH]; intros f p s H; [reflexivity|].
  simpl. rewrite (exec_at_starts P ml r _ N).
  - apply IH. simpl in H. now apply andb_true_iff in H as [_ H].
  - simpl. simpl in H. apply andb_true_iff in H as [H _].
    now apply negb_true_iff.
Qed.

(** A replacement leaves alone a text without the characters the pattern
    needs. *)
Lemma replace_loop_needs (P : ascii -> bool) (ml : bool) (r : regex) (t : template) :
  needs P r = true ->
  forall f p s, none_of P s = true -> replace_loop ml r t f p s = s.
Proof.
  intros N. induction f as [|f IH]; intros p s H; [reflexivity|].
  simpl. rewrite (exec_at_needs P ml r _ N).
  - destruct s as [|c s]; [reflexivity|]. f_equal. apply IH.
    simpl in H. now apply andb_true_iff in H as [_ H].
  - simpl. clear -H. induction s as [|c s IHs]; [reflexivity|].
    simpl in *. apply andb_true_iff in H as [Hc H].
    apply negb_true_iff in Hc. rewrite Hc. now apply IHs.
Qed.

Lemma replace_all_needs (P : ascii -> bool) (ml : bool) (r : regex) (t : template)
  (s : str) :
  needs P r = true -> none_of P s = true -> replace_all ml r t s = s.
Proof. intros. now apply (replace_loop_needs P). Qed.

Lemma replace_loop_none (ml : bool) (r : regex) (t : template) :
  forall f p s,
    (forall a b, s = a ++ b ->
                 exec_at ml r (start_state (prev_after p a) b) = None) ->
    replace_loop ml r t f p s = s.
Proof.
  induction f as [|f IH]; intros p s H; [reflexivity|].
  cbn [replace_loop]. pose proof (H [] s eq_refl) as E. cbn [prev_after] in E.
  rewrite E. destruct s as [|c s]; [reflexivity|]. f_equal.
  apply IH. intros a b ->. exact (H (c :: a) b eq_refl).
Qed.

Lemma search_none (ml : bool) (r : regex) :
  forall s p,
    (forall a b, s = a ++ b ->
                 exec_at ml r (start_state (prev_after p a) b) = None) ->
    search ml r p s = None.
Proof.
  induction s as [|c s IH]; intros p H; cbn [search].
  - pose proof (H [] [] eq_refl) as E. cbn [prev_after] in E. now rewrite E.
  - pose proof (H [] (c :: s) eq_refl) as E. cbn [prev_after] in E. rewrite E.
    rewrite IH; [reflexivity|].
    intros a b ->. apply (H (c :: a) b). reflexivity.
Qed.

Lemma search_some (ml : bool) (r : regex) :
  forall s p sk st e,
    search ml r p s = Some (sk, (st, e)) ->
    s = sk ++ rest st
    /\ st = start_state (prev_after p sk) (rest st)
    /\ exec_at ml r st = Some e.
Proof.
  induction s as [|c s IH]; intros p sk st e H; cbn [search] in H.
  - destruct (exec_at ml r (start_state p [])) as [e'|] eqn:E; [|discriminate].
    injection H as <- <- <-. now repeat split.
  - destruct (exec_at ml r (start_state p (c :: s))) as [e'|] eqn:E.
    + injection H as <- <- <-. now repeat split.
    + destruct (search ml r (Some c) s) as [[sk' [st' e']]|] eqn:S; [|discriminate].
      injection H as <- <- <-.
      destruct (IH _ _ _ _ S) as (Hs & Hst & He).
      repeat split; [simpl; now f_equal | exact Hst | exact He].
Qed.

Lemma search_needs (P : ascii -> bool) (ml : bool) (r : regex) (p : option ascii)
  (s : str) :
  needs P r = true -> none_of P s = true -> search ml r p s = None.
Proof.
  intros N H. apply search_none. intros a b ->.
  apply (exec_at_needs P ml r _ N). simpl.
  rewrite none_of_app in H. apply andb_true_iff in H as [_ H].
  now apply none_of_existsb.
Qed.

Lemma search_skip (P : ascii -> bool) (ml : bool) (r : regex) :
  starts P r = true ->
  forall pre p s e,
    none_of P pre = true ->
    exec_at ml r (start_state (prev_after p pre) s) = Some e ->
    search ml r p (pre ++ s)
    = Some (pre, (start_state (prev_after p pre) s, e)).
Proof.
  intros N. induction pre as [|c pre IH]; intros p s e H He.
  - simpl in *. destruct s; cbn [search]; now rewrite He.
  - simpl in H. apply andb_true_iff in H as [Hc H].
    apply negb_true_iff in Hc.
    change ((c :: pre) ++ s) with (c :: (pre ++ s)). cbn [search].
    rewrite (exec_at_starts P ml r _ N) by exact Hc.
    now rewrite (IH (Some c) s e H He).
Qed.

(** The first piece of a split starts with the piece under way and goes on
    with a prefix of the text left. *)
Lemma split_loop_first (ml : bool) (r : regex) :
  forall fuel p cur s,
    exists x y tl,
      split_loop ml r fuel p cur s = (rev cur ++ x) :: tl /\ s = x ++ y.
Proof.
  induction fuel as [|fuel IH]; intros p cur s.
  - exists s, [], []. simpl. now rewrite app_nil_r.
  - destruct s as [|c s].
    + exists [], [], []. simpl. now rewrite app_nil_r.
    + cbn [split_loop].
      assert (Hpush : exists x y tl,
                 split_loop ml r fuel (Some c) (c :: cur) s = (rev cur ++ x) :: tl
                 /\ c :: s = x ++ y).
      { destruct (IH (Some c) (c :: cur) s) as (x & y & tl & E & ->).
        exists (c :: x), y, tl. split; [|reflexivity].
        rewrite E. simpl. now rewrite <- app_assoc. }
      destruct (exec_at ml r (start_state p (c :: s))) as [e|]; [|exact Hpush].
      destruct ((length (rest e) <? length (c :: s)) || negb (length cur =? 0));
        [|exact Hpush].
      exists [], (c :: s), (split_loop ml r fuel (prev e) [] (rest e)).
      now rewrite app_nil_r.
Qed.

(* ----------------------------------------------------------------- *)
(** ** Patterns that do not look behind *)

(** Patterns that do not look behind: no [^] and no [\b]. *)
Fixpoint nolook (r : regex) : bool :=
  match r with
  | Bol | WordB => false
  | Seq r1 r2 | Alt r1 r2 => nolook r1 && nolook r2
  | Rep _ _ r1 | Grp _ r1 => nolook r1
  | _ => true
  end.

(** States and results that differ at most in the character before. *)
Definition same_ahead (a b : mstate) : Prop :=
  rest a = rest b /\ caps a = caps b.

Definition same_result (x y : option mstate) : Prop :=
  match x, y with
  | Some a, Some b => same_ahead a b
  | None, None => True
  | _, _ => False
  end.

Definition same_cont (k k' : cont) : Prop :=
  forall a b, same_ahead a b -> same_result (k a) (k' b).

Lemma same_orelse (x x' y y' : option mstate) :
  same_result x x' -> same_result y y' ->
  same_result (orelse x y) (orelse x' y').
Proof. destruct x, x'; simpl; tauto. Qed.

Lemma rep_loop_nolook (body body' : cont -> mstate -> option mstate) (g : bool) :
  (forall k k' a b, same_cont k k' -> same_ahead a b ->
                    same_result (body k a) (body' k' b)) ->
  forall n k k' a b,
    same_cont k k' -> same_ahead a b ->
    same_result (rep_loop body g k n a) (rep_loop body' g k' n b).
Proof.
  intros Hb. induction n as [|n IH]; intros k k' a b Hk Hab; simpl.
  - now apply Hk.
  - assert (same_result
              (body (fun st' => if length (rest st') <? length (rest a)
                                then rep_loop body g k n st' else None) a)
              (body' (fun st' => if length (rest st') <? length (rest b)
                                 then rep_loop body' g k' n st' else None) b)).
    { apply Hb; [|exact Hab]. intros x y Hxy.
      destruct Hab as [Hr _]. destruct Hxy as [Hxr Hxc].
      rewrite Hxr, Hr.
      destruct (length (rest y) <? length (rest b)); [|exact I].
      apply IH; [exact Hk | now split]. }
    destruct g; apply same_orelse; auto.
Qed.

Lemma rmatch_nolook (ml : bool) (r : regex) :
  nolook r = true ->
  forall k k' a b, same_cont k k' -> same_ahead a b ->
                   same_result (rmatch ml r k a) (rmatch ml r k' b).
Proof.
  induction r as [|c|r1 IH1 r2 IH2|r1 IH1 r2 IH2|g mx r1 IH1|n r1 IH1| | |];
    simpl; intros N k k' a b Hk Hab; try discriminate.
  - now apply Hk.
  - destruct Hab as [Hr Hc]. rewrite Hr.
    destruct (rest b) as [|x tl]; [exact I|].
    destruct (in_class c x); [|exact I].
    apply Hk. split; simpl; auto.
  - apply andb_true_iff in N as [N1 N2].
    apply IH1; auto. intros x y Hxy. apply IH2; auto.
  - apply andb_true_iff in N as [N1 N2].
    apply same_orelse; [apply IH1 | apply IH2]; auto.
  - replace (match mx with Some n => n | None => length (rest a) end)
      with (match mx with Some n => n | None => length (rest b) end)
      by (destruct Hab as [-> _]; reflexivity).
    apply rep_loop_nolook; auto.
  - apply IH1; auto. intros x y Hxy. apply Hk.
    destruct Hab as [Hr Hc]. destruct Hxy as [Hxr Hxc].
    unfold consumed. rewrite Hr, Hxr. split; simpl; congruence.
  - unfold at_eol. destruct Hab as [Hr Hc]. rewrite Hr.
    destruct (match rest b with [] => true | c :: _ => ml && is_lt c end);
      [|exact I].
    apply Hk. now split.
Qed.

Lemma exec_at_nolook (ml : bool) (r : regex) (p p' : option ascii) (s : str) :
  nolook r = true ->
  same_result (exec_at ml r (start_state p s)) (exec_at ml r (start_state p' s)).
Proof.
  intro N. unfold exec_at. apply rmatch_nolook; auto.
  - intros x y [Hr Hc]. unfold finish, consumed. simpl.
    split; simpl; congruence.
  - now split.
Qed.

(** What is read off the matches of such a pattern does not depend on the
    character before the text, as long as it is read off the captures. *)
Lemma exec_loop_nolook {A : Type} (ml : bool) (r : regex) (f : mstate -> A) :
  nolook r = true ->
  (forall a b, same_ahead a b -> f a = f b) ->
  forall n p p' s,
    map (fun m => f (snd m)) (exec_loop ml r n p s)
    = map (fun m => f (snd m)) (exec_loop ml r n p' s).
Proof.
  intros N Hf. induction n as [|n IH]; intros p p' s; [reflexivity|].
  simpl. pose proof (exec_at_nolook ml r p p' s N) as H.
  destruct (exec_at ml r (start_state p s)) as [e|],
           (exec_at ml r (start_state p' s)) as [e'|]; simpl in H; try tauto.
  simpl. f_equal; [now apply Hf|].
    destruct H as [Hr Hc]. rewrite Hr.
    destruct (length (rest e') <? length s); [apply IH|].
    destruct s; [reflexivity | apply IH].
Qed.

(* ----------------------------------------------------------------- *)
(** ** Replacing single characters and runs of characters *)

Lemma expand_caps (t : template) (e e' : mstate) :
  caps e = caps e' -> expand t e = expand t e'.
Proof.
  intro H. unfold expand. apply flat_map_ext. intros [x|i]; [reflexivity|].
  simpl. unfold cap, cap_opt. now rewrite H.
Qed.

Lemma exec_at_cls (ml : bool) (c : cclass) (p : option ascii) (a : ascii) (s : str) :
  exec_at ml (Cls c) (start_state p (a :: s))
  = if in_class c a then Some (MState (Some a) s [(0, [a])]) else None.
Proof.
  unfold exec_at. simpl. destruct (in_class c a); [|reflexivity].
  unfold finish. now rewrite (consumed_adv _ [a] s).
Qed.

(** What a replacement puts in the place of the one character [a]. *)
Definition expand1 (t : template) (a : ascii) : str :=
  expand t (MState (Some a) [] [(0, [a])]).

(** Replacing the characters of a class one by one. *)
Lemma replace_loop_cls (ml : bool) (c : cclass) (t : template) :
  forall f p s,
    length s < f ->
    replace_loop ml (Cls c) t f p s
    = flat_map (fun a => if in_class c a then expand1 t a else [a]) s.
Proof.
  induction f as [|f IH]; intros p s Hf; [lia|].
  destruct s as [|a s]; [reflexivity|].
  simpl in Hf. cbn [replace_loop flat_map]. rewrite exec_at_cls.
  destruct (in_class c a).
  - cbn [rest prev]. replace (length s <? length (a :: s)) with true
      by (symmetry; apply Nat.ltb_lt; simpl; lia).
    rewrite IH by lia.
    now rewrite (expand_caps t (MState (Some a) s [(0, [a])])
                   (MState (Some a) [] [(0, [a])]) eq_refl).
  - simpl. f_equal. apply IH. lia.
Qed.

Lemma replace_all_cls (ml : bool) (c : cclass) (t : template) (s : str) :
  replace_all ml (Cls c) t s
  = flat_map (fun a => if in_class c a then expand1 t a else [a]) s.
Proof. unfold replace_all. apply replace_loop_cls. lia. Qed.

(** Replacing each run of characters of a class by [x]: [inrun] tells
    whether the character before belonged to a run. *)
Fixpoint squeeze (c : cclass) (x : str) (inrun : bool) (s : str) : str :=
  match s with
  | [] => []
  | a :: s' =>
      if in_class c a
      then (if inrun then [] else x) ++ squeeze c x true s'
      else a :: squeeze c x false s'
  end.

Lemma squeeze_run (c : cclass) (x : str) (s : str) :
  squeeze c x true s = squeeze c x false (dropWhile (in_class c) s).
Proof.
  induction s as [|a s IH]; [reflexivity|].
  simpl. destruct (in_class c a) eqn:E; [exact IH|].
  simpl. now rewrite E.
Qed.

Lemma exec_at_plus_cls (ml : bool) (c : cclass) (p : option ascii) (a : ascii)
  (s : str) :
  exec_at ml (Plus (Cls c)) (start_state p (a :: s))
  = if in_class c a
    then Some (MState (prev_after (Some a) (takeWhile (in_class c) s))
                 (dropWhile (in_class c) s)
                 [(0, a :: takeWhile (in_class c) s)])
    else None.
Proof.
  unfold exec_at, Plus. rewrite rmatch_seq.
  destruct (in_class c a) eqn:E.
  - rewrite (rmatch_cls ml c _ _ a s) by (reflexivity || exact E).
    apply (rmatch_star_first ml c _ _ (takeWhile (in_class c) s)
             (dropWhile (in_class c) s)).
    + apply takeWhile_dropWhile.
    + apply takeWhile_all.
    + apply dropWhile_stops.
    + unfold finish.
      rewrite (consumed_adv _ (a :: takeWhile (in_class c) s)
                 (dropWhile (in_class c) s)); [reflexivity| |reflexivity].
      simpl. f_equal. apply takeWhile_dropWhile.
  - simpl. now rewrite E.
Qed.

Lemma replace_loop_plus_cls (ml : bool) (c : cclass) (x : str) :
  forall f p s,
    length s < f ->
    replace_loop ml (Plus (Cls c)) [RText x] f p s = squeeze c x false s.
Proof.
  induction f as [|f IH]; intros p s Hf; [lia|].
  destruct s as [|a s]; [reflexivity|].
  simpl in Hf. cbn [replace_loop squeeze]. rewrite exec_at_plus_cls.
  destruct (in_class c a).
  - cbn [rest prev].
    pose proof (dropWhile_length (in_class c) s) as Hd.
    replace (length (dropWhile (in_class c) s) <? length (a :: s)) with true
      by (symmetry; apply Nat.ltb_lt; simpl; lia).
    rewrite IH by lia. rewrite squeeze_run.
    unfold expand. simpl. now rewrite app_nil_r.
  - f_equal. apply IH. lia.
Qed.

Lemma replace_all_plus_cls (ml : bool) (c : cclass) (x : str) (s : str) :
  replace_all ml (Plus (Cls c)) [RText x] s = squeeze c x false s.
Proof. unfold replace_all. apply replace_loop_plus_cls. lia. Qed.

(** The characters of a squeezed text come from the text or from [x]. *)
Lemma squeeze_forallb (Q : ascii -> bool) (c : cclass) (x : str) :
  forallb Q x = true ->
  forall s b, forallb Q s = true -> forallb Q (squeeze c x b s) = true.
Proof.
  intros Hx. induction s as [|a s IH]; intros b H; [reflexivity|].
  simpl in *. apply andb_true_iff in H as [Ha H].
  destruct (in_class c a).
  - rewrite forallb_app, (IH true H). destruct b; simpl; [reflexivity|].
    now rewrite Hx.
  - simpl. now rewrite Ha, IH.
Qed.

(** No character of the class is left when [x] has none. *)
Lemma squeeze_none (c : cclass) (x : str) :
  none_of (in_class c) x = true ->
  forall s b, none_of (in_class c) (squeeze c x b s) = true.
Proof.
  intros Hx. induction s as [|a s IH]; intros b; [reflexivity|].
  simpl. destruct (in_class c a) eqn:E.
  - unfold none_of in *. rewrite forallb_app, (IH true).
    destruct b; simpl; [reflexivity|]. now rewrite Hx.
  - unfold none_of in *. simpl. now rewrite E, IH.
Qed.

(** A text without characters of the class is left as it is. *)
Lemma squeeze_id (c : cclass) (x : str) :
  forall s b, none_of (in_class c) s = true -> squeeze c x b s = s.
Proof.
  induction s as [|a s IH]; intros b H; [reflexivity|].
  simpl in *. apply andb_true_iff in H as [Ha H].
  apply negb_true_iff in Ha. rewrite Ha. f_equal. now apply IH.
Qed.

(* ----------------------------------------------------------------- *)
(** ** The first match of a search *)

Lemma search_at (ml : bool) (r : regex) :
  forall pre p s e,
    (forall a c b, pre = a ++ c :: b ->
       exec_at ml r (start_state (prev_after p a) (c :: b ++ s)) = None) ->
    exec_at ml r (start_state (prev_after p pre) s) = Some e ->
    search ml r p (pre ++ s)
    = Some (pre, (start_state (prev_after p pre) s, e)).
Proof.
  induction pre as [|c pre IH]; intros p s e Hn He.
  - simpl in *. destruct s; cbn [search]; now rewrite He.
  - change ((c :: pre) ++ s) with (c :: (pre ++ s)). cbn [search].
    pose proof (Hn [] c pre eq_refl) as E. cbn [prev_after] in E. rewrite E.
    rewrite (IH (Some c) s e); [reflexivity | | exact He].
    intros a c' b E'. apply (Hn (c :: a) c' b). now rewrite E'.
Qed.



(* ----------------------------------------------------------------- *)
(** ** Splitting at a character and joining again *)

Lemma split_char_loop_cur (c : ascii) :
  forall s cur,
    exists x tl, split_char_loop c cur s = (rev cur ++ x) :: tl
                 /\ split_char_loop c [] s = x :: tl.
Proof.
  induction s as [|a s IH]; intros cur; simpl.
  - exists [], []. now rewrite app_nil_r.
  - destruct (Ascii.eqb a c).
    + exists [], (split_char_loop c [] s). now rewrite app_nil_r.
    + destruct (IH (a :: cur)) as (x & tl & E1 & E2).
      destruct (IH [a]) as (x' & tl' & E1' & E2').
      rewrite E2 in E2'. injection E2' as <- <-.
      exists (a :: x), tl. rewrite E1, E1'. simpl.
      now rewrite <- app_assoc.
Qed.

Lemma split_char_cons (c a : ascii) (s : str) :
  split_char c (a :: s)
  = if Ascii.eqb a c then [] :: split_char c s
    else match split_char c s with
         | x :: tl => (a :: x) :: tl
         | [] => [[a]]
         end.
Proof.
  unfold split_char. simpl. destruct (Ascii.eqb a c); [reflexivity|].
  destruct (split_char_loop_cur c s [a]) as (x & tl & E1 & E2).
  now rewrite E1, E2.
Qed.

Lemma split_char_nonempty (c : ascii) (s : str) : split_char c s <> [].
Proof.
  destruct (split_char_loop_cur c s []) as (x & tl & E1 & _).
  unfold split_char. rewrite E1. discriminate.
Qed.

Lemma split_char_none (c : ascii) (s : str) :
  none_of (Ascii.eqb c) s = true -> split_char c s = [s].
Proof.
  induction s as [|a s IH]; intros H; [reflexivity|].
  simpl in H. apply andb_prop in H. destruct H as [Ha Hs].
  rewrite split_char_cons, (IH Hs).
  rewrite Ascii.eqb_sym. apply negb_true_iff in Ha. now rewrite Ha.
Qed.

Lemma split_char_app (c : ascii) (b : str) :
  forall a,
    split_char c (a ++ c :: b)
    = removelast (split_char c a) ++ [last (split_char c a) []]
      ++ split_char c b.
Proof.
  induction a as [|x a IH].
  - simpl app. rewrite split_char_cons, Ascii.eqb_refl. reflexivity.
  - simpl app. rewrite !split_char_cons.
    destruct (Ascii.eqb x c).
    + rewrite IH. pose proof (split_char_nonempty c a) as Hn.
      destruct (split_char c a) as [|y l]; [now elim Hn|]. reflexivity.
    + rewrite IH. pose proof (split_char_nonempty c a) as Hn.
      destruct (split_char c a) as [|y l]; [now elim Hn|].
      destruct l; reflexivity.
Qed.

Lemma join_split_char (c : ascii) (s : str) :
  join [c] (split_char c s) = s.
Proof.
  induction s as [|a s IH]; [reflexivity|].
  rewrite split_char_cons.
  pose proof (split_char_nonempty c s) as Hn.
  destruct (Ascii.eqb a c) eqn:E.
  - apply Ascii.eqb_eq in E. subst a.
    destruct (split_char c s) as [|y l]; [now elim Hn|].
    simpl in *. now rewrite IH.
  - destruct (split_char c s) as [|y l]; [now elim Hn|].
    destruct l; simpl in *; now rewrite <- IH.
Qed.

Lemma split_char_last (c : ascii) (a b : str) :
  none_of (Ascii.eqb c) b = true ->
  pop (split_char c (a ++ c :: b)) = b
  /\ removelast (split_char c (a ++ c :: b)) = split_char c a.
Proof.
  intros Hb. rewrite (split_char_app c b a), (split_char_none c b Hb).
  pose proof (split_char_nonempty c a) as Hn.
  unfold pop. split.
  - rewrite app_assoc. apply last_last.
  - rewrite app_assoc, removelast_last.
    symmetry. apply app_removelast_last. exact Hn.
Qed.

(* ----------------------------------------------------------------- *)
(** ** Replacing with a function of the match *)

Lemma replace_loop_with_expand (ml : bool) (r : regex) (t : template) :
  forall f p s,
    replace_loop_with ml r (expand t) f p s = replace_loop ml r t f p s.
Proof.
  induction f as [|f IH]; intros p s; [reflexivity|].
  simpl. destruct (exec_at ml r (start_state p s)) as [e|].
  - destruct (length (rest e) <? length s).
    + now rewrite IH.
    + destruct s; [reflexivity|]. now rewrite IH.
  - destruct s; [reflexivity|]. now rewrite IH.
Qed.

(* ----------------------------------------------------------------- *)
(** ** Texts that start or end with a given text *)

Lemma startsWith_true (p s : str) :
  startsWith p s = true -> exists b, s = p ++ b.
Proof.
  revert s. induction p as [|a p IH]; intros s H.
  - now exists s.
  - destruct s as [|c s]; [discriminate|]. simpl in H.
    apply andb_true_iff in H as [Ha Hp]. apply Ascii.eqb_eq in Ha. subst c.
    destruct (IH s Hp) as (b & ->). now exists b.
Qed.



(* ----------------------------------------------------------------- *)
(** ** Patterns under the [i] flag *)

(** For a lower-case letter of a pattern, the characters accepted under the
    flag are those that [toLowerCase] sends to it. *)
Lemma ChrI_letters :
  forall_ascii (fun c =>
    implb (between 97 122 c)
      (forall_ascii (fun x =>
         Bool.eqb (in_class (COr (CChar (lower_char c)) (CChar (upper_char c))) x)
                  (Ascii.eqb (lower_char x) c)))) = true.
Proof. vm_compute. reflexivity. Qed.

Lemma ChrI_plain :
  forall_ascii (fun c =>
    implb (negb (between 65 90 c) && negb (between 97 122 c) && (code c <? 128))
      (forall_ascii (fun x =>
         Bool.eqb (in_class (COr (CChar (lower_char c)) (CChar (upper_char c))) x)
                  (Ascii.eqb (lower_char x) c)))) = true.
Proof. vm_compute. reflexivity. Qed.

(** The characters of a pattern that the lemmas below cover: ASCII, not
    upper case. *)
Definition lower_ascii (c : ascii) : bool :=
  (code c <? 128) && negb (between 65 90 c).

Lemma in_class_ChrI (c x : ascii) :
  lower_ascii c = true ->
  in_class (COr (CChar (lower_char c)) (CChar (upper_char c))) x
  = Ascii.eqb (lower_char x) c.
Proof.
  intros Hc. unfold lower_ascii in Hc. apply andb_true_iff in Hc as [H1 H2].
  destruct (between 97 122 c) eqn:Hl.
  - pose proof (forall_ascii_spec _ ChrI_letters c) as E. cbv beta in E.
    rewrite Hl in E. simpl implb in E.
    pose proof (forall_ascii_spec _ E x) as E'. cbv beta in E'.
    now apply eqb_prop in E'.
  - pose proof (forall_ascii_spec _ ChrI_plain c) as E. cbv beta in E.
    rewrite H2, Hl, H1 in E. simpl implb in E.
    pose proof (forall_ascii_spec _ E x) as E'. cbv beta in E'.
    now apply eqb_prop in E'.
Qed.


Lemma rmatch_LitI (ml : bool) (k : cont) :
  forall s w st t,
    forallb lower_ascii s = true -> toLowerCase w = s -> rest st = w ++ t ->
    rmatch ml (LitI s) k st = k (adv st w t).
Proof.
  induction s as [|c s IH]; intros w st t Hs Hw Hr.
  - destruct w; [|discriminate]. cbn [LitI rmatch]. simpl in Hr.
    rewrite <- Hr. now rewrite adv_nil.
  - destruct w as [|x w]; [discriminate|].
    cbn [forallb] in Hs. apply andb_true_iff in Hs as [Hc Hs].
    unfold toLowerCase in Hw. cbn [map] in Hw. injection Hw as Hx Hw.
    cbn [LitI]. rewrite rmatch_seq. unfold ChrI.
    rewrite (rmatch_cls ml _ _ st x (w ++ t)); [|exact Hr|].
    + rewrite (IH w _ t Hs Hw) by reflexivity. now rewrite adv_app.
    + rewrite (in_class_ChrI c x Hc). now apply Ascii.eqb_eq.
Qed.


(* ----------------------------------------------------------------- *)
(** ** Lazy quantifiers, optional parts and literals that do not match *)

(** A lazy loop stops at the first place where what follows accepts. *)
Lemma cls_lazy_first (c : cclass) (k : cont) (res : mstate) :
  forall w n st t,
    rest st = w ++ t -> forallb (in_class c) w = true -> length w <= n ->
    (forall w1 a w2, w = w1 ++ a :: w2 -> k (adv st w1 (a :: w2 ++ t)) = None) ->
    k (adv st w t) = Some res ->
    cls_loop c false k n st = Some res.
Proof.
  induction w as [|a w IH]; intros n st t Hr Hw Hn Hno Hk.
  - simpl in Hr. rewrite <- Hr, adv_nil in Hk.
    destruct n as [|n]; simpl; [exact Hk|]. now rewrite Hk.
  - simpl in Hw. apply andb_true_iff in Hw as [Ha Hw].
    destruct n as [|n]; simpl in Hn; [lia|].
    pose proof (Hno [] a w eq_refl) as H0.
    change (a :: w ++ t) with ((a :: w) ++ t) in H0.
    rewrite <- Hr, adv_nil in H0.
    simpl. rewrite H0, Hr. simpl. rewrite Ha.
    apply (IH n (advance a st (w ++ t)) t); try reflexivity; auto; try lia.
    intros w1 b w2 E. rewrite E.
    apply (Hno (a :: w1) b w2). now rewrite E.
Qed.

Lemma rmatch_starlazy_first (ml : bool) (c : cclass) (k : cont) (st : mstate)
  (w t : str) (res : mstate) :
  rest st = w ++ t -> forallb (in_class c) w = true ->
  (forall w1 a w2, w = w1 ++ a :: w2 -> k (adv st w1 (a :: w2 ++ t)) = None) ->
  k (adv st w t) = Some res ->
  rmatch ml (StarLazy (Cls c)) k st = Some res.
Proof.
  intros Hr Hw Hno Hk. unfold StarLazy. rewrite rmatch_rep, rep_loop_cls.
  apply (cls_lazy_first c k res w _ st t); auto.
  rewrite Hr, length_app. lia.
Qed.

Lemma rmatch_lit_miss (ml : bool) (k : cont) :
  forall s st, startsWith s (rest st) = false -> rmatch ml (Lit s) k st = None.
Proof.
  induction s as [|a s IH]; intros st H; [discriminate|].
  cbn [Lit]. rewrite rmatch_seq. unfold Chr. cbn [rmatch].
  destruct (rest st) as [|b tl] eqn:Hr; [reflexivity|].
  cbn [startsWith] in H. cbn [in_class].
  destruct (Ascii.eqb a b); [|reflexivity].
  apply IH. exact H.
Qed.

(** [r?] when [r] does not match: the part is left out. *)
Lemma rmatch_opt_skip (ml : bool) (r : regex) (k : cont) (st : mstate) :
  (forall k', rmatch ml r k' st = None) ->
  rmatch ml (Opt r) k st = k st.
Proof.
  intros H. unfold Opt. rewrite rmatch_rep. cbn [rep_loop]. now rewrite H.
Qed.

(** [r?] when [r] matches and what follows accepts: the part is taken. *)
Lemma rmatch_opt_take (ml : bool) (r : regex) (k : cont) (st : mstate)
  (res : mstate) :
  rmatch ml r (fun st' => if length (rest st') <? length (rest st)
                          then k st' else None) st = Some res ->
  rmatch ml (Opt r) k st = Some res.
Proof.
  intros H. unfold Opt. rewrite rmatch_rep. cbn [rep_loop]. now rewrite H.
Qed.

(** Without the [m] flag, [^] holds at the start of the text only. *)
Lemma exec_at_bol_later (r : regex) (c : ascii) (s : str) :
  exec_at false (Seq Bol r) (start_state (Some c) s) = None.
Proof. reflexivity. Qed.

Lemma search_bol (r : regex) (s : str) :
  exec_at false (Seq Bol r) (start_state None s) = None ->
  search false (Seq Bol r) None s = None.
Proof.
  intros H. apply search_none. intros [|c a] b ->; [exact H|].
  cbn [prev_after]. 
  assert (E : exists d, prev_after (Some c) a = Some d).
  { clear. revert c. induction a as [|x a IH]; intros c; [now exists c|].
    simpl. apply IH. }
  destruct E as (d & ->). apply exec_at_bol_later.
Qed.

(* ----------------------------------------------------------------- *)
(** ** The first match of a scan of all matches *)

Lemma match_all_first {A : Type} (P : ascii -> bool) (ml : bool) (r : regex)
  (f : mstate -> A) (pre s : str) (e : mstate) :
  starts P r = true -> nolook r = true ->
  (forall a b, same_ahead a b -> f a = f b) ->
  none_of P pre = true ->
  exec_at ml r (start_state (prev_after None pre) s) = Some e ->
  map (fun m => f (snd m)) (match_all ml r (pre ++ s))
  = f e :: map (fun m => f (snd m)) (match_all ml r (rest e)).
Proof.
  intros Hst Hnl Hf Hpre He. unfold match_all.
  pose proof (starts_consumes P ml r _ e Hst He) as Hlen.
  cbn [rest start_state] in Hlen.
  rewrite length_app.
  replace (S (length pre + length s)) with (length pre + S (length s)) by lia.
  rewrite (exec_loop_skip P ml r Hst pre _ None _ Hpre).
  rewrite (exec_loop_match ml r _ _ _ e He Hlen).
  cbn [map snd]. f_equal.
  rewrite (exec_loop_fuel ml r _ (S (length (rest e)))); [|lia|lia].
  now apply exec_loop_nolook.
Qed.

Lemma match_all_none (P : ascii -> bool) (ml : bool) (r : regex) (s : str) :
  starts P r = true -> none_of P s = true -> match_all ml r s = [].
Proof.
  intros Hst Hs. unfold match_all.
  rewrite <- (app_nil_r s) at 2.
  replace (S (length s)) with (length s + 1) by lia.
  rewrite (exec_loop_skip P ml r Hst s _ None _ Hs).
  cbn [exec_loop]. now rewrite (exec_at_starts P ml r _ Hst).
Qed.

(* ----------------------------------------------------------------- *)
(** ** Counting words *)

(** The number of maximal runs of characters that are not separators;
    [inword] tells whether the character before [s] belongs to a run. *)
Fixpoint countRuns (sep : ascii -> bool) (inword : bool) (s : str) : nat :=
  match s with
  | [] => 0
  | a :: s' =>
      if sep a then countRuns sep false s'
      else (if inword then 0 else 1) + countRuns sep true s'
  end.

(** The words of a text: its maximal runs without white space. *)
Definition countWords (s : str) : nat := countRuns is_ws false s.

Definition nonEmpty (w : str) : bool := 0 <? length w.

Lemma countRuns_inword (sep : ascii -> bool) (s : str) :
  countRuns sep false s
  = (match s with
     | a :: _ => if sep a then 0 else 1
     | [] => 0
     end) + countRuns sep true s.
Proof. destruct s as [|a s]; [reflexivity|]. simpl. now destruct (sep a). Qed.

(** The pieces of a split at a character that are not empty are the runs
    without that character. *)
Lemma split_char_count (c : ascii) (s : str) :
  exists x tl,
    split_char c s = x :: tl
    /\ (x = [] <-> match s with a :: _ => Ascii.eqb c a = true | [] => True end)
    /\ length (filter nonEmpty tl) = countRuns (Ascii.eqb c) true s.
Proof.
  induction s as [|a s IH].
  - exists [], []. repeat split; reflexivity.
  - destruct IH as (x & tl & E & Hx & Hn). rewrite split_char_cons, E.
    rewrite (Ascii.eqb_sym a c). cbn [countRuns].
    destruct (Ascii.eqb c a) eqn:Ea.
    + exists [], (x :: tl). repeat split; try reflexivity.
      cbn [filter]. rewrite countRuns_inword, <- Hn.
      destruct x as [|y x].
      * destruct s as [|b s]; [reflexivity|].
        destruct Hx as [Hx _]. now rewrite (Hx eq_refl).
      * destruct s as [|b s].
        -- destruct Hx as [_ Hx]. now specialize (Hx I).
        -- destruct (Ascii.eqb c b) eqn:Eb; [|reflexivity].
           destruct Hx as [_ Hx]. now specialize (Hx eq_refl).
    + exists (a :: x), tl. repeat split; try discriminate. exact Hn.
Qed.

Lemma split_char_words (c : ascii) (s : str) :
  length (filter nonEmpty (split_char c s)) = countRuns (Ascii.eqb c) false s.
Proof.
  destruct (split_char_count c s) as (x & tl & E & Hx & Hn).
  rewrite E, countRuns_inword, <- Hn. cbn [filter].
  destruct x as [|y x].
  - destruct s as [|b s]; [reflexivity|].
    destruct Hx as [Hx _]. now rewrite (Hx eq_refl).
  - destruct s as [|b s].
    + destruct Hx as [_ Hx]. now specialize (Hx I).
    + destruct (Ascii.eqb c b) eqn:Eb; [|reflexivity].
      destruct Hx as [_ Hx]. now specialize (Hx eq_refl).
Qed.

(** Squeezing the runs of white space into one blank keeps the words. *)
Lemma countRuns_squeeze :
  forall s w r,
    (r = true -> w = false) ->
    countRuns is_ws w (squeeze CSpace (lit " ") r s) = countRuns is_ws w s.
Proof.
  induction s as [|a s IH]; intros w r Hr; [reflexivity|].
  cbn [squeeze countRuns in_class]. destruct (is_ws a) eqn:Ea.
  - destruct r.
    + rewrite (Hr eq_refl). cbn [app]. now apply IH.
    + cbn [app lit list_ascii_of_string countRuns].
      replace (is_ws " ") with true by reflexivity. now apply IH.
  - cbn [countRuns]. rewrite Ea. f_equal. apply IH. discriminate.
Qed.

(** In a squeezed text the only white space is the blank. *)
Lemma squeeze_blanks :
  forall s r,
    forallb (fun a => negb (is_ws a) || Ascii.eqb " " a)
      (squeeze CSpace (lit " ") r s) = true.
Proof.
  induction s as [|a s IH]; intros r; [reflexivity|].
  cbn [squeeze in_class]. destruct (is_ws a) eqn:Ea.
  - rewrite forallb_app, IH, andb_true_r. now destruct r.
  - cbn [forallb]. now rewrite Ea, IH.
Qed.

Lemma countRuns_blanks (s : str) :
  forallb (fun a => negb (is_ws a) || Ascii.eqb " " a) s = true ->
  forall w, countRuns (Ascii.eqb " ") w s = countRuns is_ws w s.
Proof.
  induction s as [|a s IH]; intros H w; [reflexivity|].
  cbn [forallb] in H. apply andb_true_iff in H as [Ha Hs].
  cbn [countRuns]. rewrite !(IH Hs).
  destruct (Ascii.eqb " " a) eqn:Eb.
  - apply Ascii.eqb_eq in Eb. subst a. reflexivity.
  - rewrite orb_false_r in Ha. apply negb_true_iff in Ha. now rewrite Ha.
Qed.

Lemma countRuns_all_sep (sep : ascii -> bool) (z : str) :
  forallb sep z = true -> forall w, countRuns sep w z = 0.
Proof.
  induction z as [|b z IH]; intros Hz w; [reflexivity|].
  cbn [forallb] in Hz. apply andb_true_iff in Hz as [Hb Hz].
  cbn [countRuns]. rewrite Hb. now apply IH.
Qed.

Lemma countRuns_app_ws (sep : ascii -> bool) (z : str) :
  forallb sep z = true ->
  forall x w, countRuns sep w (x ++ z) = countRuns sep w x.
Proof.
  intros Hz. induction x as [|a x IH]; intros w.
  - cbn [app]. now apply countRuns_all_sep.
  - cbn [app countRuns]. now rewrite !IH.
Qed.

Lemma countWords_trim (s : str) : countWords (trim s) = countWords s.
Proof.
  unfold countWords, trim.
  destruct (trimEnd_prefix (trimStart s)) as (z & E & Hz).
  transitivity (countRuns is_ws false (trimStart s)).
  - rewrite E at 2. now rewrite countRuns_app_ws.
  - unfold trimStart. clear. induction s as [|a s IH]; [reflexivity|].
    cbn [dropWhile countRuns]. destruct (is_ws a) eqn:Ea; [exact IH|].
    cbn [countRuns]. now rewrite Ea.
Qed.

Lemma forallb_trim (Q : ascii -> bool) (s : str) :
  forallb Q s = true -> forallb Q (trim s) = true.
Proof.
  intros H. unfold trim.
  destruct (trimEnd_prefix (trimStart s)) as (z & E & _).
  destruct (dropWhile_suffix is_ws s) as (a & E' & _).
  rewrite E' in H. rewrite forallb_app in H. apply andb_true_iff in H as [_ H].
  fold (trimStart s) in H. rewrite E in H. rewrite forallb_app in H.
  now apply andb_true_iff in H as [H _].
Qed.

(** The pieces of a split are made of characters of the text. *)
Lemma split_char_pieces (P : ascii -> bool) (c : ascii) (s : str) :
  none_of P s = true ->
  forall x, In x (split_char c s) -> none_of P x = true.
Proof.
  induction s as [|a s IH]; intros H x Hin.
  - destruct Hin as [<- | []]. reflexivity.
  - simpl in H. apply andb_true_iff in H as [Ha Hs].
    rewrite split_char_cons in Hin.
    pose proof (split_char_nonempty c s) as Hn.
    destruct (Ascii.eqb a c).
    + destruct Hin as [<- | Hin]; [reflexivity | now apply IH].
    + destruct (split_char c s) as [|y l]; [now elim Hn|].
      destruct Hin as [<- | Hin].
      * simpl. rewrite Ha. apply (IH Hs). now left.
      * apply (IH Hs). now right.
Qed.

Lemma none_of_trim (Q : ascii -> bool) (s : str) :
  none_of Q s = true -> none_of Q (trim s) = true.
Proof.
  intros H. unfold trim.
  destruct (trimEnd_prefix (trimStart s)) as (z & E & _).
  destruct (dropWhile_suffix is_ws s) as (a & E' & _).
  rewrite E' in H. rewrite none_of_app in H. apply andb_true_iff in H as [_ H].
  fold (trimStart s) in H. rewrite E in H. rewrite none_of_app in H.
  now apply andb_true_iff in H as [H _].
Qed.




Lemma rmatch_chr_cases (ml : bool) (a : ascii) (k : cont) (st : mstate) :
  rmatch ml (Chr a) k st
  = match rest st with
    | b :: t => if Ascii.eqb a b then k (adv st [b] t) else None
    | [] => None
    end.
Proof. reflexivity. Qed.

Lemma rmatch_alt (ml : bool) (r1 r2 : regex) (k : cont) (st : mstate) :
  rmatch ml (Alt r1 r2) k st = orelse (rmatch ml r1 k st) (rmatch ml r2 k st).
Proof. reflexivity. Qed.

(** [c+?], lazy, before something that accepts at the end of the run only. *)
Lemma rmatch_pluslazy_first (ml : bool) (c : cclass) (k : cont) (st : mstate)
  (a : ascii) (w t : str) (res : mstate) :
  rest st = a :: w ++ t -> forallb (in_class c) (a :: w) = true ->
  (forall w1 b w2, w = w1 ++ b :: w2 ->
                   k (adv st (a :: w1) (b :: w2 ++ t)) = None) ->
  k (adv st (a :: w) t) = Some res ->
  rmatch ml (PlusLazy (Cls c)) k st = Some res.
Proof.
  intros Hr Hw Hno Hk. cbn [forallb] in Hw. apply andb_true_iff in Hw as [Ha Hw].
  unfold PlusLazy. rewrite rmatch_seq.
  rewrite (rmatch_cls ml c _ st a (w ++ t) Hr Ha).
  apply (rmatch_starlazy_first ml c k _ w t); [reflexivity | exact Hw | |].
  - intros w1 b w2 E. rewrite adv_app. now apply Hno.
  - now rewrite adv_app.
Qed.

(* ----------------------------------------------------------------- *)
(** ** Lines *)

(** The place after [p] is the start of a line. *)
Definition at_line_start (p : option ascii) : bool :=
  match p with None => true | Some c => is_lt c end.

(** A character that ends no line: what [.] matches. *)
Definition in_line (c : ascii) : bool := negb (is_lt c).

Lemma str_eqb_eq (a b : str) : str_eqb a b = true <-> a = b.
Proof.
  unfold str_eqb. destruct (list_eq_dec ascii_dec a b); split; congruence.
Qed.

Lemma str_eqb_refl (a : str) : str_eqb a a = true.
Proof. now apply str_eqb_eq. Qed.

Lemma str_eqb_neq (a b : str) : a <> b -> str_eqb a b = false.
Proof.
  intros H. destruct (str_eqb a b) eqn:E; [|reflexivity].
  apply str_eqb_eq in E. now elim H.
Qed.

(* ----------------------------------------------------------------- *)
(** ** Counted repetitions *)

Lemma rmatch_times (ml : bool) (c : cclass) (tail : regex) (k : cont) :
  forall n w st t,
    rest st = w ++ t -> length w = n -> forallb (in_class c) w = true ->
    rmatch ml (Times n (Cls c) tail) k st = rmatch ml tail k (adv st w t).
Proof.
  induction n as [|n IH]; intros w st t Hr Hl Hw.
  - destruct w; [|discriminate]. simpl in Hr. cbn [Times].
    now rewrite <- Hr, adv_nil.
  - destruct w as [|a w]; [discriminate|]. simpl in Hl. injection Hl as Hl.
    cbn [forallb] in Hw. apply andb_true_iff in Hw as [Ha Hw].
    cbn [Times]. rewrite rmatch_seq.
    rewrite (rmatch_cls ml c _ st a (w ++ t) Hr Ha).
    rewrite (IH w (adv st [a] (w ++ t)) t eq_refl Hl Hw). now rewrite adv_app.
Qed.

(** [c{n}]: exactly [n] characters of the class. *)
Lemma rmatch_exactly (ml : bool) (c : cclass) (n : nat) (k : cont)
  (w : str) (st : mstate) (t : str) :
  rest st = w ++ t -> length w = n -> forallb (in_class c) w = true ->
  rmatch ml (Count n n (Cls c)) k st = k (adv st w t).
Proof.
  intros Hr Hl Hw. unfold Count. rewrite Nat.sub_diag.
  rewrite (rmatch_times ml c _ k n w st t Hr Hl Hw).
  rewrite rmatch_rep. reflexivity.
Qed.

Lemma forallb_impl_str (P Q : str -> bool) (l : list str) :
  (forall x, P x = true -> Q x = true) ->
  forallb P l = true -> forallb Q l = true.
Proof.
  intros H. induction l as [|a l IH]; [reflexivity|].
  simpl. intros E. apply andb_true_iff in E as [Ha Hl].
  now rewrite (H a Ha), (IH Hl).
Qed.

(* ----------------------------------------------------------------- *)
(** ** Texts that start with two given characters *)

(** [one_of P r]: the texts of [r] are the single characters of a class
    within [P]. *)
Definition one_of (P : ascii -> bool) (r : regex) : bool :=
  match r with
  | Cls c => forall_ascii (fun a => implb (in_class c a) (P a))
  | _ => false
  end.

(** [starts2 P Q r]: every text of [r] starts with a character of [P]
    followed by a character of [Q]. *)
Fixpoint starts2 (P Q : ascii -> bool) (r : regex) : bool :=
  match r with
  | Seq r1 r2 =>
      (one_of P r1 && starts Q r2) || starts2 P Q r1
      || (zero_width r1 && starts2 P Q r2)
  | Alt r1 r2 => starts2 P Q r1 && starts2 P Q r2
  | Grp _ r1 => starts2 P Q r1
  | _ => false
  end.

Lemma starts2_sound (P Q : ascii -> bool) (ml : bool) (r : regex) :
  starts2 P Q r = true ->
  forall p w t, lang ml r p w t ->
    exists a b w', w = a :: b :: w' /\ P a = true /\ Q b = true.
Proof.
  induction r as [|c|r1 IH1 r2 IH2|r1 IH1 r2 IH2|g mx r1 IH1|n r1 IH1| | |];
    simpl; intros N p w t H; try discriminate.
  - destruct H as (w1 & w2 & -> & H1 & H2).
    apply orb_true_iff in N as [N|N]; [apply orb_true_iff in N as [N|N]|].
    + apply andb_true_iff in N as [N1 N2].
      destruct r1; try discriminate. simpl in N1.
      destruct H1 as (a & -> & Ha).
      pose proof (forall_ascii_spec _ N1 a) as Hi. simpl in Hi.
      rewrite Ha in Hi.
      destruct (starts_sound Q ml r2 N2 _ _ _ H2) as (b & w' & -> & Hb).
      now exists a, b, w'.
    + destruct (IH1 N _ _ _ H1) as (a & b & w' & -> & Ha & Hb).
      now exists a, b, (w' ++ w2).
    + apply andb_true_iff in N as [Z N].
      rewrite (zero_width_sound ml r1 Z _ _ _ H1) in *. simpl in *. eauto.
  - apply andb_true_iff in N as [N1 N2]. destruct H; eauto.
  - eauto.
Qed.

(** [no_pair P Q s]: nowhere in [s] a character of [P] is directly followed
    by a character of [Q]. *)
Fixpoint no_pair (P Q : ascii -> bool) (s : str) : bool :=
  match s with
  | a :: (b :: _) as s' => negb (P a && Q b) && no_pair P Q s'
  | _ => true
  end.

Lemma no_pair_app (P Q : ascii -> bool) (b : str) :
  forall a, no_pair P Q (a ++ b) = true -> no_pair P Q b = true.
Proof.
  induction a as [|c a IH]; intro H; [exact H|]. apply IH.
  change ((c :: a) ++ b) with (c :: (a ++ b)) in H.
  destruct (a ++ b) as [|x u]; [reflexivity|].
  cbn [no_pair] in H. now apply andb_true_iff in H as [_ H].
Qed.

Lemma exec_at_starts2 (P Q : ascii -> bool) (ml : bool) (r : regex)
  (p : option ascii) (a b : str) :
  starts2 P Q r = true -> no_pair P Q (a ++ b) = true ->
  exec_at ml r (start_state (prev_after p a) b) = None.
Proof.
  intros N H. apply no_pair_app in H.
  destruct (exec_at ml r _) as [e|] eqn:X; [|reflexivity].
  apply exec_at_sound in X as (w & Hr & Hl & _).
  apply (starts2_sound P Q ml r N) in Hl as (x & y & w' & -> & Hx & Hy).
  simpl in Hr. rewrite Hr in H. cbn [app no_pair] in H.
  rewrite Hx, Hy in H. discriminate.
Qed.

Lemma replace_all_starts2 (P Q : ascii -> bool) (ml : bool) (r : regex)
  (t : template) (s : str) :
  starts2 P Q r = true -> no_pair P Q s = true -> replace_all ml r t s = s.
Proof.
  intros N H. unfold replace_all. apply replace_loop_none. intros a b ->.
  now apply (exec_at_starts2 P Q).
Qed.

Lemma replace_loop_with_none (ml : bool) (r : regex) (g : mstate -> str) :
  forall f p s,
    (forall a b, s = a ++ b ->
                 exec_at ml r (start_state (prev_after p a) b) = None) ->
    replace_loop_with ml r g f p s = s.
Proof.
  induction f as [|f IH]; intros p s H; [reflexivity|].
  cbn [replace_loop_with]. pose proof (H [] s eq_refl) as E.
  cbn [prev_after] in E. rewrite E. destruct s as [|c s]; [reflexivity|].
  f_equal. apply IH. intros a b ->. exact (H (c :: a) b eq_refl).
Qed.

Lemma replace_all_with_starts2 (P Q : ascii -> bool) (ml : bool) (r : regex)
  (g : mstate -> str) (s : str) :
  starts2 P Q r = true -> no_pair P Q s = true ->
  replace_all_with ml r g s = s.
Proof.
  intros N H. unfold replace_all_with. apply replace_loop_with_none.
  intros a b ->. now apply (exec_at_starts2 P Q).
Qed.

End MatcherFacts.
Import MatcherFacts.

(* ================================================================= *)
(** * src/contentUtils.ts: properties *)

Import ContentUtils.

(* ----------------------------------------------------------------- *)
(** ** extractLinks *)

Definition close_bracket : ascii -> bool := Ascii.eqb "]".
Definition close_paren : ascii -> bool := Ascii.eqb ")".
Definition open_bracket : ascii -> bool := Ascii.eqb "[".

(** The text of a link [[t](u)], followed by [post]. *)
Definition linkThen (t u post : str) : str :=
  lit "[" ++ t ++ lit "](" ++ u ++ lit ")" ++ post.

Lemma linkRegex_starts : starts open_bracket linkRegex = true.
Proof. vm_compute. reflexivity. Qed.

Lemma linkRegex_nolook : nolook linkRegex = true.
Proof. reflexivity. Qed.

(** At an opening bracket followed by a text without [']'], then ["]("], a
    text without [')'] and [")"], the pattern matches just that. *)
Lemma linkRegex_at (p : option ascii) (t u post : str) :
  none_of close_bracket t = true -> none_of close_paren u = true ->
  exists e,
    exec_at false linkRegex (start_state p (linkThen t u post)) = Some e
    /\ rest e = post /\ linkOf e = Link t u.
Proof.
  intros Ht Hu. unfold exec_at, linkRegex, linkThen. cbn [Seqs].
  set (st0 := start_state p _).
  eexists. split.
  - rewrite rmatch_seq.
    rewrite (rmatch_chr false "[" _ st0 (t ++ lit "](" ++ u ++ lit ")" ++ post))
      by reflexivity.
    rewrite rmatch_seq, rmatch_grp.
    eapply (rmatch_star_first false _ _ _ t (lit "](" ++ u ++ lit ")" ++ post));
      [reflexivity | exact Ht | reflexivity |].
    rewrite (consumed_adv _ t (lit "](" ++ u ++ lit ")" ++ post))
      by reflexivity.
    rewrite rmatch_seq.
    unfold L. rewrite (rmatch_lit false _ (lit "](") _ (u ++ lit ")" ++ post))
      by reflexivity.
    rewrite rmatch_seq, rmatch_grp.
    eapply (rmatch_star_first false _ _ _ u (lit ")" ++ post));
      [reflexivity | exact Hu | reflexivity |].
    rewrite (consumed_adv _ u (lit ")" ++ post)) by reflexivity.
    rewrite (rmatch_chr false ")" _ _ post) by reflexivity.
    unfold finish. reflexivity.
  - split; reflexivity.
Qed.






(* ----------------------------------------------------------------- *)
(** ** getAllHeadings on a line of hashes *)









(** So do the patterns whose matches the sources visit with an [exec] loop:
    each match consumes something, and the loop ends. *)
Lemma scanned_patterns_consume (ml : bool) (r : regex) (st e : mstate) :
  In r [linkRegex; imageRegex; headingRegex; ValidationUtils.imageCheckRegex] ->
  exec_at ml r st = Some e ->
  length (rest e) < length (rest st).
Proof.
  intros [<-|[<-|[<-|[<-|[]]]]].
  - apply (starts_consumes (Ascii.eqb "[")). vm_compute. reflexivity.
  - apply (starts_consumes (Ascii.eqb "!")). vm_compute. reflexivity.
  - apply (starts_consumes (Ascii.eqb "#")). vm_compute. reflexivity.
  - apply (starts_consumes (Ascii.eqb "!")). vm_compute. reflexivity.
Qed.

(* ----------------------------------------------------------------- *)
(** ** getFirstParagraph *)

Lemma blankLineRegex_starts : starts is_nl blankLineRegex = true.
Proof. vm_compute. reflexivity. Qed.

(** Splitting a text whose first character is not white space: the first
    piece starts with that character. *)
Lemma paragraphs_first (c : ascii) (s : str) :
  is_ws c = false ->
  exists x y tl,
    split false blankLineRegex (c :: s) = (c :: x) :: tl /\ s = x ++ y.
Proof.
  intro Hc. unfold split. cbn [length Nat.mul Nat.add split_loop].
  rewrite (exec_at_starts is_nl false blankLineRegex _ blankLineRegex_starts)
    by (simpl; now apply not_ws_not_nl).
  match goal with
  | |- context [split_loop false blankLineRegex ?f (Some c) [c] s] =>
      destruct (split_loop_first false blankLineRegex f (Some c) [c] s)
        as (x & y & tl & E & Hs)
  end.
  exists x, y, tl. split; [exact E | exact Hs].
Qed.

(** C5, as amended.  [getFirstParagraph] returns the first piece of the
    cleaned and trimmed text split at blank-line boundaries, as it stands:
    it is a prefix of that text, it does not start with white space (white
    space at its end is kept), and it is empty exactly when the cleaned text
    is empty. *)
Theorem getFirstParagraph_first_piece (markdownContent : str) :
  getFirstParagraph markdownContent = hd [] (paragraphs markdownContent)
  /\ (exists after,
        cleaned markdownContent = getFirstParagraph markdownContent ++ after)
  /\ trimStart (getFirstParagraph markdownContent)
     = getFirstParagraph markdownContent
  /\ (getFirstParagraph markdownContent = [] <-> cleaned markdownContent = []).
Proof.
  unfold getFirstParagraph, paragraphs.
  pose proof (trim_head
    (replace_all false linkTextRegex keep1
    (replace_all false italicRegex keep1
    (replace_all false boldRegex keep1
    (replace_all false inlineCodeRegex []
    (replace_all false fenceRegex []
    (replace_all true headingLineRegex [] markdownContent))))))) as Hh.
  fold (cleaned markdownContent) in Hh.
  destruct (cleaned markdownContent) as [|c s].
  - simpl. repeat split; auto. now exists [].
  - destruct (paragraphs_first c s Hh) as (x & y & tl & E & Hs).
    rewrite E. simpl.
    assert (Hn : nonEmptyTrimmed (c :: x) = true).
    { unfold nonEmptyTrimmed. apply Nat.ltb_lt.
      pose proof (trim_nonempty c x Hh) as Hne.
      destruct (trim (c :: x)); [congruence | simpl; lia]. }
    rewrite Hn. repeat split.
    + exists y. simpl. now rewrite Hs.
    + unfold trimStart. simpl. now rewrite Hh.
    + discriminate.
    + discriminate.
Qed.

(** Against the sentence of the specification: the blanks before a blank-line boundary stay
    at the end of the paragraph returned. *)
Lemma getFirstParagraph_keeps_trailing_blanks :
  getFirstParagraph (lit "a  " ++ [nl; nl] ++ lit "b") = lit "a  "
  /\ trim (lit "a  ") = lit "a".
Proof. vm_compute. split; reflexivity. Qed.

(* ----------------------------------------------------------------- *)
(** ** The blank-line pattern of stripMarkdown *)

(** What is left of [s] after the longest text of [\s*\n] at its start, if
    there is one: the loop of the greedy [\s*] before [\n], written out. *)
Fixpoint blank_rest (s : str) : option str :=
  match s with
  | [] => None
  | a :: s' =>
      orelse (if is_ws a then blank_rest s' else None)
             (if is_nl a then Some s' else None)
  end.


Definition keeps_rest (k : cont) : Prop :=
  forall e, exists e', k e = Some e' /\ rest e' = rest e.

Lemma blank_loop (k : cont) :
  keeps_rest k ->
  forall n st,
    length (rest st) <= n ->
    option_map rest (cls_loop CSpace true (rmatch false (Chr nl) k) n st)
    = blank_rest (rest st).
Proof.
  intros Hk.
  assert (Hstop : forall st,
             option_map rest (rmatch false (Chr nl) k st)
             = match rest st with
               | a :: s' => if is_nl a then Some s' else None
               | [] => None
               end).
  { intro st. unfold Chr. cbn [rmatch]. destruct (rest st) as [|a s']; [reflexivity|].
    change (in_class (CChar nl) a) with (is_nl a).
    destruct (is_nl a); [|reflexivity].
    destruct (Hk (advance a st s')) as (e' & -> & Hr). simpl. now rewrite Hr. }
  induction n as [|n IH]; intros st Hn.
  - destruct (rest st) as [|a s'] eqn:E; [|simpl in Hn; lia].
    cbn [cls_loop]. rewrite Hstop, E. reflexivity.
  - cbn [cls_loop]. specialize (Hstop st).
    destruct (rest st) as [|a s'] eqn:E.
    + cbn [orelse]. rewrite Hstop. reflexivity.
    + cbn [blank_rest]. change (in_class CSpace a) with (is_ws a).
      destruct (is_ws a).
      * assert (Hn' : length (rest (advance a st s')) <= n)
          by (simpl in *; lia).
        specialize (IH (advance a st s') Hn'). cbn [rest advance] in IH.
        destruct (cls_loop CSpace true (rmatch false (Chr nl) k) n
                    (advance a st s')) as [e|]; simpl in IH; rewrite <- IH.
        -- reflexivity.
        -- cbn [orelse]. exact Hstop.
      * cbn [orelse]. exact Hstop.
Qed.

(** A match attempt of the blank-line pattern at a line feed. *)
Lemma blank_exec_nl (p : option ascii) (s : str) :
  option_map rest (exec_at false blankLineRegex (start_state p (nl :: s)))
  = blank_rest s.
Proof.
  unfold exec_at, blankLineRegex. cbn [Seqs].
  rewrite rmatch_seq, (rmatch_chr false nl _ _ s) by reflexivity.
  rewrite rmatch_seq. unfold Star. rewrite rmatch_rep, rep_loop_cls.
  apply blank_loop; [|simpl; lia].
  intro e. eexists. split; reflexivity.
Qed.

Lemma blank_exec_other (p : option ascii) (c : ascii) (s : str) :
  is_nl c = false ->
  exec_at false blankLineRegex (start_state p (c :: s)) = None.
Proof.
  intro H. now apply (exec_at_starts is_nl false blankLineRegex _
                        blankLineRegex_starts).
Qed.

(** The greedy loop takes the longest text: nothing of it is left. *)
Lemma blank_rest_longest (s r : str) :
  blank_rest s = Some r -> blank_rest r = None /\ length r < length s.
Proof.
  revert r. induction s as [|a s IH]; intros r H; [discriminate|].
  cbn [blank_rest] in H.
  destruct (is_ws a) eqn:Ew.
  - destruct (blank_rest s) as [r'|] eqn:E.
    + cbn [orelse] in H. injection H as <-.
      destruct (IH r' eq_refl) as [H1 H2]. split; [exact H1 | simpl; lia].
    + cbn [orelse] in H. destruct (is_nl a); [|discriminate].
      injection H as <-. split; [exact E | simpl; lia].
  - cbn [orelse] in H. destruct (is_nl a) eqn:En; [|discriminate].
    rewrite (nl_is_ws a En) in Ew. discriminate.
Qed.


(** One step of the blank-line replacement. *)
Lemma blank_step (f : nat) (p : option ascii) (c : ascii) (s : str) :
  length s < f ->
  exists q,
    replace_loop false blankLineRegex [RText [nl]] (S f) p (c :: s)
    = c :: replace_loop false blankLineRegex [RText [nl]] f q
             (if is_nl c
              then match blank_rest s with Some r => r | None => s end
              else s).
Proof.
  intro Hf. destruct (is_nl c) eqn:En.
  - rewrite (is_nl_eq c En).
    pose proof (blank_exec_nl p s) as H.
    destruct (exec_at false blankLineRegex (start_state p (nl :: s)))
      as [e|] eqn:E; simpl in H; rewrite <- H.
    + symmetry in H. apply blank_rest_longest in H as [_ Hl].
      exists (prev e).
      rewrite (replace_loop_match false blankLineRegex _ f p _ e E)
        by (simpl; lia).
      reflexivity.
    + exists (Some nl). now rewrite replace_loop_miss.
  - exists (Some c). rewrite replace_loop_miss; [reflexivity|].
    now apply blank_exec_other.
Qed.






(* ----------------------------------------------------------------- *)
(** ** The fenced-block step of stripMarkdown *)

(** The text of a three-line fenced block: an opening fence with the
    language token [js], one line of code, a closing fence. *)
Definition fencedExample : str :=
  lit "```js" ++ [nl] ++ lit "code" ++ [nl] ++ lit "```".

(** The number of backticks of a text. *)
Definition ticks (s : str) : nat := length (filter is_tick s).

Lemma ticks_app (a b : str) : ticks (a ++ b) = ticks a + ticks b.
Proof. unfold ticks. now rewrite filter_app, length_app. Qed.

Lemma ticks_none (s : str) : none_of is_tick s = true -> ticks s = 0.
Proof.
  unfold ticks. induction s as [|c s IH]; [reflexivity|]. simpl. intro H.
  apply andb_true_iff in H as [Hc H]. apply negb_true_iff in Hc.
  rewrite Hc. now apply IH.
Qed.

Lemma inlineCodeKeepRegex_starts : starts is_tick inlineCodeKeepRegex = true.
Proof. vm_compute. reflexivity. Qed.

Lemma inlineCodeKeepRegex_needs : needs is_tick inlineCodeKeepRegex = true.
Proof. vm_compute. reflexivity. Qed.

(** At a backtick the inline-code pattern pairs it with the next backtick,
    if there is one, and keeps what lies between. *)
Lemma inlineCodeKeepRegex_at (p : option ascii) (s : str) :
  match dropWhile (fun c => negb (is_tick c)) s with
  | [] => exec_at false inlineCodeKeepRegex (start_state p ("`"%char :: s)) = None
  | _ :: r =>
      exists e,
        exec_at false inlineCodeKeepRegex (start_state p ("`"%char :: s)) = Some e
        /\ rest e = r
        /\ expand keep1 e = takeWhile (fun c => negb (is_tick c)) s
  end.
Proof.
  pose proof (takeWhile_dropWhile (fun c => negb (is_tick c)) s) as Hs.
  pose proof (takeWhile_all (fun c => negb (is_tick c)) s) as Hw.
  pose proof (dropWhile_head (fun c => negb (is_tick c)) s) as Hh.
  set (w := takeWhile (fun c => negb (is_tick c)) s) in *.
  set (t := dropWhile (fun c => negb (is_tick c)) s) in *.
  assert (E : exec_at false inlineCodeKeepRegex (start_state p ("`"%char :: s))
              = rmatch false tick
                  (finish (start_state p ("`"%char :: s)))
                  (set_cap 1 w
                     (adv (adv (start_state p ("`"%char :: s)) ["`"%char] s) w t))).
  { unfold exec_at, inlineCodeKeepRegex. cbn [Seqs].
    rewrite rmatch_seq. unfold tick at 1.
    rewrite (rmatch_chr false "`" _ _ s) by reflexivity.
    rewrite rmatch_seq, rmatch_grp.
    rewrite (rmatch_star_only false (not_char "`") _ _ w t).
    - rewrite (consumed_adv _ w t); [reflexivity | exact Hs | reflexivity].
    - intros st' a tl Hr Ha. unfold tick, Chr. cbn [rmatch set_cap rest].
      rewrite Hr. change (in_class (not_char "`") a) with (negb (is_tick a)) in Ha.
      change (in_class (CChar "`") a) with (is_tick a).
      apply negb_true_iff in Ha. now rewrite Ha.
    - exact Hs.
    - exact Hw.
    - unfold stops. destruct t as [|a t']; [exact I|].
      change (in_class (not_char "`") a) with (negb (is_tick a)). exact Hh. }
  rewrite E. unfold tick, Chr. cbn [rmatch set_cap adv rest].
  destruct t as [|a r]; [reflexivity|].
  apply negb_false_iff in Hh.
  change (in_class (CChar "`") a) with (is_tick a). rewrite Hh.
  eexists. split; [reflexivity|]. split; [reflexivity|].
  unfold expand, keep1. simpl. apply app_nil_r.
Qed.

(** After the inline-code replacement at most one backtick is left. *)
Lemma inline_code_ticks :
  forall f p s,
    length s < f ->
    ticks (replace_loop false inlineCodeKeepRegex keep1 f p s) <= 1.
Proof.
  induction f as [|f IH]; intros p s Hf; [lia|].
  destruct s as [|c s]; [vm_compute; lia|]. simpl in Hf.
  destruct (is_tick c) eqn:Ec.
  - assert (c = "`"%char) as -> by (symmetry; now apply Ascii.eqb_eq).
    pose proof (inlineCodeKeepRegex_at p s) as H.
    pose proof (takeWhile_dropWhile (fun c => negb (is_tick c)) s) as Hs.
    pose proof (takeWhile_all (fun c => negb (is_tick c)) s) as Hw.
    destruct (dropWhile (fun c => negb (is_tick c)) s) as [|a r] eqn:D.
    + rewrite replace_loop_miss by exact H.
      rewrite app_nil_r in Hs. rewrite <- Hs in Hw.
      rewrite (replace_loop_needs is_tick false _ keep1 inlineCodeKeepRegex_needs)
        by exact Hw.
      change (ticks ("`"%char :: s)) with (S (ticks s)).
      rewrite (ticks_none s Hw). lia.
    + destruct H as (e & He & Hr & Hx).
      pose proof (dropWhile_tail_length _ _ _ _ D) as Hl.
      rewrite (replace_loop_match false _ keep1 f p _ e He)
        by (rewrite Hr; simpl; lia).
      rewrite Hx, ticks_app, (ticks_none _ Hw), Hr. simpl.
      apply IH. lia.
  - rewrite replace_loop_miss
      by (apply (exec_at_starts is_tick false _ _ inlineCodeKeepRegex_starts);
          exact Ec).
    unfold ticks. simpl. rewrite Ec. apply IH. lia.
Qed.

(** A fenced block needs three backticks to start with. *)
Lemma fenceRegex_lang (p : option ascii) (w t : str) :
  lang false fenceRegex p w t -> exists x, w = lit "```" ++ x.
Proof.
  unfold fenceRegex. cbn [Seqs]. unfold L. cbn [lang].
  intros (w1 & w2 & -> & H1 & _). apply lang_Lit in H1. subst w1.
  now exists w2.
Qed.

Lemma fence_fixed (s : str) :
  ticks s <= 1 -> replace_all false fenceRegex [] s = s.
Proof.
  intro H. unfold replace_all. apply replace_loop_none. intros a b ->.
  destruct (exec_at false fenceRegex (start_state (prev_after None a) b))
    as [e|] eqn:E; [|reflexivity].
  apply exec_at_sound in E as (w & Hr & Hl & _). simpl in Hr.
  apply fenceRegex_lang in Hl as (x & ->).
  rewrite Hr, !ticks_app in H. simpl in H. lia.
Qed.

(** C2.  In [stripMarkdown] the replacement that is to remove fenced code
    blocks never changes its input: it comes after the inline-code
    replacement, which leaves at most one backtick.  So a fenced block is
    unwrapped, not dropped: on the example the language token and the code
    are both kept. *)
Theorem stripMarkdown_keeps_fenced_code :
  (forall s : str,
      replace_all false fenceRegex []
        (replace_all false inlineCodeKeepRegex keep1 s)
      = replace_all false inlineCodeKeepRegex keep1 s)
  /\ stripMarkdown fencedExample = lit "js" ++ [nl] ++ lit "code"
  /\ includes (lit "js") (stripMarkdown fencedExample) = true
  /\ includes (lit "code") (stripMarkdown fencedExample) = true.
Proof.
  split.
  - intro s. apply fence_fixed. unfold replace_all. apply inline_code_ticks. lia.
  - vm_compute. repeat split.
Qed.

(** The same block in [getFirstParagraph], where the fenced-block replacement
    comes first, is dropped whole. *)
Example cleaned_drops_fenced_code : cleaned fencedExample = [].
Proof. vm_compute. reflexivity. Qed.

(* ----------------------------------------------------------------- *)
(** ** stripMarkdown applied twice *)

(** The characters one of the patterns of [stripMarkdown] cannot match
    without: [# * ~ ` [ > - +]. *)
Definition markup_char (c : ascii) : bool :=
  in_class (COneOf (map CChar (lit "#*~`[>-+"))) c.

(** No digit directly followed by a dot, which the pattern of the numbered
    list markers cannot match without. *)
Fixpoint no_digit_dot (s : str) : bool :=
  match s with
  | a :: (b :: _) as s' => negb (is_digit a && is_dot b) && no_digit_dot s'
  | _ => true
  end.

(** A text without markup: the patterns of [stripMarkdown] other than the
    blank-line pattern find nothing in it. *)
Definition plain (s : str) : bool := none_of markup_char s && no_digit_dot s.

Lemma digit_dot_found (d : ascii) (b : str) :
  is_digit d = true ->
  forall a, no_digit_dot (a ++ d :: "."%char :: b) = false.
Proof.
  intros Hd. induction a as [|c a IH].
  - cbn [app no_digit_dot]. rewrite Hd. reflexivity.
  - change ((c :: a) ++ d :: "."%char :: b) with (c :: (a ++ d :: "."%char :: b)).
    destruct (a ++ d :: "."%char :: b) as [|x u] eqn:E.
    + destruct a; discriminate.
    + cbn [no_digit_dot]. cbn [no_digit_dot] in IH. rewrite IH.
      apply andb_false_r.
Qed.

(** A numbered list marker holds a digit directly followed by a dot. *)
Lemma numberedRegex_lang (p : option ascii) (w t : str) :
  lang true numberedRegex p w t ->
  exists a d b, w = a ++ d :: "."%char :: b /\ is_digit d = true.
Proof.
  unfold numberedRegex. cbn [Seqs]. unfold Plus, Star, Chr. cbn [lang].
  intros (w0 & w0' & -> & (-> & _) & w1 & w1' & -> & _ &
          w2 & w2' & -> & (d1 & ds & -> & (x & -> & Hx) & Hds) &
          w3 & w4 & -> & (y & -> & Hy) & _).
  change (Ascii.eqb "." y = true) in Hy. apply Ascii.eqb_eq in Hy. subst y.
  apply (iter_cls true) in Hds.
  destruct (forallb_last is_digit x ds) as (init & d & E & Hd).
  { change (is_digit x = true) in Hx. change (forallb is_digit ds = true) in Hds.
    cbn [forallb]. now rewrite Hx, Hds. }
  exists (w1 ++ init), d, w4. split; [|exact Hd].
  change ([x] ++ ds) with (x :: ds). rewrite E.
  cbn [app]. now rewrite <- !app_assoc.
Qed.

Lemma numbered_fixed (s : str) :
  no_digit_dot s = true -> replace_all true numberedRegex [] s = s.
Proof.
  intro H. unfold replace_all. apply replace_loop_none. intros a b ->.
  destruct (exec_at true numberedRegex (start_state (prev_after None a) b))
    as [e|] eqn:E; [|reflexivity].
  apply exec_at_sound in E as (w & Hr & Hl & _). simpl in Hr.
  apply numberedRegex_lang in Hl as (a' & d & b' & -> & Hd).
  rewrite Hr in H.
  replace (a ++ (a' ++ d :: "."%char :: b') ++ rest e)
    with ((a ++ a') ++ d :: "."%char :: (b' ++ rest e)) in H
    by (rewrite <- !app_assoc; reflexivity).
  now rewrite (digit_dot_found d _ Hd) in H.
Qed.

(** On a text without markup only the blank-line replacement of
    [stripMarkdown] is left to act. *)
Lemma stripped_plain (u : str) :
  plain u = true ->
  stripped u = replace_all false blankLineRegex [RText [nl]] u.
Proof.
  unfold plain. intro H. apply andb_true_iff in H as [Hm Hd].
  unfold stripped.
  rewrite (replace_all_needs markup_char true headingMarkerRegex [] u)
    by (vm_compute; reflexivity) || exact Hm.
  rewrite (replace_all_needs markup_char false boldRegex keep1 u)
    by (vm_compute; reflexivity) || exact Hm.
  rewrite (replace_all_needs markup_char false italicRegex keep1 u)
    by (vm_compute; reflexivity) || exact Hm.
  rewrite (replace_all_needs markup_char false strikeRegex keep1 u)
    by (vm_compute; reflexivity) || exact Hm.
  rewrite (replace_all_needs markup_char false inlineCodeKeepRegex keep1 u)
    by (vm_compute; reflexivity) || exact Hm.
  rewrite (replace_all_needs markup_char false fenceRegex [] u)
    by (vm_compute; reflexivity) || exact Hm.
  rewrite (replace_all_needs markup_char false linkTextRegex keep1 u)
    by (vm_compute; reflexivity) || exact Hm.
  rewrite (replace_all_needs markup_char false imageAltRegex keep1 u)
    by (vm_compute; reflexivity) || exact Hm.
  rewrite (replace_all_needs markup_char true bulletRegex [] u)
    by (vm_compute; reflexivity) || exact Hm.
  rewrite (numbered_fixed u Hd).
  rewrite (replace_all_needs markup_char true quoteRegex [] u)
    by (vm_compute; reflexivity) || exact Hm.
  reflexivity.
Qed.



(** A text with a heading, bold and italic text, a link and blank lines. *)
Definition markedExample : str :=
  lit "# Title" ++ [nl; nl] ++ lit "Some **bold** and *italic* text, "
  ++ lit "a [link](https://example.com)." ++ [nl; nl; nl] ++ lit "The end".


Example stripMarkdown_markedExample :
  stripMarkdown markedExample
  = lit "Title" ++ [nl] ++ lit "Some bold and italic text, a link." ++ [nl]
    ++ lit "The end".
Proof. vm_compute. reflexivity. Qed.


(* ----------------------------------------------------------------- *)
(** ** getFirstHeading *)

(** The first line that starts with a hash and a blank, read from the left:
    what follows the blank up to the end of the line, trimmed; [p] is the
    character before [s].  Lines end at a line feed or a carriage return. *)
Fixpoint firstH1 (p : option ascii) (s : str) : str :=
  match s with
  | [] => []
  | c :: s' =>
      if at_line_start p && startsWith (lit "# ") s
      then trim (takeWhile in_line (skipn 2 s))
      else firstH1 (Some c) s'
  end.

Lemma firstHeadingRegex_hit (p : option ascii) (r : str) :
  at_line_start p = true ->
  exists e,
    exec_at true firstHeadingRegex (start_state p ("#"%char :: " "%char :: r))
    = Some e
    /\ cap 1 e = takeWhile in_line r.
Proof.
  intros Hb. unfold exec_at, firstHeadingRegex. cbn [Seqs].
  set (st0 := start_state p _).
  assert (Hb0 : at_bol true st0 = true).
  { unfold at_bol, st0. simpl. destruct p; [exact Hb | reflexivity]. }
  eexists. split.
  - rewrite rmatch_seq, rmatch_bol by exact Hb0.
    rewrite rmatch_seq. unfold hash.
    rewrite (rmatch_chr true "#" _ st0 (" "%char :: r)) by reflexivity.
    rewrite rmatch_seq, (rmatch_chr true " " _ _ r) by reflexivity.
    rewrite rmatch_seq, rmatch_grp.
    eapply (rmatch_star_first true CDot _ _ (takeWhile in_line r)
              (dropWhile in_line r));
      [apply takeWhile_dropWhile | apply (takeWhile_all (in_class CDot))
      | apply (dropWhile_stops CDot) |].
    rewrite (consumed_adv _ (takeWhile in_line r) (dropWhile in_line r))
      by (try apply takeWhile_dropWhile; reflexivity).
    rewrite rmatch_eol.
    + unfold finish. reflexivity.
    + unfold at_eol. cbn [rest adv set_cap].
      pose proof (dropWhile_head in_line r) as Hh.
      destruct (dropWhile in_line r); [reflexivity|].
      unfold in_line in Hh. now apply negb_false_iff in Hh.
  - reflexivity.
Qed.

Lemma firstHeadingRegex_miss (p : option ascii) (s : str) :
  at_line_start p && startsWith (lit "# ") s = false ->
  exec_at true firstHeadingRegex (start_state p s) = None.
Proof.
  intros H. unfold exec_at, firstHeadingRegex. cbn [Seqs].
  rewrite rmatch_seq. cbn [rmatch]. unfold at_bol. cbn [prev start_state].
  assert (Hb : match p with Some c => true && is_lt c | None => true end
               = at_line_start p) by now destruct p.
  rewrite Hb. destruct (at_line_start p); [|reflexivity].
  cbn [andb] in H.
  change (rmatch true (Lit (lit "# "))
            (rmatch true (Seq (Grp 1 (Star (Cls CDot))) Eol)
               (finish (MState p s []))) (MState p s []) = None).
  now apply rmatch_lit_miss.
Qed.

Lemma search_firstH1 :
  forall s p,
    match search true firstHeadingRegex p s with
    | Some (_, (_, e)) => trim (cap 1 e)
    | None => []
    end = firstH1 p s.
Proof.
  induction s as [|c s IH]; intros p.
  - cbn [search firstH1]. now rewrite firstHeadingRegex_miss by apply andb_false_r.
  - cbn [search firstH1].
    destruct (at_line_start p && startsWith (lit "# ") (c :: s)) eqn:E.
    + apply andb_true_iff in E as [Hb Hs].
      apply startsWith_true in Hs as (r & Er).
      cbn [lit list_ascii_of_string app] in Er. rewrite Er.
      destruct (firstHeadingRegex_hit p r Hb) as (e & He & Hc).
      rewrite He, Hc. reflexivity.
    + rewrite (firstHeadingRegex_miss p (c :: s) E).
      specialize (IH (Some c)).
      destruct (search true firstHeadingRegex (Some c) s) as [[sk [st e]]|];
        exact IH.
Qed.

(** X1.  [getFirstHeading] returns the text of the first line that starts
    with one hash and one blank: what follows the blank up to the end of that
    line, trimmed.  Lines that start with two hashes or more are passed
    over, and the result is empty when there is no such line. *)
Theorem getFirstHeading_first_h1_line (markdownContent : str) :
  getFirstHeading markdownContent = firstH1 None markdownContent
  /\ (none_of is_hash markdownContent = true ->
      getFirstHeading markdownContent = []).
Proof.
  assert (E : getFirstHeading markdownContent = firstH1 None markdownContent).
  { unfold getFirstHeading, match_first.
    rewrite <- (search_firstH1 markdownContent None).
    now destruct (search true firstHeadingRegex None markdownContent)
      as [[sk [st e]]|]. }
  split; [exact E|].
  intros H. unfold getFirstHeading, match_first.
  now rewrite (search_needs is_hash true firstHeadingRegex None _ eq_refl H).
Qed.

Lemma getFirstHeading_first_h1_line_witness :
  getFirstHeading (lit "Part one" ++ nl :: lit "text") = [].
Proof.
  apply (proj2 (getFirstHeading_first_h1_line
                  (lit "Part one" ++ nl :: lit "text"))).
  reflexivity.
Defined.

(* ----------------------------------------------------------------- *)
(** ** extractCodeBlocks *)

(** A fenced block: the fence, a language token, a line feed, the code and
    the closing fence, followed by [post]. *)
Definition fencedThen (language code post : str) : str :=
  lit "```" ++ language ++ nl :: code ++ lit "```" ++ post.

Lemma forallb_any (s : str) : forallb (in_class CAny) s = true.
Proof. induction s; [reflexivity | exact IHs]. Qed.

Lemma none_of_in (P : ascii -> bool) (s : str) (a : ascii) :
  none_of P s = true -> In a s -> P a = false.
Proof.
  unfold none_of. rewrite forallb_forall. intros H Hin.
  apply negb_true_iff. now apply H.
Qed.

Lemma codeBlockRegex_starts : starts is_tick codeBlockRegex = true.
Proof. vm_compute. reflexivity. Qed.

Lemma codeBlockRegex_nolook : nolook codeBlockRegex = true.
Proof. reflexivity. Qed.

Lemma codeBlockRegex_at (p : option ascii) (language code post : str) :
  forallb is_word language = true -> none_of is_tick code = true ->
  exists e,
    exec_at false codeBlockRegex (start_state p (fencedThen language code post))
    = Some e
    /\ rest e = post /\ cap 1 e = language /\ cap 2 e = code.
Proof.
  intros Hl Hc. unfold exec_at, codeBlockRegex, fencedThen. cbn [Seqs].
  set (st0 := start_state p _).
  eexists. split.
  - rewrite rmatch_seq. unfold L.
    rewrite (rmatch_lit false _ (lit "```") st0
               (language ++ nl :: code ++ lit "```" ++ post)) by reflexivity.
    rewrite rmatch_seq, rmatch_grp.
    eapply (rmatch_star_first false CWord _ _ language
              (nl :: code ++ lit "```" ++ post));
      [reflexivity | exact Hl | reflexivity |].
    rewrite (consumed_adv _ language (nl :: code ++ lit "```" ++ post))
      by reflexivity.
    rewrite rmatch_seq.
    rewrite (rmatch_chr false nl _ _ (code ++ lit "```" ++ post)) by reflexivity.
    rewrite rmatch_seq, rmatch_grp.
    eapply (rmatch_starlazy_first false CAny _ _ code (lit "```" ++ post));
      [reflexivity | apply forallb_any | |].
    + intros w1 a w2 E. apply rmatch_lit_miss.
      cbn [rest set_cap adv startsWith lit list_ascii_of_string].
      assert (Ha : is_tick a = false).
      { apply (none_of_in is_tick code a Hc). rewrite E.
        apply in_or_app. right. now left. }
      unfold is_tick in Ha. now rewrite Ha.
    + rewrite (consumed_adv _ code (lit "```" ++ post)) by reflexivity.
      rewrite (rmatch_lit false _ (lit "```") _ post) by reflexivity.
      unfold finish. reflexivity.
  - repeat split; reflexivity.
Qed.

Lemma codeBlockOf_same_ahead (a b : mstate) :
  same_ahead a b -> codeBlockOf a = codeBlockOf b.
Proof. intros [_ Hc]. unfold codeBlockOf, cap, cap_opt. now rewrite Hc. Qed.

(** X2.  When no backtick stands before a fenced block whose language token
    is made of word characters and whose code holds no backtick,
    [extractCodeBlocks] returns that block first, with the language (["text"]
    when the token is empty) and the code trimmed, then the blocks of the
    text after the closing fence; a text without backtick has no block. *)
Theorem extractCodeBlocks_first_block (pre language code post : str) :
  none_of is_tick pre = true ->
  forallb is_word language = true ->
  none_of is_tick code = true ->
  extractCodeBlocks (pre ++ fencedThen language code post)
  = CodeBlock (match language with [] => lit "text" | _ => language end)
      (trim code)
    :: extractCodeBlocks post
  /\ extractCodeBlocks pre = [].
Proof.
  intros Hpre Hl Hc. unfold extractCodeBlocks, match_all. split.
  - rewrite length_app.
    replace (S (length pre + length (fencedThen language code post)))
      with (length pre + S (length (fencedThen language code post))) by lia.
    rewrite (exec_loop_skip is_tick false codeBlockRegex codeBlockRegex_starts
               pre _ None _ Hpre).
    destruct (codeBlockRegex_at (prev_after None pre) language code post Hl Hc)
      as (e & He & Hr & H1 & H2).
    assert (Hlen : length post < length (fencedThen language code post)).
    { unfold fencedThen. rewrite !length_app. simpl.
      rewrite !length_app. simpl. lia. }
    rewrite (exec_loop_match false codeBlockRegex _ _ _ e He)
      by (rewrite Hr; exact Hlen).
    rewrite Hr. cbn [map snd]. unfold codeBlockOf at 1. rewrite H1, H2.
    apply f_equal2; [f_equal; now destruct language|].
    rewrite (exec_loop_fuel false codeBlockRegex _ (S (length post))); [|lia|lia].
    apply (exec_loop_nolook false codeBlockRegex codeBlockOf
             codeBlockRegex_nolook codeBlockOf_same_ahead).
  - rewrite <- (app_nil_r pre) at 2.
    replace (S (length pre)) with (length pre + 1) by lia.
    rewrite (exec_loop_skip is_tick false codeBlockRegex codeBlockRegex_starts
               pre _ None _ Hpre).
    reflexivity.
Qed.

Lemma extractCodeBlocks_first_block_witness :
  extractCodeBlocks
    (lit "See: " ++ fencedThen (lit "js") (lit "let x = 1;" ++ [nl]) (lit " done"))
  = CodeBlock (lit "js") (trim (lit "let x = 1;" ++ [nl]))
    :: extractCodeBlocks (lit " done")
  /\ extractCodeBlocks (lit "See: ") = [].
Proof.
  apply (extractCodeBlocks_first_block (lit "See: ") (lit "js")
           (lit "let x = 1;" ++ [nl]) (lit " done")); reflexivity.
Defined.

(* ----------------------------------------------------------------- *)
(** ** extractImages *)

Definition is_bang : ascii -> bool := Ascii.eqb "!".
Definition is_dquote : ascii -> bool := Ascii.eqb dquote.

(** The title part of an image: white space, then the title between double
    quotes. *)
Definition titlePart (sp ttl : str) : str := sp ++ dquote :: ttl ++ [dquote].

(** An image: ["!["], the alt text, ["]("], the source, a title part or
    nothing, and [")"], followed by [post]. *)
Definition imageThen (alt src part post : str) : str :=
  lit "![" ++ alt ++ lit "](" ++ src ++ part ++ lit ")" ++ post.

Definition titleRegex : regex :=
  Seqs [Plus (Cls CSpace); Chr dquote;
        Grp 3 (Star (Cls (not_char dquote))); Chr dquote].

Lemma imageRegex_starts : starts is_bang imageRegex = true.
Proof. vm_compute. reflexivity. Qed.

Lemma imageRegex_nolook : nolook imageRegex = true.
Proof. reflexivity. Qed.

Lemma titleRegex_miss (k : cont) (st : mstate) (a : ascii) (tl : str) :
  rest st = a :: tl -> is_ws a = false -> rmatch false titleRegex k st = None.
Proof.
  intros Hr Ha. unfold titleRegex. cbn [Seqs]. unfold Plus.
  rewrite !rmatch_seq. cbn [rmatch]. rewrite Hr. cbn [in_class].
  now rewrite Ha.
Qed.

(** The source of an image holds neither white space nor [')']. *)
Definition src_char (c : ascii) : bool := negb (is_ws c) && negb (close_paren c).

Lemma src_char_class (s : str) :
  forallb src_char s = true -> forallb (in_class (not_char ")")) s = true.
Proof.
  apply forallb_impl. intros c H. unfold src_char in H.
  apply andb_true_iff in H as [_ H]. exact H.
Qed.

(** Inside the source, neither a title nor the closing parenthesis starts. *)
Lemma image_tail_miss (k : cont) (st : mstate) (a : ascii) (tl : str) :
  rest st = a :: tl -> src_char a = true ->
  rmatch false (Seq (Opt titleRegex) (Chr ")")) k st = None.
Proof.
  intros Hr Ha. unfold src_char in Ha. apply andb_true_iff in Ha as [Hw Hp].
  apply negb_true_iff in Hw. apply negb_true_iff in Hp.
  rewrite rmatch_seq, rmatch_opt_skip.
  - unfold Chr. cbn [rmatch]. rewrite Hr. cbn [in_class].
    unfold close_paren in Hp. now rewrite Hp.
  - intros k'. now apply (titleRegex_miss k' st a tl).
Qed.

Lemma imageRegex_at_plain (p : option ascii) (alt src post : str) :
  none_of close_bracket alt = true -> forallb src_char src = true ->
  exists e,
    exec_at false imageRegex (start_state p (imageThen alt src [] post)) = Some e
    /\ rest e = post /\ imageOf e = Image alt src None.
Proof.
  intros Ha Hs. unfold exec_at, imageRegex, imageThen. cbn [Seqs app].
  fold titleRegex.
  set (st0 := start_state p _).
  eexists. split.
  - rewrite rmatch_seq. unfold L.
    rewrite (rmatch_lit false _ (lit "![") st0
               (alt ++ lit "](" ++ src ++ lit ")" ++ post)) by reflexivity.
    rewrite rmatch_seq, rmatch_grp.
    eapply (rmatch_star_first false _ _ _ alt (lit "](" ++ src ++ lit ")" ++ post));
      [reflexivity | exact Ha | reflexivity |].
    rewrite (consumed_adv _ alt (lit "](" ++ src ++ lit ")" ++ post))
      by reflexivity.
    rewrite rmatch_seq.
    rewrite (rmatch_lit false _ (lit "](") _ (src ++ lit ")" ++ post))
      by reflexivity.
    rewrite rmatch_seq, rmatch_grp.
    eapply (rmatch_starlazy_first false _ _ _ src (lit ")" ++ post));
      [reflexivity | now apply src_char_class | |].
    + intros w1 a w2 E.
      apply (image_tail_miss _ _ a (w2 ++ lit ")" ++ post)); [reflexivity|].
      rewrite forallb_forall in Hs. apply Hs. rewrite E.
      apply in_or_app. right. now left.
    + rewrite (consumed_adv _ src (lit ")" ++ post)) by reflexivity.
      rewrite rmatch_seq, rmatch_opt_skip
        by (intros k'; now apply (titleRegex_miss k' _ ")"%char post)).
      rewrite (rmatch_chr false ")" _ _ post) by reflexivity.
      unfold finish. reflexivity.
  - split; reflexivity.
Qed.

Lemma imageRegex_at_titled (p : option ascii) (alt src sp ttl post : str)
  (b : ascii) :
  none_of close_bracket alt = true -> forallb src_char src = true ->
  forallb is_ws (b :: sp) = true -> none_of is_dquote ttl = true ->
  exists e,
    exec_at false imageRegex
      (start_state p (imageThen alt src (titlePart (b :: sp) ttl) post)) = Some e
    /\ rest e = post
    /\ imageOf e = Image alt src (match ttl with [] => None | _ => Some ttl end).
Proof.
  intros Ha Hs Hsp Ht. unfold exec_at, imageRegex, imageThen, titlePart.
  cbn [Seqs]. fold titleRegex.
  cbn [forallb] in Hsp. apply andb_true_iff in Hsp as [Hb Hsp].
  set (tail := sp ++ dquote :: ttl ++ [dquote] ++ lit ")" ++ post).
  assert (Et : ((b :: sp) ++ dquote :: ttl ++ [dquote]) ++ lit ")" ++ post
               = b :: tail).
  { unfold tail. simpl. rewrite <- !app_assoc. simpl. now rewrite <- app_assoc. }
  rewrite Et. clear Et.
  set (st0 := start_state p _).
  eexists. split.
  - rewrite rmatch_seq. unfold L.
    rewrite (rmatch_lit false _ (lit "![") st0
               (alt ++ lit "](" ++ src ++ b :: tail)) by reflexivity.
    rewrite rmatch_seq, rmatch_grp.
    eapply (rmatch_star_first false _ _ _ alt (lit "](" ++ src ++ b :: tail));
      [reflexivity | exact Ha | reflexivity |].
    rewrite (consumed_adv _ alt (lit "](" ++ src ++ b :: tail)) by reflexivity.
    rewrite rmatch_seq.
    rewrite (rmatch_lit false _ (lit "](") _ (src ++ b :: tail)) by reflexivity.
    rewrite rmatch_seq, rmatch_grp.
    eapply (rmatch_starlazy_first false _ _ _ src (b :: tail));
      [reflexivity | now apply src_char_class | |].
    + intros w1 a w2 E.
      apply (image_tail_miss _ _ a (w2 ++ b :: tail)); [reflexivity|].
      rewrite forallb_forall in Hs. apply Hs. rewrite E.
      apply in_or_app. right. now left.
    + rewrite (consumed_adv _ src (b :: tail)) by reflexivity.
      rewrite rmatch_seq. apply rmatch_opt_take.
      unfold titleRegex. cbn [Seqs]. unfold Plus. rewrite !rmatch_seq.
      rewrite (rmatch_cls false CSpace _ _ b tail) by (reflexivity || exact Hb).
      eapply (rmatch_star_first false CSpace _ _ sp
                (dquote :: ttl ++ [dquote] ++ lit ")" ++ post));
        [reflexivity | exact Hsp | reflexivity |].
      rewrite rmatch_seq.
      rewrite (rmatch_chr false dquote _ _ (ttl ++ [dquote] ++ lit ")" ++ post))
        by reflexivity.
      rewrite rmatch_seq, rmatch_grp.
      eapply (rmatch_star_first false _ _ _ ttl ([dquote] ++ lit ")" ++ post));
        [reflexivity | exact Ht | reflexivity |].
      rewrite (consumed_adv _ ttl ([dquote] ++ lit ")" ++ post)) by reflexivity.
      rewrite (rmatch_chr false dquote _ _ (lit ")" ++ post)) by reflexivity.
      cbn [rest adv set_cap].
      replace (length (lit ")" ++ post) <? length (b :: tail)) with true.
      * rewrite (rmatch_chr false ")" _ _ post) by reflexivity.
        unfold finish. reflexivity.
      * symmetry. apply Nat.ltb_lt. unfold tail. simpl.
        rewrite !length_app. simpl. rewrite !length_app. simpl. lia.
  - split; [reflexivity|]. unfold imageOf, titleOf. cbn. now destruct ttl.
Qed.

Lemma imageOf_same_ahead (a b : mstate) : same_ahead a b -> imageOf a = imageOf b.
Proof.
  intros [_ Hc]. unfold imageOf, titleOf, cap, cap_opt. now rewrite Hc.
Qed.

(** X3.  When no ['!'] stands before an image whose alt text holds no [']']
    and whose source holds neither white space nor [')'], [extractImages]
    returns that image first and then the images of the text after it.  A
    title between double quotes, set off from the source by white space, is
    returned with it; an empty one is dropped like a missing one.  A text
    without ['!'] has no image. *)
Theorem extractImages_first_image (pre alt src sp ttl post : str) :
  none_of is_bang pre = true ->
  none_of close_bracket alt = true ->
  forallb src_char src = true ->
  forallb is_ws sp = true ->
  none_of is_dquote ttl = true ->
  extractImages (pre ++ imageThen alt src [] post)
  = Image alt src None :: extractImages post
  /\ (sp <> [] ->
      extractImages (pre ++ imageThen alt src (titlePart sp ttl) post)
      = Image alt src (match ttl with [] => None | _ => Some ttl end)
        :: extractImages post)
  /\ extractImages pre = [].
Proof.
  intros Hpre Ha Hs Hsp Ht. unfold extractImages. repeat split.
  - destruct (imageRegex_at_plain (prev_after None pre) alt src post Ha Hs)
      as (e & He & Hr & Hi).
    rewrite (match_all_first is_bang false imageRegex imageOf pre _ e
               imageRegex_starts imageRegex_nolook imageOf_same_ahead Hpre He).
    now rewrite Hi, Hr.
  - intros Hne. destruct sp as [|b sp]; [now elim Hne|].
    destruct (imageRegex_at_titled (prev_after None pre) alt src sp ttl post b
                Ha Hs Hsp Ht) as (e & He & Hr & Hi).
    rewrite (match_all_first is_bang false imageRegex imageOf pre _ e
               imageRegex_starts imageRegex_nolook imageOf_same_ahead Hpre He).
    now rewrite Hi, Hr.
  - now rewrite (match_all_none is_bang false imageRegex pre imageRegex_starts Hpre).
Qed.

Lemma extractImages_first_image_witness :
  extractImages
    (lit "See " ++ imageThen (lit "Alt text") (lit "image.jpg") [] (lit " end"))
  = Image (lit "Alt text") (lit "image.jpg") None :: extractImages (lit " end")
  /\ (lit " " <> [] ->
      extractImages
        (lit "See " ++ imageThen (lit "Alt text") (lit "image.jpg")
                         (titlePart (lit " ") (lit "Title")) (lit " end"))
      = Image (lit "Alt text") (lit "image.jpg") (Some (lit "Title"))
        :: extractImages (lit " end"))
  /\ extractImages (lit "See ") = [].
Proof.
  apply (extractImages_first_image (lit "See ") (lit "Alt text")
           (lit "image.jpg") (lit " ") (lit "Title") (lit " end")); reflexivity.
Defined.

(* ----------------------------------------------------------------- *)
(** ** getWordCount *)

Lemma count_split_blank (s : str) :
  length (filter (fun word => 0 <? length word) (split_char " " s))
  = countRuns (Ascii.eqb " ") false s.
Proof. apply (split_char_words " " s). Qed.

Lemma getWordCount_words (markdownContent : str) :
  getWordCount markdownContent = countWords (stripMarkdown markdownContent).
Proof.
  unfold getWordCount, whiteSpaceRegex.
  rewrite replace_all_plus_cls.
  set (plainText := stripMarkdown markdownContent).
  set (normalizedText := trim (squeeze CSpace (lit " ") false plainText)).
  assert (Hn : countWords normalizedText = countWords plainText).
  { unfold normalizedText. rewrite countWords_trim. unfold countWords.
    apply countRuns_squeeze. discriminate. }
  destruct (length normalizedText =? 0) eqn:El.
  - apply Nat.eqb_eq in El. rewrite <- Hn.
    now destruct normalizedText.
  - rewrite count_split_blank, <- Hn. unfold countWords.
    apply countRuns_blanks. unfold normalizedText.
    apply forallb_trim, squeeze_blanks.
Qed.

(** X4.  [getWordCount] is the number of words of the stripped text, a word
    being a maximal run of characters without white space; it is 0 exactly
    when [stripMarkdown] leaves nothing. *)
Theorem getWordCount_counts_stripped_words (markdownContent : str) :
  getWordCount markdownContent = countWords (stripMarkdown markdownContent)
  /\ (getWordCount markdownContent = 0 <-> stripMarkdown markdownContent = []).
Proof.
  split; [apply getWordCount_words|]. rewrite getWordCount_words.
  unfold stripMarkdown.
  pose proof (trim_head (stripped markdownContent)) as Hh.
  destruct (trim (stripped markdownContent)) as [|c x].
  - split; reflexivity.
  - unfold countWords. cbn [countRuns]. rewrite Hh. split; discriminate.
Qed.

(* ----------------------------------------------------------------- *)
(** ** markdownToHtml on a text without markup *)

(** An item of a numbered list holds a digit directly followed by a dot. *)
Lemma numberedItemRegex_lang (p : option ascii) (w t : str) :
  lang true numberedItemRegex p w t ->
  exists a d b, w = a ++ d :: "."%char :: b /\ is_digit d = true.
Proof.
  unfold numberedItemRegex. cbn [Seqs]. unfold Plus, Star, Chr. cbn [lang].
  intros (w0 & w0' & -> & (-> & _) & w1 & w1' & -> & _ &
          w2 & w2' & -> & (d1 & ds & -> & (x & -> & Hx) & Hds) &
          w3 & w4 & -> & (y & -> & Hy) & _).
  change (Ascii.eqb "." y = true) in Hy. apply Ascii.eqb_eq in Hy. subst y.
  apply (iter_cls true) in Hds.
  destruct (forallb_last is_digit x ds) as (init & d & E & Hd).
  { change (is_digit x = true) in Hx. change (forallb is_digit ds = true) in Hds.
    cbn [forallb]. now rewrite Hx, Hds. }
  exists (w1 ++ init), d, w4. split; [|exact Hd].
  change ([x] ++ ds) with (x :: ds). rewrite E.
  cbn [app]. now rewrite <- !app_assoc.
Qed.

Lemma numberedItem_fixed (t : template) (s : str) :
  no_digit_dot s = true -> replace_all true numberedItemRegex t s = s.
Proof.
  intro H. unfold replace_all. apply replace_loop_none. intros a b ->.
  destruct (exec_at true numberedItemRegex (start_state (prev_after None a) b))
    as [e|] eqn:E; [|reflexivity].
  apply exec_at_sound in E as (w & Hr & Hl & _). simpl in Hr.
  apply numberedItemRegex_lang in Hl as (a' & d & b' & -> & Hd).
  rewrite Hr in H.
  replace (a ++ (a' ++ d :: "."%char :: b') ++ rest e)
    with ((a ++ a') ++ d :: "."%char :: (b' ++ rest e)) in H
    by (rewrite <- !app_assoc; reflexivity).
  now rewrite (digit_dot_found d _ Hd) in H.
Qed.

(** The text with each line feed replaced by the tag of a line break. *)
Definition brText (s : str) : str :=
  flat_map (fun a => if Ascii.eqb a nl then lit "<br>" else [a]) s.

(** On a text without markup only the line feeds are replaced by the first
    chain of [markdownToHtml]. *)
Lemma inlineHtml_plain (s : str) : plain s = true -> inlineHtml s = brText s.
Proof.
  unfold plain. intro H. apply andb_true_iff in H as [Hm Hd].
  unfold inlineHtml.
  rewrite (replace_all_needs markup_char true (headerRegex 6) _ s)
    by (vm_compute; reflexivity) || exact Hm.
  rewrite (replace_all_needs markup_char true (headerRegex 5) _ s)
    by (vm_compute; reflexivity) || exact Hm.
  rewrite (replace_all_needs markup_char true (headerRegex 4) _ s)
    by (vm_compute; reflexivity) || exact Hm.
  rewrite (replace_all_needs markup_char true (headerRegex 3) _ s)
    by (vm_compute; reflexivity) || exact Hm.
  rewrite (replace_all_needs markup_char true (headerRegex 2) _ s)
    by (vm_compute; reflexivity) || exact Hm.
  rewrite (replace_all_needs markup_char true (headerRegex 1) _ s)
    by (vm_compute; reflexivity) || exact Hm.
  rewrite (replace_all_needs markup_char true strongRegex _ s)
    by (vm_compute; reflexivity) || exact Hm.
  rewrite (replace_all_needs markup_char true emRegex _ s)
    by (vm_compute; reflexivity) || exact Hm.
  rewrite (replace_all_needs markup_char true delRegex _ s)
    by (vm_compute; reflexivity) || exact Hm.
  rewrite (replace_all_needs markup_char true preRegex _ s)
    by (vm_compute; reflexivity) || exact Hm.
  rewrite (replace_all_needs markup_char true codeRegex _ s)
    by (vm_compute; reflexivity) || exact Hm.
  rewrite (replace_all_needs markup_char true anchorRegex _ s)
    by (vm_compute; reflexivity) || exact Hm.
  rewrite (replace_all_needs markup_char true imgRegex _ s)
    by (vm_compute; reflexivity) || exact Hm.
  rewrite (replace_all_needs markup_char true hrRegex _ s)
    by (vm_compute; reflexivity) || exact Hm.
  rewrite (replace_all_needs markup_char true blockquoteRegex _ s)
    by (vm_compute; reflexivity) || exact Hm.
  rewrite (replace_all_needs markup_char true bulletItemRegex _ s)
    by (vm_compute; reflexivity) || exact Hm.
  rewrite (numberedItem_fixed _ s Hd).
  unfold lineFeedRegex, Chr. rewrite replace_all_cls. unfold brText.
  apply flat_map_ext. intro a. cbn [in_class].
  rewrite Ascii.eqb_sym. now destruct (Ascii.eqb a nl).
Qed.

(** The character that opens a tag, and the characters other than the [b]
    of [<br>]. *)
Definition is_angle (c : ascii) : bool := Ascii.eqb c "<".
Definition not_b (c : ascii) : bool := negb (Ascii.eqb c "b").

Lemma no_pair_cons (P Q : ascii -> bool) (a : ascii) (s : str) :
  no_pair P Q (a :: s)
  = negb (P a && match s with b :: _ => Q b | [] => false end)
    && no_pair P Q s.
Proof. destruct s; [now rewrite andb_false_r|reflexivity]. Qed.

Lemma no_pair_brText (s : str) :
  none_of is_angle s = true -> no_pair is_angle not_b (brText s) = true.
Proof.
  induction s as [|a s IH]; intro H; [reflexivity|].
  cbn [none_of forallb] in H. apply andb_true_iff in H as [Ha H].
  apply negb_true_iff in Ha. specialize (IH H).
  unfold brText. cbn [flat_map]. fold (brText s).
  destruct (Ascii.eqb a nl).
  - change (lit "<br>" ++ brText s)
      with ("<"%char :: "b"%char :: "r"%char :: ">"%char :: brText s).
    do 4 rewrite no_pair_cons. rewrite IH. reflexivity.
  - change ([a] ++ brText s) with (a :: brText s).
    rewrite no_pair_cons, Ha, IH. reflexivity.
Qed.

(** Without tags other than [<br>] the second chain changes nothing. *)
Lemma listHtml_no_tags (html : str) :
  no_pair is_angle not_b html = true -> listHtml html = html.
Proof.
  intro H. unfold listHtml.
  rewrite (replace_all_starts2 is_angle not_b true listRegex _ html)
    by (vm_compute; reflexivity) || exact H.
  rewrite (replace_all_with_starts2 is_angle not_b true ulRegex _ html)
    by (vm_compute; reflexivity) || exact H.
  rewrite (replace_all_starts2 is_angle not_b true ulJoinRegex _ html)
    by (vm_compute; reflexivity) || exact H.
  now rewrite (replace_all_starts2 is_angle not_b true olJoinRegex _ html)
    by (vm_compute; reflexivity) || exact H.
Qed.

Lemma split_str_loop_br (cur u : str) :
  split_str_loop (lit "<br>") 0 cur (lit "<br>" ++ u)
  = rev cur :: split_str_loop (lit "<br>") 0 [] u.
Proof. reflexivity. Qed.

Lemma split_str_loop_miss (sep : str) (cur : str) (a : ascii) (u : str) :
  startsWith sep (a :: u) = false ->
  split_str_loop sep 0 cur (a :: u) = split_str_loop sep 0 (a :: cur) u.
Proof. intro E. cbn [split_str_loop]. now rewrite E. Qed.

(** Cutting the text at the tags that replaced the line feeds gives its
    lines. *)
Lemma split_str_brText (s : str) :
  none_of is_angle s = true ->
  forall cur, split_str_loop (lit "<br>") 0 cur (brText s)
              = split_char_loop nl cur s.
Proof.
  induction s as [|a s IH]; intros H cur; [reflexivity|].
  cbn [none_of forallb] in H. apply andb_true_iff in H as [Ha H].
  apply negb_true_iff in Ha. unfold is_angle in Ha.
  unfold brText. cbn [flat_map split_char_loop]. fold (brText s).
  destruct (Ascii.eqb a nl).
  - rewrite split_str_loop_br. f_equal. apply (IH H).
  - change ([a] ++ brText s) with (a :: brText s).
    rewrite split_str_loop_miss; [apply (IH H)|].
    change (lit "<br>") with ("<"%char :: lit "br>"). cbn [startsWith].
    rewrite Ascii.eqb_sym, Ha. reflexivity.
Qed.

(** What [markdownToHtml] makes of a line without markup: nothing when
    the line is blank, else a paragraph around the line without the white
    space at its ends. *)
Definition paragraph (line : str) : str :=
  match trim line with
  | [] => []
  | t => lit "<p>" ++ t ++ lit "</p>"
  end.

Lemma paragraphOf_no_tag (line : str) :
  none_of is_angle line = true -> paragraphOf line = paragraph line.
Proof.
  intro H. apply (none_of_trim is_angle) in H.
  unfold paragraphOf, paragraph. cbv zeta.
  destruct (trim line) as [|c t] eqn:E; [reflexivity|].
  unfold test. rewrite (search_needs is_angle false blockTagRegex None _)
    by (vm_compute; reflexivity) || exact H.
  reflexivity.
Qed.

Lemma trimStart_dark (c : ascii) (s : str) :
  is_ws c = false -> trimStart (c :: s) = c :: s.
Proof. intro H. unfold trimStart. cbn [dropWhile]. now rewrite H. Qed.

Lemma trimEnd_dark (c : ascii) (s : str) :
  is_ws c = false -> trimEnd (s ++ [c]) = s ++ [c].
Proof.
  intro H. unfold trimEnd. rewrite rev_app_distr. cbn [rev app dropWhile].
  rewrite H. change (c :: rev s) with ([c] ++ rev s).
  now rewrite rev_app_distr, rev_involutive.
Qed.

(** A paragraph is kept by the filter of [markdownToHtml] unless it is
    empty. *)
Lemma paragraph_kept (line : str) :
  (0 <? length (trim (paragraph line))) = (0 <? length (paragraph line)).
Proof.
  unfold paragraph. destruct (trim line) as [|c t]; [reflexivity|].
  change (lit "<p>" ++ (c :: t) ++ lit "</p>")
    with ("<"%char :: (lit "p>" ++ (c :: t) ++ lit "</p>")).
  unfold trim. rewrite trimStart_dark by reflexivity.
  replace ("<"%char :: (lit "p>" ++ (c :: t) ++ lit "</p>"))
    with (("<"%char :: (lit "p>" ++ (c :: t) ++ lit "</p")) ++ [">"%char]).
  - now rewrite trimEnd_dark by reflexivity.
  - change (lit "</p>") with (lit "</p" ++ [">"%char]).
    change (lit "p>") with ["p"%char; ">"%char].
    cbn [app]. do 4 f_equal. now rewrite <- app_assoc.
Qed.

Lemma paragraphs_joined (lines : list str) :
  concat (filter (fun line => 0 <? length (trim line)) (map paragraph lines))
  = flat_map paragraph lines.
Proof.
  induction lines as [|l lines IH]; [reflexivity|].
  cbn [map filter flat_map]. rewrite paragraph_kept.
  destruct (paragraph l) as [|c t] eqn:E.
  - cbn [length Nat.ltb Nat.leb app]. exact IH.
  - cbn [length]. change (0 <? S (length t)) with true. cbv iota.
    cbn [concat]. now rewrite IH.
Qed.

(** X5.  In a text without markup and without the character [<], each line that
    is not blank becomes a paragraph around the line without the white space
    at its ends, and the blank lines are dropped. *)
Theorem markdownToHtml_plain_paragraphs (markdownContent : str) :
  plain markdownContent = true ->
  none_of is_angle markdownContent = true ->
  markdownToHtml markdownContent
  = flat_map paragraph (split_char nl markdownContent).
Proof.
  intros Hp Ha. unfold markdownToHtml. cbv zeta.
  rewrite (inlineHtml_plain _ Hp).
  rewrite (listHtml_no_tags _ (no_pair_brText _ Ha)).
  unfold split_str. rewrite (split_str_brText _ Ha).
  fold (split_char nl markdownContent).
  rewrite <- paragraphs_joined. do 2 f_equal.
  apply map_ext_in. intros line Hl. apply paragraphOf_no_tag.
  exact (split_char_pieces is_angle nl markdownContent Ha line Hl).
Qed.

Lemma markdownToHtml_plain_paragraphs_witness :
  markdownToHtml (lit "one two" ++ [nl; nl] ++ lit "  three ")
  = lit "<p>one two</p><p>three</p>".
Proof.
  now rewrite (markdownToHtml_plain_paragraphs
                 (lit "one two" ++ [nl; nl] ++ lit "  three ")
                 eq_refl eq_refl).
Defined.

(* ================================================================= *)
(** * src/pathUtils.ts: properties *)

Import PathUtils.

(* ----------------------------------------------------------------- *)
(** ** filenameToSlug: what a slug is made of *)

(** The characters of a slug: a-z, 0-9 and the hyphen. *)
Definition slug_char (c : ascii) : bool :=
  in_class (COneOf [CRange "a" "z"; CRange "0" "9"; CChar "-"]) c.

(** No two hyphens in a row. *)
Fixpoint single_hyphens (s : str) : bool :=
  match s with
  | a :: (b :: _) as s' => negb (is_hyphen a && is_hyphen b) && single_hyphens s'
  | _ => true
  end.

Definition slug_ok (s : str) : bool := forallb slug_char s && single_hyphens s.

Lemma slug_char_not_ws (c : ascii) : slug_char c = true -> is_ws c = false.
Proof.
  intro H. pose proof (char_fact (fun c => implb (slug_char c) (negb (is_ws c)))
                         c eq_refl) as E.
  cbv beta in E. rewrite H in E. now apply negb_true_iff in E.
Qed.

Lemma slug_char_kept (c : ascii) :
  slug_char c = true -> in_class (CNot slugKeep) c = false.
Proof.
  intro H.
  pose proof (char_fact
                (fun c => implb (slug_char c) (negb (in_class (CNot slugKeep) c)))
                c eq_refl) as E.
  cbv beta in E. rewrite H in E. now apply negb_true_iff in E.
Qed.

Lemma slug_char_lower (c : ascii) : slug_char c = true -> lower_char c = c.
Proof.
  intro H.
  pose proof (char_fact
                (fun c => implb (slug_char c) (Ascii.eqb (lower_char c) c))
                c eq_refl) as E.
  cbv beta in E. rewrite H in E. now apply Ascii.eqb_eq in E.
Qed.

Lemma slug_char_not (x : ascii) (c : ascii) :
  slug_char x = false -> slug_char c = true -> Ascii.eqb x c = false.
Proof.
  intros Hx Hc. destruct (Ascii.eqb x c) eqn:E; [|reflexivity].
  apply Ascii.eqb_eq in E. congruence.
Qed.

Lemma kept_not_ws_slug (c : ascii) :
  in_class slugKeep c = true -> is_ws c = false -> slug_char c = true.
Proof.
  intros H1 H2.
  pose proof (char_fact
                (fun c => implb (in_class slugKeep c && negb (is_ws c)) (slug_char c))
                c eq_refl) as E.
  cbv beta in E. rewrite H1, H2 in E. exact E.
Qed.

Lemma slug_none_of (x : ascii) (s : str) :
  slug_char x = false -> forallb slug_char s = true ->
  none_of (Ascii.eqb x) s = true.
Proof.
  intros Hx. apply forallb_impl. intros c Hc.
  now rewrite (slug_char_not x c Hx Hc).
Qed.

(** After a run of hyphens was replaced, the text goes on with another
    character; and the output never has two hyphens in a row. *)
Lemma squeeze_hyphens (s : str) :
  single_hyphens (squeeze (CChar "-") (lit "-") false s) = true
  /\ single_hyphens (squeeze (CChar "-") (lit "-") true s) = true
  /\ match squeeze (CChar "-") (lit "-") true s with
     | [] => True
     | a :: _ => is_hyphen a = false
     end.
Proof.
  induction s as [|a s (IH1 & IH2 & IH3)]; [now repeat split|].
  cbn [squeeze]. change (in_class (CChar "-") a) with (is_hyphen a).
  destruct (is_hyphen a) eqn:E.
  - repeat split; auto.
    destruct (squeeze (CChar "-") (lit "-") true s) as [|b u] eqn:Eu;
      [reflexivity|].
    change (negb (is_hyphen "-" && is_hyphen b) && single_hyphens (b :: u) = true).
    rewrite IH3, IH2. reflexivity.
  - assert (H : single_hyphens (a :: squeeze (CChar "-") (lit "-") false s) = true).
    { cbn [single_hyphens].
      destruct (squeeze (CChar "-") (lit "-") false s) as [|b u]; [reflexivity|].
      rewrite E. simpl. exact IH1. }
    repeat split; auto.
Qed.

Lemma squeeze_hyphens_id :
  forall s, single_hyphens s = true ->
            squeeze (CChar "-") (lit "-") false s = s.
Proof.
  induction s as [|a s IH]; intro H; [reflexivity|].
  cbn [squeeze]. change (in_class (CChar "-") a) with (is_hyphen a).
  assert (Hs : single_hyphens s = true).
  { destruct s as [|b s]; [reflexivity|]. cbn [single_hyphens] in H.
    now apply andb_true_iff in H as [_ H]. }
  destruct (is_hyphen a) eqn:E.
  - assert (Ea : a = "-"%char)
      by (symmetry; apply Ascii.eqb_eq; exact E).
    change (lit "-" ++ squeeze (CChar "-") (lit "-") true s = a :: s).
    rewrite Ea. change (lit "-" ++ squeeze (CChar "-") (lit "-") true s)
      with ("-"%char :: squeeze (CChar "-") (lit "-") true s).
    f_equal. destruct s as [|b s]; [reflexivity|].
    cbn [single_hyphens] in H. apply andb_true_iff in H as [Hb _].
    rewrite E in Hb. cbn [andb] in Hb. apply negb_true_iff in Hb.
    rewrite <- (IH Hs) at 2. cbn [squeeze].
    change (in_class (CChar "-") b) with (is_hyphen b).
    now rewrite Hb.
  - f_equal. now apply IH.
Qed.

(** The steps of [filenameToSlug] after the extension is taken off. *)
Definition slugTail (s : str) : str :=
  trim
    (replace_all false hyphensRegex hyphen
    (replace_all false spacesRegex hyphen
    (replace_all false specialRegex []
    (replace_all false underscoreRegex hyphen
    (toLowerCase s))))).

Lemma filenameToSlug_tail (filename : str) :
  filenameToSlug filename = slugTail (removeExtension filename).
Proof. reflexivity. Qed.

Lemma special_removed (s : str) :
  forallb (in_class slugKeep) (replace_all false specialRegex [] s) = true.
Proof.
  unfold specialRegex. rewrite replace_all_cls.
  induction s as [|a s IH]; [reflexivity|].
  cbn [flat_map]. rewrite forallb_app, IH, andb_true_r.
  change (in_class (CNot slugKeep) a) with (negb (in_class slugKeep a)).
  destruct (in_class slugKeep a) eqn:E; cbn [negb];
    [cbn [forallb]; now rewrite E | reflexivity].
Qed.

(** Every slug is made of slug characters, with single hyphens. *)
Lemma slugTail_ok (s : str) : slug_ok (slugTail s) = true.
Proof.
  unfold slugTail.
  set (s4 := replace_all false specialRegex [] _).
  assert (H4 : forallb (in_class slugKeep) s4 = true) by apply special_removed.
  unfold spacesRegex, hyphensRegex, hyphen, Chr.
  rewrite !replace_all_plus_cls.
  set (s5 := squeeze CSpace (lit "-") false s4).
  assert (H5 : forallb slug_char s5 = true).
  { assert (Ha : forallb (in_class slugKeep) s5 = true)
      by (apply squeeze_forallb; [reflexivity | exact H4]).
    assert (Hb : none_of is_ws s5 = true)
      by (apply (squeeze_none CSpace); reflexivity).
    clear -Ha Hb. induction s5 as [|c u IH]; [reflexivity|].
    simpl in *. apply andb_true_iff in Ha as [Ha1 Ha2].
    apply andb_true_iff in Hb as [Hb1 Hb2]. apply negb_true_iff in Hb1.
    now rewrite (kept_not_ws_slug c Ha1 Hb1), IH. }
  set (s6 := squeeze (CChar "-") (lit "-") false s5).
  assert (H6 : forallb slug_char s6 = true)
    by (apply squeeze_forallb; [reflexivity | exact H5]).
  rewrite trim_none.
  - unfold slug_ok. rewrite H6. apply squeeze_hyphens.
  - revert H6. apply forallb_impl. intros c Hc.
    now rewrite (slug_char_not_ws c Hc).
Qed.

(** A slug goes through these steps unchanged. *)
Lemma slugTail_id (s : str) : slug_ok s = true -> slugTail s = s.
Proof.
  unfold slug_ok. intro H. apply andb_true_iff in H as [Hc Hh].
  unfold slugTail, toLowerCase.
  rewrite (map_id_on lower_char slug_char s slug_char_lower Hc).
  rewrite (replace_all_needs (Ascii.eqb "_") false underscoreRegex hyphen s)
    by (reflexivity || (apply slug_none_of; [reflexivity | exact Hc])).
  rewrite (replace_all_needs (in_class (CNot slugKeep)) false specialRegex [] s).
  2: vm_compute; reflexivity.
  2: { revert Hc. apply forallb_impl. intros c Hcc.
       now rewrite (slug_char_kept c Hcc). }
  unfold spacesRegex, hyphensRegex, hyphen, Chr.
  rewrite !replace_all_plus_cls.
  rewrite (squeeze_id CSpace).
  2: { revert Hc. apply forallb_impl. intros c Hcc.
       change (in_class CSpace c) with (is_ws c).
       now rewrite (slug_char_not_ws c Hcc). }
  rewrite (squeeze_hyphens_id s Hh).
  apply trim_none. revert Hc. apply forallb_impl. intros c Hcc.
  now rewrite (slug_char_not_ws c Hcc).
Qed.

(* ----------------------------------------------------------------- *)
(** ** filenameToSlug: the extension *)

(** The characters an extension is made of, after its dot. *)
Definition extClass : cclass := CNot (COneOf [CChar "/"; CChar "."]).

Lemma extensionRegex_needs : needs is_dot extensionRegex = true.
Proof. vm_compute. reflexivity. Qed.

Lemma extensionRegex_starts : starts is_dot extensionRegex = true.
Proof. vm_compute. reflexivity. Qed.

(** What the extension pattern matches: a dot, then one or more characters
    that are neither a slash nor a dot, up to the end of the text. *)
Lemma extensionRegex_lang (p : option ascii) (w t : str) :
  lang false extensionRegex p w t ->
  t = [] /\ exists a e, w = "."%char :: a :: e
                        /\ forallb (in_class extClass) (a :: e) = true.
Proof.
  unfold extensionRegex. cbn [Seqs]. unfold Plus, Chr. cbn [lang].
  intros (w1 & w2 & -> & (d & -> & Hd) & w3 & w4 & -> &
          (w5 & w6 & -> & (a & -> & Ha) & Hi) & -> & He).
  change (Ascii.eqb "." d = true) in Hd. apply Ascii.eqb_eq in Hd. subst d.
  apply (iter_cls false) in Hi. split.
  - unfold at_eol in He. simpl in He. now destruct t.
  - exists a, w6. split; [now rewrite !app_nil_r|].
    cbn [forallb]. fold extClass in Ha, Hi. now rewrite Ha, Hi.
Qed.

Lemma extensionRegex_at (p : option ascii) (a : ascii) (e : str) :
  forallb (in_class extClass) (a :: e) = true ->
  exists m,
    exec_at false extensionRegex (start_state p ("."%char :: a :: e)) = Some m
    /\ rest m = [].
Proof.
  intro H. cbn [forallb] in H. apply andb_true_iff in H as [Ha He].
  unfold exec_at, extensionRegex. cbn [Seqs]. eexists. split.
  - rewrite rmatch_seq, (rmatch_chr false "." _ _ (a :: e)) by reflexivity.
    unfold Plus. rewrite !rmatch_seq.
    rewrite (rmatch_cls false _ _ _ a e) by (reflexivity || exact Ha).
    eapply (rmatch_star_first false _ _ _ e []);
      [simpl; now rewrite app_nil_r | exact He | exact I |].
    rewrite rmatch_eol by reflexivity. unfold finish. reflexivity.
  - reflexivity.
Qed.

(** The file name is what [removeExtension] keeps followed by what it takes
    off, and what it takes off is empty or a dot and a non-empty run without
    slash or dot. *)
Lemma extension_split (filename : str) :
  removeExtension filename ++ extensionOf filename = filename
  /\ (extensionOf filename = []
      \/ exists a e, extensionOf filename = "."%char :: a :: e
                     /\ forallb (in_class extClass) (a :: e) = true).
Proof.
  unfold removeExtension, extensionOf, replace_first, match_first.
  destruct (search false extensionRegex None filename)
    as [[sk [st m]]|] eqn:S.
  - apply search_some in S as (Hs & _ & He).
    apply exec_at_sound in He as (w & Hr & Hl & _ & Hc).
    apply extensionRegex_lang in Hl as (Ht & a & e & Hw & Hcl).
    rewrite Hc, Ht. simpl. rewrite app_nil_r. split.
    + now rewrite Hs, Hr, Ht, app_nil_r.
    + right. exists a, e. now split.
  - split; [apply app_nil_r | now left].
Qed.

(** Taking the extension off a slug followed by an extension gives the slug. *)
Lemma removeExtension_slug (s : str) (a : ascii) (e : str) :
  slug_ok s = true -> forallb (in_class extClass) (a :: e) = true ->
  removeExtension (s ++ "."%char :: a :: e) = s.
Proof.
  unfold slug_ok. intros H He. apply andb_true_iff in H as [Hc _].
  destruct (extensionRegex_at (prev_after None s) a e He) as (m & Hm & Hr).
  unfold removeExtension, replace_first.
  rewrite (search_skip is_dot false extensionRegex extensionRegex_starts
             s None _ m); [| |exact Hm].
  - rewrite Hr. simpl. now rewrite app_nil_r.
  - apply slug_none_of; [reflexivity | exact Hc].
Qed.

Lemma removeExtension_none (s : str) :
  slug_ok s = true -> removeExtension s = s.
Proof.
  unfold slug_ok. intros H. apply andb_true_iff in H as [Hc _].
  unfold removeExtension, replace_first.
  rewrite (search_needs is_dot false extensionRegex None s extensionRegex_needs);
    [reflexivity|].
  apply slug_none_of; [reflexivity | exact Hc].
Qed.

(** C4.  [filenameToSlug] is idempotent: applied to its own result it
    returns that result, and so it does when the extension it took off the
    file name is put back after the result first ([extensionOf] is that
    extension: the file name is what [removeExtension] keeps followed by
    it). *)
Theorem filenameToSlug_idempotent (filename : str) :
  filenameToSlug (filenameToSlug filename) = filenameToSlug filename
  /\ filenameToSlug (filenameToSlug filename ++ extensionOf filename)
     = filenameToSlug filename
  /\ removeExtension filename ++ extensionOf filename = filename.
Proof.
  assert (Hok : slug_ok (filenameToSlug filename) = true)
    by (rewrite filenameToSlug_tail; apply slugTail_ok).
  assert (Hid : filenameToSlug (filenameToSlug filename) = filenameToSlug filename).
  { rewrite (filenameToSlug_tail (filenameToSlug filename)).
    rewrite (removeExtension_none _ Hok). now apply slugTail_id. }
  split; [exact Hid|].
  destruct (extension_split filename) as (Hsplit & Hext).
  split; [|exact Hsplit].
  destruct Hext as [E | (a & e & E & He)]; rewrite E.
  - now rewrite app_nil_r.
  - rewrite (filenameToSlug_tail (_ ++ _)).
    rewrite (removeExtension_slug _ a e Hok He). now apply slugTail_id.
Qed.

Example filenameToSlug_examples :
  filenameToSlug (lit "My Great Article!.md") = lit "my-great-article"
  /\ extensionOf (lit "My Great Article!.md") = lit ".md"
  /\ filenameToSlug (lit "my-great-article.md") = lit "my-great-article"
  /\ filenameToSlug (lit "2023-12-01_article.md") = lit "2023-12-01-article".
Proof. vm_compute. repeat split. Qed.

(* ----------------------------------------------------------------- *)
(** ** getRelativePath without a common base *)

(** A path without backslash is its own normal form. *)
Lemma normalizePath_id (path : str) :
  none_of is_bslash path = true -> normalizePath path = path.
Proof.
  intro H. apply (replace_all_needs is_bslash); [reflexivity | exact H].
Qed.

Lemma syntax_bslash (a : ascii) :
  in_class syntaxChars a = false -> Ascii.eqb a bslash = false.
Proof.
  intro H.
  pose proof (char_fact
                (fun a => implb (Ascii.eqb a bslash) (in_class syntaxChars a))
                a eq_refl) as E.
  cbv beta in E. rewrite H in E. now destruct (Ascii.eqb a bslash).
Qed.

(** The pattern built from an escaped text matches that text literally. *)
Lemma literalPattern_escape (s : str) :
  literalPattern (escapeRegExp s) = Lit s.
Proof.
  unfold escapeRegExp. rewrite replace_all_cls.
  induction s as [|a s IH]; [reflexivity|].
  cbn [flat_map]. destruct (in_class syntaxChars a) eqn:E.
  - change (expand1 [RText [bslash]; RGroup 0] a) with [bslash; a].
    change ([bslash; a] ++ ?x) with (bslash :: a :: x).
    cbn [literalPattern app]. rewrite Ascii.eqb_refl, IH. reflexivity.
  - cbn [literalPattern app]. rewrite (syntax_bslash a E), IH. reflexivity.
Qed.

(** What the pattern of the base folder matches ends with the base folder
    and a slash. *)
Lemma baseRegex_lang (base : str) (p : option ascii) (w t : str) :
  lang false (baseRegex base) p w t -> exists x, w = x ++ base ++ lit "/".
Proof.
  unfold baseRegex. cbn [Seqs]. rewrite literalPattern_escape.
  unfold StarLazy, Chr. cbn [lang].
  intros (w0 & w0' & -> & (-> & _) & w1 & w1' & -> & _ &
          w2 & w3 & -> & Hl & (y & -> & Hy)).
  apply lang_Lit in Hl. subst w2.
  change (Ascii.eqb "/" y = true) in Hy. apply Ascii.eqb_eq in Hy. subst y.
  exists w1. reflexivity.
Qed.

(** C7, as amended.  Without a common base - the normalized path neither
    starts with the normalized base nor holds it followed by a slash -
    [getRelativePath] returns the normalized path: the path with its
    backslashes turned into slashes, which is the path itself when it has
    no backslash. *)
Theorem getRelativePath_fallback (filePath baseFolderName : str) :
  startsWith (normalizePath baseFolderName) (normalizePath filePath) = false ->
  includes (normalizePath baseFolderName ++ lit "/") (normalizePath filePath)
  = false ->
  getRelativePath filePath baseFolderName = normalizePath filePath
  /\ (none_of is_bslash filePath = true ->
      getRelativePath filePath baseFolderName = filePath).
Proof.
  intros Hs Hi.
  assert (H : getRelativePath filePath baseFolderName = normalizePath filePath).
  { unfold getRelativePath. rewrite Hs.
    unfold replace_first. rewrite search_none.
    - now destruct (normalizePath filePath).
    - intros a b E.
      destruct (exec_at false (baseRegex (normalizePath baseFolderName))
                  (start_state (prev_after None a) b)) as [e|] eqn:X;
        [|reflexivity].
      apply exec_at_sound in X as (w & Hr & Hl & _). simpl in Hr.
      apply baseRegex_lang in Hl as (x & ->).
      rewrite E, Hr in Hi.
      replace (a ++ (x ++ normalizePath baseFolderName ++ lit "/") ++ rest e)
        with ((a ++ x) ++ (normalizePath baseFolderName ++ lit "/") ++ rest e)
        in Hi by (now rewrite <- !app_assoc).
      now rewrite includes_mid in Hi. }
  split; [exact H|].
  intro Hb. now rewrite H, normalizePath_id.
Qed.

(** The case of the test suite: a path outside the base folder. *)
Lemma getRelativePath_fallback_witness :
  getRelativePath (lit "/other/articles/post.md") (lit "/content")
  = normalizePath (lit "/other/articles/post.md")
  /\ (none_of is_bslash (lit "/other/articles/post.md") = true ->
      getRelativePath (lit "/other/articles/post.md") (lit "/content")
      = lit "/other/articles/post.md").
Proof.
  apply (getRelativePath_fallback (lit "/other/articles/post.md") (lit "/content"));
    vm_compute; reflexivity.
Defined.

(** A Windows path outside the base folder. *)
Definition windowsPath : str :=
  lit "docs" ++ [bslash] ++ lit "guide" ++ [bslash] ++ lit "intro.md".

(** Against the sentence of the specification: this path has nothing in common with the base
    folder, and what comes back is not the path but the path with every
    backslash replaced by a slash. *)
Lemma getRelativePath_backslashes_replaced :
  startsWith (normalizePath (lit "content")) (normalizePath windowsPath) = false
  /\ includes (normalizePath (lit "content") ++ lit "/") (normalizePath windowsPath)
     = false
  /\ getRelativePath windowsPath (lit "content") = lit "docs/guide/intro.md"
  /\ str_eqb (getRelativePath windowsPath (lit "content")) windowsPath = false.
Proof. vm_compute. repeat split. Qed.

Example getRelativePath_tests :
  getRelativePath (lit "/content/articles/post.md") (lit "/content")
  = lit "articles/post.md"
  /\ getRelativePath (lit "/other/articles/post.md") (lit "/content")
     = lit "/other/articles/post.md"
  /\ getRelativePath (lit "/site/mybase/x.md") (lit "base") = lit "x.md".
Proof. vm_compute. repeat split. Qed.

(* ----------------------------------------------------------------- *)
(** ** normalizePath *)

Definition is_slash : ascii -> bool := Ascii.eqb "/".

(** A backslash becomes a slash, any other character stays. *)
Definition slashed (c : ascii) : ascii := if is_bslash c then "/"%char else c.

Lemma normalizePath_map (path : str) : normalizePath path = map slashed path.
Proof.
  unfold normalizePath, backslashRegex, Chr. rewrite replace_all_cls.
  induction path as [|a s IH]; [reflexivity|].
  cbn [flat_map map]. rewrite IH. unfold slashed, is_bslash.
  cbn [in_class]. now destruct (Ascii.eqb bslash a).
Qed.

Lemma slashed_not_bslash (c : ascii) : is_bslash (slashed c) = false.
Proof.
  unfold slashed. destruct (is_bslash c) eqn:E; [reflexivity | exact E].
Qed.

Lemma normalizePath_app (a b : str) :
  normalizePath (a ++ b) = normalizePath a ++ normalizePath b.
Proof. rewrite !normalizePath_map. apply map_app. Qed.

Lemma normalizePath_clean (path : str) :
  none_of is_bslash (normalizePath path) = true.
Proof.
  rewrite normalizePath_map. induction path as [|a s IH]; [reflexivity|].
  simpl. now rewrite slashed_not_bslash, IH.
Qed.

(** X6.  [normalizePath] replaces each backslash by a slash and nothing else:
    the result has the length of the input and no backslash, a second
    application changes nothing, and the function distributes over the
    concatenation of path pieces. *)
Theorem normalizePath_idempotent (path more : str) :
  normalizePath path = map slashed path
  /\ length (normalizePath path) = length path
  /\ none_of is_bslash (normalizePath path) = true
  /\ normalizePath (normalizePath path) = normalizePath path
  /\ normalizePath (path ++ more) = normalizePath path ++ normalizePath more.
Proof.
  split; [apply normalizePath_map|].
  split; [rewrite normalizePath_map; apply length_map|].
  split; [apply normalizePath_clean|].
  split; [apply normalizePath_id, normalizePath_clean | apply normalizePath_app].
Qed.

(* ----------------------------------------------------------------- *)
(** ** getGitHash *)

Definition is_hex : ascii -> bool := in_class hexClass.
Definition is_underscore : ascii -> bool := Ascii.eqb "_".

Lemma hex_not_underscore (c : ascii) : is_hex c = true -> is_underscore c = false.
Proof.
  intro H.
  pose proof (char_fact (fun c => implb (is_hex c) (negb (is_underscore c)))
                c eq_refl) as E.
  cbv beta in E. rewrite H in E. now apply negb_true_iff in E.
Qed.

(** What the pattern matches: an underscore and a non-empty run of
    characters of [a-f0-9], up to the end of the text. *)
Lemma gitHashRegex_lang (p : option ascii) (w t : str) :
  lang false gitHashRegex p w t ->
  t = [] /\ exists a h, w = "_"%char :: a :: h /\ forallb is_hex (a :: h) = true.
Proof.
  unfold gitHashRegex. cbn [Seqs]. unfold Plus, Chr. cbn [lang].
  intros (w1 & w2 & -> & (d & -> & Hd) & w3 & w4 & -> &
          (w5 & w6 & -> & (a & -> & Ha) & Hi) & -> & He).
  change (Ascii.eqb "_" d = true) in Hd. apply Ascii.eqb_eq in Hd. subst d.
  apply (iter_cls false) in Hi. split.
  - unfold at_eol in He. simpl in He. now destruct t.
  - exists a, w6. split; [now rewrite !app_nil_r|].
    cbn [forallb]. unfold is_hex. now rewrite Ha, Hi.
Qed.

Lemma gitHashRegex_at (p : option ascii) (a : ascii) (h : str) :
  forallb is_hex (a :: h) = true ->
  exists m,
    exec_at false gitHashRegex (start_state p ("_"%char :: a :: h)) = Some m
    /\ cap_opt 1 m = Some (a :: h).
Proof.
  intro H. cbn [forallb] in H. apply andb_true_iff in H as [Ha Hh].
  unfold exec_at, gitHashRegex. cbn [Seqs].
  set (st0 := start_state p _).
  eexists. split.
  - rewrite rmatch_seq, (rmatch_chr false "_" _ st0 (a :: h)) by reflexivity.
    rewrite rmatch_seq, rmatch_grp. unfold Plus. rewrite rmatch_seq.
    rewrite (rmatch_cls false _ _ _ a h) by (reflexivity || exact Ha).
    eapply (rmatch_star_first false _ _ _ h []);
      [simpl; now rewrite app_nil_r | exact Hh | exact I |].
    rewrite (consumed_adv _ (a :: h) []) by (simpl; now rewrite ?app_nil_r).
    rewrite rmatch_eol by reflexivity. unfold finish. reflexivity.
  - reflexivity.
Qed.

(** Two ways to cut a text before a run of characters of one kind, each
    after a character of another kind, are the same. *)
Lemma run_prefix_unique (P : ascii -> bool) :
  forall u v x y a b,
    u ++ x :: a = v ++ y :: b ->
    forallb P u = true -> forallb P v = true -> P x = false -> P y = false ->
    u = v /\ x = y /\ a = b.
Proof.
  induction u as [|c u IH]; intros [|d v] x y a b E Hu Hv Hx Hy; simpl in *.
  - injection E as -> ->. now repeat split.
  - injection E as -> _. apply andb_true_iff in Hv as [Hd _]. congruence.
  - injection E as -> _. apply andb_true_iff in Hu as [Hc _]. congruence.
  - injection E as -> E. apply andb_true_iff in Hu as [_ Hu].
    apply andb_true_iff in Hv as [_ Hv].
    destruct (IH v x y a b E Hu Hv Hx Hy) as (-> & -> & ->). now repeat split.
Qed.

Lemma run_suffix_unique (P : ascii -> bool) (a b h h' : str) (x y : ascii) :
  a ++ x :: h = b ++ y :: h' ->
  forallb P h = true -> forallb P h' = true -> P x = false -> P y = false ->
  a = b /\ x = y /\ h = h'.
Proof.
  intros E Hh Hh' Hx Hy. apply (f_equal (@rev ascii)) in E.
  rewrite !rev_app_distr in E. simpl in E. rewrite <- !app_assoc in E. simpl in E.
  destruct (run_prefix_unique P (rev h) (rev h') x y (rev a) (rev b) E)
    as (E1 & E2 & E3); auto.
  - rewrite forallb_forall in *. intros c Hc. apply Hh. now apply in_rev.
  - rewrite forallb_forall in *. intros c Hc. apply Hh'. now apply in_rev.
  - repeat split; [ | exact E2 | ].
    + rewrite <- (rev_involutive a), <- (rev_involutive b). now f_equal.
    + rewrite <- (rev_involutive h), <- (rev_involutive h'). now f_equal.
Qed.

(** In [pre ++ "_" ++ h], with [h] a non-empty run of [a-f0-9], the first
    match of the pattern is at that underscore. *)
Lemma gitHash_search (p : option ascii) (pre : str) (a : ascii) (h : str) :
  forallb is_hex (a :: h) = true ->
  exists m,
    search false gitHashRegex p (pre ++ "_"%char :: a :: h)
    = Some (pre, (start_state (prev_after p pre) ("_"%char :: a :: h), m))
    /\ cap_opt 1 m = Some (a :: h).
Proof.
  intros Hh.
  destruct (gitHashRegex_at (prev_after p pre) a h Hh) as (m & Hm & Hc).
  exists m. split; [|exact Hc].
  apply search_at; [|exact Hm].
  intros u c v ->.
  destruct (exec_at false gitHashRegex
              (start_state (prev_after p u) (c :: v ++ "_"%char :: a :: h)))
    as [e|] eqn:E; [|reflexivity].
  exfalso. apply exec_at_sound in E as (w & Hr & Hl & _).
  apply gitHashRegex_lang in Hl as (Ht & a' & h' & -> & Hh').
  cbn [rest start_state] in Hr. rewrite Ht, app_nil_r in Hr.
  injection Hr as -> Hr.
  assert (Hin : In "_"%char (a' :: h')).
  { rewrite <- Hr. apply in_or_app. right. now left. }
  rewrite forallb_forall in Hh'. specialize (Hh' _ Hin).
  pose proof (hex_not_underscore _ Hh') as F. discriminate F.
Qed.

(** The text a path ends with after its last character outside [a-f0-9],
    and that character. *)
Definition hexTail (path : str) : str := rev (takeWhile is_hex (rev path)).
Definition beforeHexTail (path : str) : option ascii :=
  hd_error (dropWhile is_hex (rev path)).

(** The hash of a path, read off its end: the non-empty run of [a-f0-9]
    that ends the path, when an underscore stands before it. *)
Definition hashSuffix (path : str) : str :=
  match hexTail path, beforeHexTail path with
  | _ :: _, Some c => if is_underscore c then hexTail path else lit "-"
  | _, _ => lit "-"
  end.

Lemma hexTail_split (path : str) :
  path = rev (dropWhile is_hex (rev path)) ++ hexTail path
  /\ forallb is_hex (hexTail path) = true.
Proof.
  unfold hexTail. split.
  - rewrite <- rev_app_distr, <- takeWhile_dropWhile. now rewrite rev_involutive.
  - pose proof (takeWhile_all is_hex (rev path)) as H.
    rewrite forallb_forall in *. intros c Hc. apply H. now apply in_rev.
Qed.

(** X7.  [getGitHash] returns the run of lower-case hexadecimal digits that
    ends the path when that run is not empty and an underscore stands before
    it, and ["-"] in every other case. *)
Theorem getGitHash_is_hash_suffix (path : str) :
  getGitHash path = hashSuffix path
  /\ (forall pre h, path = pre ++ "_"%char :: h -> h <> [] ->
                    forallb is_hex h = true -> getGitHash path = h).
Proof.
  assert (Hpos : forall pre h, path = pre ++ "_"%char :: h -> h <> [] ->
                               forallb is_hex h = true -> getGitHash path = h).
  { intros pre [|a h] -> Hne Hh; [now elim Hne|].
    destruct (gitHash_search None pre a h Hh) as (m & Hs & Hc).
    unfold getGitHash, match_first. now rewrite Hs, Hc. }
  split; [|exact Hpos].
  destruct (hexTail_split path) as (Hsplit & Hhex).
  unfold hashSuffix, beforeHexTail.
  pose proof (dropWhile_head is_hex (rev path)) as Hhd.
  assert (Hnone :
    (forall pre a h, path = pre ++ "_"%char :: a :: h ->
                     forallb is_hex (a :: h) = true -> False) ->
    getGitHash path = lit "-").
  { intros Hno. unfold getGitHash, match_first.
    destruct (search false gitHashRegex None path) as [[sk [st m]]|] eqn:S;
      [|reflexivity].
    exfalso. apply search_some in S as (Hs & _ & He).
    apply exec_at_sound in He as (w & Hr & Hl & _).
    apply gitHashRegex_lang in Hl as (Ht & a & h & -> & Hh).
    apply (Hno sk a h); [|exact Hh].
    now rewrite Hs, Hr, Ht, app_nil_r. }
  destruct (hexTail path) as [|a h] eqn:Et.
  - (* the path is empty or ends outside a-f0-9 *)
    apply Hnone. intros pre a h E Hh.
    rewrite app_nil_r in Hsplit.
    destruct (dropWhile is_hex (rev path)) as [|c d] eqn:Ed.
    + simpl in Hsplit. rewrite Hsplit in E. now destruct pre.
    + simpl in Hsplit. rewrite E in Hsplit.
      destruct (forallb_last is_hex a h Hh) as (init & z & Ei & Hz).
      rewrite Ei in Hsplit.
      change (pre ++ "_"%char :: init ++ [z])
        with (pre ++ ("_"%char :: init) ++ [z]) in Hsplit.
      rewrite app_assoc in Hsplit.
      apply app_inj_tail in Hsplit as [_ ->]. congruence.
  - destruct (dropWhile is_hex (rev path)) as [|c d] eqn:Ed; cbn [hd_error].
    + (* the whole path is a run of a-f0-9 *)
      apply Hnone. intros pre a' h' E Hh'. simpl in Hsplit.
      rewrite Hsplit in E.
      assert (Hin : In "_"%char (a :: h))
        by (rewrite E; apply in_or_app; right; now left).
      rewrite forallb_forall in Hhex. specialize (Hhex _ Hin).
      pose proof (hex_not_underscore _ Hhex) as F. discriminate F.
    + simpl in Hsplit. rewrite <- app_assoc in Hsplit. simpl in Hsplit.
      destruct (is_underscore c) eqn:Ec.
      * unfold is_underscore in Ec. apply Ascii.eqb_eq in Ec. subst c.
        apply (Hpos (rev d)); [exact Hsplit | discriminate | exact Hhex].
      * apply Hnone. intros pre a' h' E Hh'. rewrite Hsplit in E.
        destruct (run_suffix_unique is_hex (rev d) pre (a :: h) (a' :: h')
                    c "_"%char E Hhex Hh' Hhd eq_refl) as (_ & -> & _).
        discriminate Ec.
Qed.

Lemma getGitHash_is_hash_suffix_witness :
  getGitHash (lit "docs/notes_3fa9c1e") = lit "3fa9c1e".
Proof.
  apply (proj2 (getGitHash_is_hash_suffix (lit "docs/notes_3fa9c1e"))
           (lit "docs/notes") (lit "3fa9c1e"));
    [reflexivity|discriminate|reflexivity].
Defined.

(* ----------------------------------------------------------------- *)
(** ** getFileNameWithoutExtension and getDirectoryPath *)

Definition is_sep (c : ascii) : bool := is_slash c || is_bslash c.

(** X8.  [getFileNameWithoutExtension] works on what follows the last slash,
    and on the whole path when it has no slash, backslashes included: it
    returns that text without its extension.  A path that ends with a slash
    has no file name after it; the text after its last backslash, or the
    whole path, is used then. *)
Theorem getFileNameWithoutExtension_last_segment (dir name : str) :
  none_of is_slash name = true ->
  (name <> [] ->
   getFileNameWithoutExtension (dir ++ "/"%char :: name) = removeExtension name)
  /\ getFileNameWithoutExtension name = removeExtension name
  /\ getFileNameWithoutExtension (dir ++ lit "/")
     = removeExtension (pop (split_char bslash (dir ++ lit "/"))).
Proof.
  intros Hn. unfold getFileNameWithoutExtension, removeExtension.
  repeat split.
  - intros Hne.
    destruct (split_char_last "/" dir name Hn) as [-> _].
    destruct name; [now elim Hne | reflexivity].
  - rewrite (split_char_none "/" name Hn). unfold pop at 1. cbn [last].
    destruct name; [reflexivity | reflexivity].
  - destruct (split_char_last "/" dir [] eq_refl) as [E _].
    unfold lit. cbn [list_ascii_of_string]. now rewrite E.
Qed.

Lemma getFileNameWithoutExtension_last_segment_witness :
  (lit "2023-12-01_article.md" <> [] ->
   getFileNameWithoutExtension (lit "/content" ++ "/"%char :: lit "2023-12-01_article.md")
   = removeExtension (lit "2023-12-01_article.md"))
  /\ getFileNameWithoutExtension (lit "2023-12-01_article.md")
     = removeExtension (lit "2023-12-01_article.md")
  /\ getFileNameWithoutExtension (lit "/content" ++ lit "/")
     = removeExtension (pop (split_char bslash (lit "/content" ++ lit "/"))).
Proof.
  apply (getFileNameWithoutExtension_last_segment
           (lit "/content") (lit "2023-12-01_article.md")).
  reflexivity.
Defined.

(** X9.  [getDirectoryPath] returns what stands before the last separator,
    slash or backslash, with its backslashes turned into slashes, and the
    empty text for a path without separator. *)
Theorem getDirectoryPath_before_last_separator (dir name : str) (sep : ascii) :
  is_sep sep = true ->
  none_of is_sep name = true ->
  getDirectoryPath (dir ++ sep :: name) = normalizePath dir
  /\ getDirectoryPath name = [].
Proof.
  intros Hsep Hn. unfold getDirectoryPath.
  change (replace_all false backslashRegex [RText (lit "/")])
    with normalizePath.
  assert (Hn' : none_of is_slash (normalizePath name) = true).
  { rewrite normalizePath_map. clear -Hn.
    induction name as [|a s IH]; [reflexivity|].
    simpl in *. apply andb_true_iff in Hn as [Ha Hs].
    rewrite (IH Hs), andb_true_r.
    unfold is_sep in Ha. apply negb_true_iff, orb_false_iff in Ha as [H1 H2].
    unfold slashed. now rewrite H2, H1. }
  split.
  - rewrite (normalizePath_app dir (sep :: name)).
    change (sep :: name) with ([sep] ++ name).
    rewrite (normalizePath_app [sep] name).
    assert (E : normalizePath [sep] = lit "/").
    { rewrite normalizePath_map. cbn [map]. unfold slashed.
      unfold is_sep in Hsep.
      destruct (is_bslash sep); [reflexivity|].
      rewrite orb_false_r in Hsep. unfold is_slash in Hsep.
      apply Ascii.eqb_eq in Hsep. now subst sep. }
    rewrite E.
    change (lit "/" ++ normalizePath name) with ("/"%char :: normalizePath name).
    destruct (split_char_last "/" (normalizePath dir) (normalizePath name) Hn')
      as [_ ->].
    apply join_split_char.
  - now rewrite (split_char_none "/" _ Hn').
Qed.

Lemma getDirectoryPath_before_last_separator_witness :
  getDirectoryPath (lit "C:" ++ [bslash] ++ lit "docs" ++ bslash :: lit "post.md")
  = normalizePath (lit "C:" ++ [bslash] ++ lit "docs")
  /\ getDirectoryPath (lit "post.md") = [].
Proof.
  apply (getDirectoryPath_before_last_separator
           (lit "C:" ++ [bslash] ++ lit "docs") (lit "post.md") bslash);
    reflexivity.
Defined.

(* ----------------------------------------------------------------- *)
(** ** isMarkdownFile *)





(* ----------------------------------------------------------------- *)
(** ** filenameToTitle *)

Definition word_before (p : option ascii) : bool :=
  match p with Some c => is_word c | None => false end.

(** The text with the first character of each word in upper case: what the
    replacement of /\b\w/g by its upper case makes of a text. *)
Fixpoint titleCase (p : option ascii) (s : str) : str :=
  match s with
  | [] => []
  | a :: s' =>
      (if is_word a && negb (word_before p) then upper_char a else a)
      :: titleCase (Some a) s'
  end.

Lemma wordStartRegex_at (p : option ascii) (a : ascii) (s : str) :
  exec_at false wordStartRegex (start_state p (a :: s))
  = if is_word a && negb (word_before p)
    then Some (MState (Some a) s [(0, [a])]) else None.
Proof.
  unfold exec_at, wordStartRegex. cbn [Seqs]. rewrite rmatch_seq.
  cbn [rmatch]. unfold at_wordb. cbn [prev rest start_state in_class].
  fold (word_before p).
  destruct (is_word a) eqn:Ea.
  - rewrite xorb_true_r. destruct (word_before p); [reflexivity|].
    cbn [negb andb]. unfold finish.
    now rewrite (consumed_adv _ [a] s).
  - rewrite xorb_false_r. now destruct (word_before p).
Qed.

Lemma replace_word_starts :
  forall f p s,
    length s < f ->
    replace_loop_with false wordStartRegex capitalize f p s = titleCase p s.
Proof.
  induction f as [|f IH]; intros p s Hf; [lia|].
  destruct s as [|a s].
  - cbn [replace_loop_with titleCase].
    unfold exec_at, wordStartRegex. cbn [Seqs]. rewrite rmatch_seq.
    cbn [rmatch]. cbn [rest start_state].
    now destruct (at_wordb (start_state p [])).
  - simpl in Hf. cbn [replace_loop_with titleCase]. rewrite wordStartRegex_at.
    destruct (is_word a && negb (word_before p)).
    + cbn [rest prev].
      replace (length s <? length (a :: s)) with true
        by (symmetry; apply Nat.ltb_lt; simpl; lia).
      rewrite IH by lia. reflexivity.
    + f_equal. apply IH. lia.
Qed.

(** No lower-case letter stands at the start of a word. *)
Fixpoint words_capitalized (p : option ascii) (s : str) : bool :=
  match s with
  | [] => true
  | a :: s' =>
      negb (between 97 122 a && negb (word_before p))
      && words_capitalized (Some a) s'
  end.

Lemma upper_char_word (a : ascii) : is_word (upper_char a) = is_word a.
Proof.
  pose proof (char_fact (fun a => Bool.eqb (is_word (upper_char a)) (is_word a))
                a eq_refl) as E.
  cbv beta in E. now apply eqb_prop in E.
Qed.

Lemma upper_char_not_lower (a : ascii) : between 97 122 (upper_char a) = false.
Proof.
  pose proof (char_fact (fun a => negb (between 97 122 (upper_char a)))
                a eq_refl) as E.
  cbv beta in E. now apply negb_true_iff in E.
Qed.

Lemma lower_is_word (a : ascii) : between 97 122 a = true -> is_word a = true.
Proof.
  intro H.
  pose proof (char_fact (fun a => implb (between 97 122 a) (is_word a))
                a eq_refl) as E.
  cbv beta in E. now rewrite H in E.
Qed.

Lemma ws_not_word (a : ascii) : is_ws a = true -> is_word a = false.
Proof.
  intro H.
  pose proof (char_fact (fun a => implb (is_ws a) (negb (is_word a)))
                a eq_refl) as E.
  cbv beta in E. rewrite H in E. now apply negb_true_iff in E.
Qed.

Lemma titleCase_capitalized :
  forall s p q,
    word_before q = word_before p ->
    words_capitalized q (titleCase p s) = true.
Proof.
  induction s as [|a s IH]; intros p q Hq; [reflexivity|].
  cbn [titleCase words_capitalized]. rewrite Hq.
  apply andb_true_iff. split.
  - destruct (word_before p); [now rewrite andb_false_r|].
    rewrite !andb_true_r.
    destruct (is_word a) eqn:Ea.
    + now rewrite upper_char_not_lower.
    + destruct (between 97 122 a) eqn:El; [|reflexivity].
      apply lower_is_word in El. congruence.
  - apply IH. cbn [word_before].
    destruct (is_word a && negb (word_before p)); [apply upper_char_word|reflexivity].
Qed.

Lemma words_capitalized_before (s : str) (p q : option ascii) :
  word_before p = word_before q ->
  words_capitalized p s = words_capitalized q s.
Proof. intro H. destruct s; [reflexivity|]. simpl. now rewrite H. Qed.

Lemma words_capitalized_trimStart :
  forall s p,
    word_before p = false ->
    words_capitalized p s = true ->
    words_capitalized None (trimStart s) = true.
Proof.
  unfold trimStart.
  induction s as [|a s IH]; intros p Hp H; [reflexivity|].
  cbn [dropWhile]. destruct (is_ws a) eqn:Ea.
  - cbn [words_capitalized] in H. apply andb_true_iff in H as [_ H].
    apply (IH (Some a)); [now apply ws_not_word | exact H].
  - now rewrite (words_capitalized_before _ None p).
Qed.

Lemma words_capitalized_prefix :
  forall x z p,
    words_capitalized p (x ++ z) = true -> words_capitalized p x = true.
Proof.
  induction x as [|a x IH]; intros z p H; [reflexivity|].
  cbn [app words_capitalized] in *. apply andb_true_iff in H as [H1 H2].
  rewrite H1. apply (IH z _ H2).
Qed.

Lemma titleCase_none_of (Q : ascii -> bool) :
  (forall a, Q (upper_char a) = Q a) ->
  forall s p, none_of Q (titleCase p s) = none_of Q s.
Proof.
  intros HQ. induction s as [|a s IH]; intros p; [reflexivity|].
  cbn [titleCase]. unfold none_of in *. cbn [forallb]. rewrite IH.
  destruct (is_word a && negb (word_before p)); [now rewrite HQ | reflexivity].
Qed.


(** Replacing one character by a blank leaves none of it, and brings in no
    character other than the blank. *)
Lemma blanked_none (c : ascii) (Q : ascii -> bool) (s : str) :
  Q " "%char = false ->
  (forall a, Ascii.eqb c a = false -> Q a = true -> False) \/ none_of Q s = true ->
  none_of Q (replace_all false (Chr c) blankText s) = true.
Proof.
  intros Hb H. unfold Chr. rewrite replace_all_cls.
  induction s as [|a s IH]; [reflexivity|].
  cbn [flat_map]. rewrite none_of_app.
  assert (Hs : (forall a, Ascii.eqb c a = false -> Q a = true -> False)
               \/ none_of Q s = true).
  { destruct H as [H | H]; [now left | right].
    simpl in H. now apply andb_true_iff in H as [_ H]. }
  rewrite (IH Hs), andb_true_r. cbn [in_class].
  destruct (Ascii.eqb c a) eqn:E.
  - vm_compute expand1. simpl. now rewrite Hb.
  - simpl. rewrite andb_true_r. apply negb_true_iff.
    destruct H as [H | H].
    + destruct (Q a) eqn:Ea; [exfalso; now apply (H a) | reflexivity].
    + simpl in H. apply andb_true_iff in H as [H _]. now apply negb_true_iff in H.
Qed.

(** The title before the words are capitalized and the ends trimmed. *)
Definition titleWords (filename : str) : str :=
  replace_all false underscoreRegex blankText
    (replace_all false hyphenRegex blankText
    (replace_first false datePrefixRegex []
    (replace_first false extensionRegex [] filename))).

Lemma filenameToTitle_titleCase (filename : str) :
  filenameToTitle filename = trim (titleCase None (titleWords filename)).
Proof.
  unfold filenameToTitle, replace_all_with. fold (titleWords filename).
  now rewrite replace_word_starts by lia.
Qed.

(** X11.  A title made by [filenameToTitle] holds neither hyphen nor
    underscore, no word of it starts with a lower-case letter a-z, and it has
    no white space at either end. *)
Theorem filenameToTitle_words_capitalized (filename : str) :
  none_of is_hyphen (filenameToTitle filename) = true
  /\ none_of is_underscore (filenameToTitle filename) = true
  /\ words_capitalized None (filenameToTitle filename) = true
  /\ trim (filenameToTitle filename) = filenameToTitle filename.
Proof.
  rewrite filenameToTitle_titleCase.
  assert (Hh : none_of is_hyphen (titleWords filename) = true).
  { unfold titleWords, underscoreRegex.
    apply blanked_none; [reflexivity|]. right.
    unfold hyphenRegex. apply blanked_none; [reflexivity|]. left.
    intros a Ha Hq. unfold is_hyphen in Hq. congruence. }
  assert (Hu : none_of is_underscore (titleWords filename) = true).
  { unfold titleWords, underscoreRegex.
    apply blanked_none; [reflexivity|]. left.
    intros a Ha Hq. unfold is_underscore in Hq. congruence. }
  repeat split.
  - apply none_of_trim. rewrite titleCase_none_of; [exact Hh|].
    intro a. unfold is_hyphen.
    pose proof (char_fact (fun a => Bool.eqb (Ascii.eqb "-" (upper_char a))
                                             (Ascii.eqb "-" a)) a eq_refl) as E.
    cbv beta in E. now apply eqb_prop in E.
  - apply none_of_trim. rewrite titleCase_none_of; [exact Hu|].
    intro a. unfold is_underscore.
    pose proof (char_fact (fun a => Bool.eqb (Ascii.eqb "_" (upper_char a))
                                             (Ascii.eqb "_" a)) a eq_refl) as E.
    cbv beta in E. now apply eqb_prop in E.
  - unfold trim.
    destruct (trimEnd_prefix (trimStart (titleCase None (titleWords filename))))
      as (z & E & _).
    apply (words_capitalized_prefix _ z). rewrite <- E.
    apply (words_capitalized_trimStart _ None eq_refl).
    now apply titleCase_capitalized.
  - apply trim_idem.
Qed.

(* ----------------------------------------------------------------- *)
(** ** groupPathsByDirectory *)

(** The key a path is filed under: its directory, or ["root"]. *)
Definition directoryOf (path : str) : str :=
  match getDirectoryPath path with [] => lit "root" | d => d end.

Definition inherited (path : str) : bool :=
  existsb (str_eqb (directoryOf path)) inheritedNames.

(** The paths of a list that are filed under [d], in the order of the list;
    no entry when there is none. *)
Definition filedUnder (d : str) (paths : list str) : option (list str) :=
  match filter (fun p => str_eqb (directoryOf p) d) paths with
  | [] => None
  | l => Some l
  end.

Lemma own_push (d dp p : str) (g : groups) :
  own d (push dp p g)
  = match own d g with
    | Some v => if str_eqb d dp then Some (v ++ [p]) else Some v
    | None => None
    end.
Proof.
  induction g as [|[k v] g IH]; [reflexivity|].
  cbn [push own].
  destruct (str_eqb k dp) eqn:Ekp.
  - apply str_eqb_eq in Ekp. subst k. cbn [own].
    destruct (str_eqb dp d) eqn:Ed.
    + apply str_eqb_eq in Ed. subst d. now rewrite str_eqb_refl.
    + destruct (own d g) as [v'|]; [|reflexivity].
      rewrite str_eqb_neq; [reflexivity|].
      intros ->. now rewrite str_eqb_refl in Ed.
  - cbn [own]. destruct (str_eqb k d) eqn:Ed; [|exact IH].
    apply str_eqb_eq in Ed. subst k. now rewrite Ekp.
Qed.

Lemma own_new (d dp p : str) (g : groups) :
  own d (g ++ [(dp, [p])])
  = match own d g with
    | Some v => Some v
    | None => if str_eqb dp d then Some [p] else None
    end.
Proof.
  induction g as [|[k v] g IH]; [reflexivity|].
  cbn [app own]. now destruct (str_eqb k d).
Qed.

Lemma filedUnder_snoc (d : str) (seen : list str) (p : str) :
  filedUnder d (seen ++ [p])
  = if str_eqb (directoryOf p) d
    then Some (match filedUnder d seen with Some v => v ++ [p] | None => [p] end)
    else filedUnder d seen.
Proof.
  unfold filedUnder. rewrite filter_app. cbn [filter].
  destruct (str_eqb (directoryOf p) d).
  - destruct (filter _ seen); reflexivity.
  - now rewrite app_nil_r.
Qed.

Lemma fold_groupStep_none (paths : list str) :
  fold_left groupStep paths None = None.
Proof. induction paths as [|p l IH]; [reflexivity | exact IH]. Qed.

Lemma groupStep_own (g : groups) (seen : list str) (p : str) :
  (forall d, own d g = filedUnder d seen) ->
  inherited p = false ->
  exists g', groupStep (Some g) p = Some g'
             /\ forall d, own d g' = filedUnder d (seen ++ [p]).
Proof.
  intros Hg Hp. unfold groupStep. fold (directoryOf p).
  unfold inherited in Hp.
  destruct (own (directoryOf p) g) as [v|] eqn:Eo.
  - eexists. split; [reflexivity|]. intros d.
    rewrite own_push, filedUnder_snoc, Hg.
    destruct (str_eqb d (directoryOf p)) eqn:Ed.
    + apply str_eqb_eq in Ed. subst d. rewrite str_eqb_refl.
      rewrite <- Hg, Eo. reflexivity.
    + rewrite (str_eqb_neq (directoryOf p) d).
      * now destruct (filedUnder d seen).
      * intros E. subst d. now rewrite str_eqb_refl in Ed.
  - rewrite Hp. eexists. split; [reflexivity|]. intros d.
    rewrite own_new, filedUnder_snoc, Hg.
    destruct (str_eqb (directoryOf p) d) eqn:Ed.
    + apply str_eqb_eq in Ed. subst d. rewrite <- Hg, Eo. reflexivity.
    + now destruct (filedUnder d seen).
Qed.

Lemma groupStep_raises (g : groups) (seen : list str) (p : str) :
  (forall d, own d g = filedUnder d seen) ->
  existsb inherited seen = false ->
  inherited p = true ->
  groupStep (Some g) p = None.
Proof.
  intros Hg Hs Hp. unfold groupStep. fold (directoryOf p).
  assert (E : own (directoryOf p) g = None).
  { rewrite Hg. unfold filedUnder.
    destruct (filter _ seen) as [|q l] eqn:Ef; [reflexivity|]. exfalso.
    assert (Hq : In q (filter (fun p0 => str_eqb (directoryOf p0) (directoryOf p))
                         seen)) by (rewrite Ef; now left).
    apply filter_In in Hq as [Hin Hd]. apply str_eqb_eq in Hd.
    assert (Hi : inherited q = true) by (unfold inherited; now rewrite Hd).
    assert (Hx : existsb inherited seen = true)
      by (apply existsb_exists; now exists q).
    congruence. }
  rewrite E. unfold inherited in Hp. now rewrite Hp.
Qed.

Lemma fold_groupStep (paths : list str) :
  forall seen g,
    (forall d, own d g = filedUnder d seen) ->
    existsb inherited seen = false ->
    if existsb inherited paths
    then fold_left groupStep paths (Some g) = None
    else exists g', fold_left groupStep paths (Some g) = Some g'
                    /\ forall d, own d g' = filedUnder d (seen ++ paths).
Proof.
  induction paths as [|p l IH]; intros seen g Hg Hs.
  - cbn [existsb fold_left]. exists g. split; [reflexivity|].
    now rewrite app_nil_r.
  - cbn [existsb fold_left]. destruct (inherited p) eqn:Hp; cbn [orb].
    + rewrite (groupStep_raises g seen p Hg Hs Hp). apply fold_groupStep_none.
    + destruct (groupStep_own g seen p Hg Hp) as (g' & -> & Hg').
      assert (Hs' : existsb inherited (seen ++ [p]) = false).
      { rewrite existsb_app, Hs. cbn [existsb orb]. now rewrite Hp. }
      specialize (IH (seen ++ [p]) g' Hg' Hs').
      rewrite <- app_assoc in IH. exact IH.
Qed.

(** X12.  [groupPathsByDirectory] files every path under its directory, or
    under ["root"] when it has none: each key of the result holds the paths
    of that directory, in the order they were given, and a directory without
    path has no key.  When the directory of some path bears a name that
    objects inherit, such as [constructor] or [toString], the call does not
    return: the array to push to is not there, and a [TypeError] is raised. *)
Theorem groupPathsByDirectory_by_directory (paths : list str) :
  (existsb inherited paths = false ->
   exists g, groupPathsByDirectory paths = Some g
             /\ forall d, own d g = filedUnder d paths)
  /\ (existsb inherited paths = true -> groupPathsByDirectory paths = None).
Proof.
  unfold groupPathsByDirectory.
  pose proof (fold_groupStep paths [] [] (fun d => eq_refl) eq_refl) as H.
  split; intros E; rewrite E in H; exact H.
Qed.

Lemma groupPathsByDirectory_by_directory_witness :
  (exists g,
      groupPathsByDirectory [lit "docs/a.md"; lit "b.md"; lit "docs/c.md"]
      = Some g
      /\ forall d, own d g
                   = filedUnder d [lit "docs/a.md"; lit "b.md"; lit "docs/c.md"])
  /\ groupPathsByDirectory [lit "docs/a.md"; lit "constructor/b.md"] = None.
Proof.
  split.
  - apply (proj1 (groupPathsByDirectory_by_directory
                    [lit "docs/a.md"; lit "b.md"; lit "docs/c.md"])).
    reflexivity.
  - apply (proj2 (groupPathsByDirectory_by_directory
                    [lit "docs/a.md"; lit "constructor/b.md"])).
    reflexivity.
Defined.

(* ----------------------------------------------------------------- *)
(** ** filenameToSlug: the characters of a slug *)

(** The steps of [filenameToSlug] before the last one, [trim]. *)
Definition slugSteps (s : str) : str :=
  replace_all false hyphensRegex hyphen
    (replace_all false spacesRegex hyphen
    (replace_all false specialRegex []
    (replace_all false underscoreRegex hyphen
    (toLowerCase s)))).

Lemma slugSteps_chars (s : str) : forallb slug_char (slugSteps s) = true.
Proof.
  unfold slugSteps.
  set (s4 := replace_all false specialRegex [] _).
  assert (H4 : forallb (in_class slugKeep) s4 = true) by apply special_removed.
  unfold spacesRegex, hyphensRegex, hyphen, Chr.
  rewrite !replace_all_plus_cls.
  set (s5 := squeeze CSpace (lit "-") false s4).
  assert (H5 : forallb slug_char s5 = true).
  { assert (Ha : forallb (in_class slugKeep) s5 = true)
      by (apply squeeze_forallb; [reflexivity | exact H4]).
    assert (Hb : none_of is_ws s5 = true)
      by (apply (squeeze_none CSpace); reflexivity).
    clear -Ha Hb. induction s5 as [|c u IH]; [reflexivity|].
    simpl in *. apply andb_true_iff in Ha as [Ha1 Ha2].
    apply andb_true_iff in Hb as [Hb1 Hb2]. apply negb_true_iff in Hb1.
    now rewrite (kept_not_ws_slug c Ha1 Hb1), IH. }
  apply squeeze_forallb; [reflexivity | exact H5].
Qed.

(** The last step changes nothing: no white space is left to trim. *)
Lemma slugTail_steps (s : str) : slugTail s = slugSteps s.
Proof.
  unfold slugTail. fold (slugSteps s). apply trim_none.
  generalize (slugSteps_chars s). apply forallb_impl. intros c Hc.
  now rewrite (slug_char_not_ws c Hc).
Qed.

(** A name that starts with white space keeps its first character when the
    extension is taken off. *)
Lemma removeExtension_head (c : ascii) (name : str) :
  is_ws c = true -> exists x, removeExtension (c :: name) = c :: x.
Proof.
  intro Hc. destruct (extension_split (c :: name)) as (Hs & He).
  destruct (removeExtension (c :: name)) as [|a x] eqn:E.
  - exfalso. cbn [app] in Hs. destruct He as [He|(a & e & He & _)].
    + rewrite He in Hs. discriminate.
    + rewrite He in Hs. injection Hs as <- _. discriminate.
  - cbn [app] in Hs. injection Hs as -> _. now exists x.
Qed.

Lemma slugSteps_head (c : ascii) (x : str) :
  is_ws c = true -> exists t, slugSteps (c :: x) = "-"%char :: t.
Proof.
  intro Hc. unfold slugSteps, toLowerCase. cbn [map].
  assert (Hl : lower_char c = c).
  { pose proof (char_fact (fun c => implb (is_ws c) (Ascii.eqb (lower_char c) c))
                  c eq_refl) as E.
    cbv beta in E. rewrite Hc in E. now apply Ascii.eqb_eq. }
  assert (Hu : in_class (CChar "_") c = false).
  { pose proof (char_fact (fun c => implb (is_ws c) (negb (in_class (CChar "_") c)))
                  c eq_refl) as E.
    cbv beta in E. rewrite Hc in E. now apply negb_true_iff. }
  assert (Hk : in_class (CNot slugKeep) c = false).
  { pose proof (char_fact (fun c => implb (is_ws c)
                                      (negb (in_class (CNot slugKeep) c)))
                  c eq_refl) as E.
    cbv beta in E. rewrite Hc in E. now apply negb_true_iff. }
  rewrite Hl. unfold underscoreRegex, specialRegex, Chr.
  rewrite !replace_all_cls. cbn [flat_map]. rewrite Hu.
  cbn [app flat_map]. rewrite Hk. cbn [app].
  unfold spacesRegex, hyphensRegex, hyphen, Chr.
  rewrite !replace_all_plus_cls. cbn [squeeze].
  change (in_class CSpace c) with (is_ws c). rewrite Hc.
  eexists. reflexivity.
Qed.

(** X13.  A slug holds only the letters a-z, digits and hyphens, and no two
    hyphens in a row.  The [trim] that ends [filenameToSlug] never removes
    anything, the white space having become hyphens before it: a slug may
    start or end with a hyphen, and does start with one when the file name
    starts with white space. *)
Theorem filenameToSlug_characters (filename : str) :
  forallb slug_char (filenameToSlug filename) = true
  /\ single_hyphens (filenameToSlug filename) = true
  /\ filenameToSlug filename = slugSteps (removeExtension filename)
  /\ (forall c name, filename = c :: name -> is_ws c = true ->
        exists t, filenameToSlug filename = "-"%char :: t).
Proof.
  pose proof (slugTail_ok (removeExtension filename)) as H.
  rewrite <- filenameToSlug_tail in H. unfold slug_ok in H.
  apply andb_true_iff in H as [Hc Hh].
  assert (Hs : filenameToSlug filename = slugSteps (removeExtension filename))
    by (rewrite filenameToSlug_tail; apply slugTail_steps).
  repeat split; [exact Hc | exact Hh | exact Hs |].
  intros c name -> Hw. rewrite Hs.
  destruct (removeExtension_head c name Hw) as (x & ->).
  now apply slugSteps_head.
Qed.

Lemma filenameToSlug_characters_witness :
  exists t, filenameToSlug (lit " my file .md") = "-"%char :: t.
Proof.
  apply (proj2 (proj2 (proj2 (filenameToSlug_characters (lit " my file .md"))))
           " "%char (lit "my file .md")); reflexivity.
Defined.

(* ----------------------------------------------------------------- *)
(** ** getRelativePath under the base folder *)

(** A text without one leading slash. *)
Definition withoutLeadingSlash (s : str) : str :=
  match s with
  | c :: s' => if is_slash c then s' else s
  | [] => []
  end.

Lemma leadingSlash_removed (s : str) :
  replace_first false leadingSlashRegex [] s = withoutLeadingSlash s.
Proof.
  unfold replace_first, leadingSlashRegex. cbn [Seqs].
  destruct s as [|c s].
  - reflexivity.
  - unfold withoutLeadingSlash. destruct (is_slash c) eqn:E.
    + unfold is_slash in E. apply Ascii.eqb_eq in E. subst c. reflexivity.
    + rewrite search_bol; [reflexivity|].
      apply (exec_at_starts is_slash); [reflexivity|exact E].
Qed.

(** X14.  When the path, with its backslashes turned into slashes, starts with
    the base folder, likewise normalized, [getRelativePath] returns what
    follows the base, less one leading slash.  The base need not end where a
    segment of the path ends, and a second slash stays. *)
Theorem getRelativePath_under_base (filePath baseFolderName : str) :
  startsWith (normalizePath baseFolderName) (normalizePath filePath) = true ->
  getRelativePath filePath baseFolderName
  = withoutLeadingSlash
      (skipn (length baseFolderName) (normalizePath filePath))
  /\ (forall more,
        getRelativePath (baseFolderName ++ more) baseFolderName
        = withoutLeadingSlash (normalizePath more)).
Proof.
  intro H. split.
  - unfold getRelativePath. cbv zeta. rewrite H.
    rewrite leadingSlash_removed. unfold substring_from.
    now rewrite normalizePath_map, length_map.
  - intro more. unfold getRelativePath. cbv zeta.
    rewrite normalizePath_app, startsWith_app.
    rewrite leadingSlash_removed. unfold substring_from.
    now rewrite skipn_app, skipn_all, Nat.sub_diag.
Qed.

Lemma getRelativePath_under_base_witness :
  getRelativePath (lit "/contentious/x.md") (lit "/content")
  = withoutLeadingSlash
      (skipn (length (lit "/content"))
         (normalizePath (lit "/contentious/x.md")))
  /\ (forall more,
        getRelativePath (lit "/content" ++ more) (lit "/content")
        = withoutLeadingSlash (normalizePath more)).
Proof.
  apply (getRelativePath_under_base (lit "/contentious/x.md") (lit "/content")).
  reflexivity.
Defined.

(* ================================================================= *)
(** * src/dateUtils.ts: properties *)

Import DateUtils.

(* ----------------------------------------------------------------- *)
(** ** getCreationDate *)

(** The labels the specification recognizes. *)
Definition recognizedLabels : list str :=
  map lit ["Date:"; "Created:"; "Created At:"; "Created On:"; "Created Date:";
           "Created Time:"; "**Date:**"]%string.

(** What a line must hold for the pattern of [getCreationDate] to match by
    one of its worded alternatives: one of these texts.  The last one, two
    blanks, is the text of the alternatives that end with a blank. *)
Definition creationTriggers : list str :=
  map lit ["**Date:**"; "**Date**"; "Date:"; "Created:"; "Created At";
           "Created On"; "Created Date"; "Created Time"; "  "]%string.

Definition holds_none (triggers : list str) (content : str) : bool :=
  forallb (fun l => negb (includes l content)) triggers.

Lemma holds_none_spec (triggers : list str) (content l : str) :
  holds_none triggers content = true -> In l triggers ->
  includes l content = false.
Proof.
  unfold holds_none. rewrite forallb_forall. intros H Hl.
  now apply negb_true_iff, H.
Qed.

Ltac some_trigger :=
  first
    [ exists (lit "**Date:**"); split; [simpl; tauto | reflexivity]
    | exists (lit "**Date**"); split; [simpl; tauto | reflexivity]
    | exists (lit "Date:"); split; [simpl; tauto | reflexivity]
    | exists (lit "Created:"); split; [simpl; tauto | reflexivity]
    | exists (lit "Created At"); split; [simpl; tauto | reflexivity]
    | exists (lit "Created On"); split; [simpl; tauto | reflexivity]
    | exists (lit "Created Date"); split; [simpl; tauto | reflexivity]
    | exists (lit "Created Time"); split; [simpl; tauto | reflexivity]
    | exists (lit "  "); split; [simpl; tauto | reflexivity] ].

(** A label alternative followed by the blank of the pattern holds a trigger. *)
Lemma creationLabels_trigger (p : option ascii) (w1 t1 tail : str) :
  lang true (Alts creationLabels) p w1 t1 ->
  exists l, In l creationTriggers /\ includes l (w1 ++ " "%char :: tail) = true.
Proof.
  intro H. apply lang_Alts in H as (r & Hr & H).
  unfold creationLabels in Hr. simpl in Hr.
  repeat (destruct Hr as [<-|Hr]);
    try (apply lang_Lit in H; subst w1; some_trigger);
    try contradiction.
  (* the bold label, with or without its colon *)
  cbn [Seqs] in H. unfold Opt in H. cbn [lang] in H.
  destruct H as (wa & wb & -> & Ha & wc & wd & -> & Hc & Hd).
  unfold L in Ha, Hd.
  apply lang_Lit in Ha. subst wa.
  apply lang_Lit in Hd. subst wd.
  apply iter_chr in Hc. destruct wc as [|c wc].
  - some_trigger.
  - simpl in Hc. injection Hc as -> _. some_trigger.
Qed.

Lemma creationRegex_trigger (p : option ascii) (w t : str) :
  lang true creationRegex p w t ->
  exists l, In l creationTriggers /\ includes l w = true.
Proof.
  unfold creationRegex. cbn [Seqs]. intro H.
  destruct H as (w1 & w2 & -> & H1 & (w3 & w4 & -> & (a & -> & Ha) & _)).
  change (Ascii.eqb " " a = true) in Ha. apply Ascii.eqb_eq in Ha. subst a.
  exact (creationLabels_trigger p w1 _ w4 H1).
Qed.

Section CreationDate.

Variable Date : Type.
Variable getTime : Date -> timeval.
Variable newDate : str -> Date.

(** C6, as amended.  [getCreationDate] returns nothing for a text that holds
    none of the worded labels of its pattern, with or without colon -
    "**Date:**", "**Date**", "Date:", "Created:", "Created At", "Created On",
    "Created Date", "Created Time" - and no two blanks in a row; and it
    returns nothing when the pattern matches and the trimmed remainder of
    the line is not a valid date. *)
Theorem getCreationDate_absent (content : str) :
  holds_none creationTriggers content = true
  \/ (exists m, match_first true creationRegex content = Some m
                /\ isNaN (getTime (newDate (trim (cap 1 m)))) = true) ->
  getCreationDate Date getTime newDate content = None.
Proof.
  intros [H | (m & Hm & Hn)]; unfold getCreationDate.
  - unfold match_first. rewrite search_none; [reflexivity|].
    intros a b ->.
    destruct (exec_at true creationRegex (start_state (prev_after None a) b))
      as [e|] eqn:E; [|reflexivity].
    apply exec_at_sound in E as (w & Hr & Hl & _). simpl in Hr.
    apply creationRegex_trigger in Hl as (l & Hin & Hinc).
    pose proof (holds_none_spec _ _ l H Hin) as Hf.
    rewrite Hr in Hf.
    rewrite (includes_app_r l a _ (includes_app_l l w _ Hinc)) in Hf.
    discriminate.
  - rewrite Hm. unfold parseCaptured. now rewrite Hn.
Qed.

End CreationDate.

(** A text without label, on the host of [DateUtils.Host]. *)
Lemma getCreationDate_absent_witness :
  getCreationDate Host.Date Host.getTime Host.newDate
    (lit "# Test Document" ++ [nl; nl] ++ lit "Some content without date.")
  = None.
Proof.
  apply (getCreationDate_absent Host.Date Host.getTime Host.newDate).
  left. vm_compute. reflexivity.
Defined.

(** A label whose remainder is not a date. *)
Example getCreationDate_unparsed :
  option_map (cap 1) (match_first true creationRegex (lit "Created: soon"))
  = Some (lit "soon")
  /\ Host.getTime (Host.newDate (lit "soon")) = None
  /\ getCreationDate Host.Date Host.getTime Host.newDate (lit "Created: soon")
     = None.
Proof. vm_compute. repeat split. Qed.

(** Against the sentence of the specification: this text holds none of the recognized labels
    (its label has no colon), and a date is returned. *)
Lemma getCreationDate_label_without_colon :
  holds_none recognizedLabels (lit "Created At 2024-01-15") = true
  /\ getCreationDate Host.Date Host.getTime Host.newDate
       (lit "Created At 2024-01-15")
     = Some (Host.MkDate 0 (Some 1705276800000%Z)).
Proof. vm_compute. split; reflexivity. Qed.

(* ----------------------------------------------------------------- *)
(** ** getMostRecentDate *)

(** C9.  When [createdAt] and [updatedAt] are both present and carry the same
    time value, [getMostRecentDate] returns the [createdAt] object; and for
    any other [updatedAt] object, that object is returned only when its time
    value is strictly later than that of [createdAt]. *)
Theorem getMostRecentDate_tie_returns_createdAt
  (Date : Type) (getTime : Date -> timeval) (createdAt updatedAt : Date) (t : Z) :
  getTime createdAt = Some t ->
  getTime updatedAt = Some t ->
  getMostRecentDate Date getTime (Some createdAt) (Some updatedAt) = Some createdAt
  /\ (forall other : Date,
        getMostRecentDate Date getTime (Some createdAt) (Some other) = Some other ->
        other = createdAt
        \/ exists t', getTime other = Some t' /\ (t < t')%Z).
Proof.
  intros Hc Hu. split.
  - simpl. rewrite Hc, Hu. simpl. now rewrite Z.ltb_irrefl.
  - intros other. simpl. rewrite Hc.
    destruct (getTime other) as [t'|] eqn:Ho; simpl.
    + destruct (t <? t')%Z eqn:E.
      * intros _. right. exists t'. split; [reflexivity | now apply Z.ltb_lt].
      * intros [= ->]. now left.
    + intros [= ->]. now left.
Qed.

(** Two distinct date objects with the same time value. *)
Lemma getMostRecentDate_tie_witness :
  getMostRecentDate Host.Date Host.getTime
    (Some (Host.MkDate 1 (Some 1733529600000%Z)))
    (Some (Host.MkDate 2 (Some 1733529600000%Z)))
  = Some (Host.MkDate 1 (Some 1733529600000%Z))
  /\ (forall other : Host.Date,
        getMostRecentDate Host.Date Host.getTime
          (Some (Host.MkDate 1 (Some 1733529600000%Z))) (Some other) = Some other ->
        other = Host.MkDate 1 (Some 1733529600000%Z)
        \/ exists t', Host.getTime other = Some t' /\ (1733529600000 < t')%Z).
Proof.
  apply (getMostRecentDate_tie_returns_createdAt Host.Date Host.getTime
           (Host.MkDate 1 (Some 1733529600000%Z))
           (Host.MkDate 2 (Some 1733529600000%Z)) 1733529600000%Z);
    reflexivity.
Defined.

(* ----------------------------------------------------------------- *)
(** ** getUpdateDate *)

(** What a text must hold for the pattern of [getUpdateDate] to match: one
    of its words followed by a colon or by the two stars that close a bold
    label. *)
Definition updateTriggers : list str :=
  map lit ["Updated:"; "Modified:"; "Changed:";
           "Updated**"; "Modified**"; "Changed**"]%string.

Ltac some_update_trigger :=
  first
    [ exists (lit "Updated:"); split; [simpl; tauto | reflexivity]
    | exists (lit "Modified:"); split; [simpl; tauto | reflexivity]
    | exists (lit "Changed:"); split; [simpl; tauto | reflexivity]
    | exists (lit "Updated**"); split; [simpl; tauto | reflexivity]
    | exists (lit "Modified**"); split; [simpl; tauto | reflexivity]
    | exists (lit "Changed**"); split; [simpl; tauto | reflexivity] ].

Lemma updateWords_lang (p : option ascii) (w t : str) :
  lang true updateWords p w t ->
  In w (map lit ["Updated"; "Modified"; "Changed"; "Last Changed"]%string).
Proof.
  intro H. unfold updateWords in H. apply lang_Alts in H as (r & Hr & H).
  simpl in Hr.
  repeat (destruct Hr as [<-|Hr]); try contradiction;
    apply lang_Lit in H; subst w; simpl; tauto.
Qed.

Lemma updateRegex_trigger (p : option ascii) (w t : str) :
  lang true updateRegex p w t ->
  exists l, In l updateTriggers /\ includes l w = true.
Proof.
  unfold updateRegex. cbn [Seqs]. intro H.
  destruct H as (w1 & w2 & -> & H1 & _).
  assert (E : exists l, In l updateTriggers /\ includes l w1 = true).
  { destruct H1 as [H1 | H1].
    - (* the bold label, with or without its colon *)
      unfold Opt in H1. cbn [lang] in H1.
      destruct H1 as (wa & wb & -> & Ha & wc & wd & -> & Hc & we & wf & -> &
                      He & Hf).
      unfold L in Ha, Hf. apply lang_Lit in Ha. subst wa.
      apply lang_Lit in Hf. subst wf.
      apply updateWords_lang in Hc. apply iter_chr in He.
      simpl in Hc.
      destruct we as [|c [|c' we]].
      + repeat (destruct Hc as [<-|Hc]); try contradiction; some_update_trigger.
      + simpl in He. injection He as ->.
        repeat (destruct Hc as [<-|Hc]); try contradiction; some_update_trigger.
      + simpl in He. injection He as -> -> _.
        repeat (destruct Hc as [<-|Hc]); try contradiction; some_update_trigger.
    - cbn [lang] in H1.
      destruct H1 as (wa & wb & -> & Ha & (c & -> & Hc)).
      change (Ascii.eqb ":" c = true) in Hc. apply Ascii.eqb_eq in Hc. subst c.
      apply updateWords_lang in Ha. simpl in Ha.
      repeat (destruct Ha as [<-|Ha]); try contradiction; some_update_trigger. }
  destruct E as (l & Hl & Hi). exists l. split; [exact Hl|].
  now apply includes_app_l.
Qed.

(** A text that is empty or starts with a line terminator. *)
Definition at_line_end (s : str) : bool :=
  match s with [] => true | c :: _ => is_lt c end.

Definition dateTail : regex :=
  Seqs [Chr " "; Grp 1 (PlusLazy (Cls CDot)); Alt (Chr nl) Eol].

(** After a label: a blank, then the rest of the line as group 1. *)
Lemma dateTail_at (k0 : mstate) (st : mstate) (a : ascii) (d tail : str) :
  rest st = " "%char :: (a :: d) ++ tail ->
  forallb in_line (a :: d) = true ->
  at_line_end tail = true ->
  exists e, rmatch true dateTail (finish k0) st = Some e /\ cap 1 e = a :: d.
Proof.
  intros Hr Hd Ht. unfold dateTail. cbn [Seqs].
  rewrite rmatch_seq, (rmatch_chr true " " _ st ((a :: d) ++ tail) Hr).
  rewrite rmatch_seq, rmatch_grp.
  assert (Hend : exists e,
             (fun st' => rmatch true (Alt (Chr nl) Eol) (finish k0)
                           (set_cap 1 (consumed (adv st [" "%char] ((a :: d) ++ tail)) st') st'))
               (adv (adv st [" "%char] ((a :: d) ++ tail)) (a :: d) tail) = Some e
             /\ cap 1 e = a :: d).
  { cbv beta. rewrite (consumed_adv _ (a :: d) tail) by reflexivity.
    rewrite rmatch_alt, rmatch_chr_cases. cbn [rest set_cap adv].
    destruct tail as [|c tail].
    - cbn [orelse]. rewrite rmatch_eol by reflexivity.
      eexists. split; reflexivity.
    - destruct (Ascii.eqb nl c).
      + eexists. split; reflexivity.
      + cbn [orelse]. rewrite rmatch_eol by (unfold at_eol; simpl; exact Ht).
        eexists. split; reflexivity. }
  destruct Hend as (e & He & Hc). exists e. split; [|exact Hc].
  eapply (rmatch_pluslazy_first true CDot _ _ a d tail);
    [reflexivity | exact Hd | | exact He].
  intros w1 b w2 E. cbv beta.
  assert (Hb : is_lt b = false).
  { cbn [forallb] in Hd. apply andb_true_iff in Hd as [_ Hd].
    rewrite forallb_forall in Hd. apply negb_true_iff. apply Hd.
    rewrite E. apply in_or_app. right. now left. }
  rewrite rmatch_alt, rmatch_chr_cases. cbn [rest set_cap adv].
  assert (En : Ascii.eqb nl b = false).
  { destruct (Ascii.eqb nl b) eqn:En; [|reflexivity].
    apply Ascii.eqb_eq in En. subst b. discriminate Hb. }
  rewrite En. cbn [orelse rmatch]. unfold at_eol. cbn [rest set_cap adv].
  now rewrite Hb.
Qed.

(** The labels of [getUpdateDate]: one of the four wordings with a colon, or
    in bold with or without the colon. *)
Definition updateWording : list str :=
  map lit ["Updated"; "Modified"; "Changed"; "Last Changed"]%string.

Definition updateLabels : list str :=
  flat_map (fun w => [w ++ lit ":"; lit "**" ++ w ++ lit ":**";
                      lit "**" ++ w ++ lit "**"]) updateWording.

Lemma updateWords_at (w : str) (k : cont) (st : mstate) (t : str) (res : mstate) :
  In w updateWording ->
  rest st = w ++ t -> k (adv st w t) = Some res ->
  rmatch true updateWords k st = Some res.
Proof.
  intros Hw Hr Hk. unfold updateWords. cbn [Alts]. unfold L.
  unfold updateWording in Hw. cbn [map In] in Hw.
  destruct Hw as [<- | [<- | [<- | [<- | []]]]].
  - rewrite rmatch_alt, (rmatch_lit true k _ st t Hr), Hk. reflexivity.
  - rewrite rmatch_alt, (rmatch_lit_miss true k (lit "Updated") st)
      by (rewrite Hr; reflexivity).
    cbn [orelse].
    rewrite rmatch_alt, (rmatch_lit true k _ st t Hr), Hk. reflexivity.
  - rewrite rmatch_alt, (rmatch_lit_miss true k (lit "Updated") st)
      by (rewrite Hr; reflexivity).
    cbn [orelse].
    rewrite rmatch_alt, (rmatch_lit_miss true k (lit "Modified") st)
      by (rewrite Hr; reflexivity).
    cbn [orelse].
    rewrite rmatch_alt, (rmatch_lit true k _ st t Hr), Hk. reflexivity.
  - rewrite rmatch_alt, (rmatch_lit_miss true k (lit "Updated") st)
      by (rewrite Hr; reflexivity).
    cbn [orelse].
    rewrite rmatch_alt, (rmatch_lit_miss true k (lit "Modified") st)
      by (rewrite Hr; reflexivity).
    cbn [orelse].
    rewrite rmatch_alt, (rmatch_lit_miss true k (lit "Changed") st)
      by (rewrite Hr; reflexivity).
    cbn [orelse].
    now rewrite (rmatch_lit true k _ st t Hr).
Qed.

Definition updateLabelRegex : regex :=
  Alt (Seqs [L "**"; updateWords; Opt (Chr ":"); L "**"])
      (Seqs [updateWords; Chr ":"]).

Lemma updateLabel_at (l : str) (k : cont) (st : mstate) (t : str) (res : mstate) :
  In l updateLabels ->
  rest st = l ++ t -> k (adv st l t) = Some res ->
  rmatch true updateLabelRegex k st = Some res.
Proof.
  intros Hl Hr Hk. unfold updateLabels in Hl. apply in_flat_map in Hl.
  destruct Hl as (w & Hw & Hl). unfold updateLabelRegex. rewrite rmatch_alt.
  destruct Hl as [<- | [<- | [<- | []]]].
  - (* the word and a colon *)
    assert (E1 : rmatch true (Seqs [L "**"; updateWords; Opt (Chr ":"); L "**"])
                   k st = None).
    { cbn [Seqs]. rewrite rmatch_seq. unfold L. apply rmatch_lit_miss.
      rewrite Hr. unfold updateWording in Hw. cbn [map In] in Hw.
      destruct Hw as [<- | [<- | [<- | [<- | []]]]]; reflexivity. }
    rewrite E1. cbn [orelse Seqs]. rewrite rmatch_seq.
    rewrite <- app_assoc in Hr.
    apply (updateWords_at w _ st (lit ":" ++ t) res Hw Hr).
    rewrite (rmatch_chr true ":" _ _ t) by reflexivity.
    now rewrite adv_app.
  - (* bold, with the colon *)
    cbn [Seqs]. rewrite rmatch_seq. unfold L at 1.
    rewrite <- !app_assoc in Hr.
    rewrite (rmatch_lit true _ (lit "**") st _ Hr).
    assert (Hin : rmatch true updateWords
                    (rmatch true (Seq (Opt (Chr ":")) (L "**")) k)
                    (adv st (lit "**") (w ++ lit ":**" ++ t)) = Some res).
    { apply (updateWords_at w _ _ (lit ":**" ++ t) res Hw); [reflexivity|].
      rewrite rmatch_seq. apply rmatch_opt_take.
      rewrite (rmatch_chr true ":" _ _ (lit "**" ++ t)) by reflexivity.
      cbn [rest adv].
      replace (length (lit "**" ++ t) <? length (lit ":**" ++ t)) with true
        by (symmetry; apply Nat.ltb_lt; simpl; lia).
      unfold L. rewrite (rmatch_lit true _ (lit "**") _ t) by reflexivity.
      rewrite !adv_app. exact Hk. }
    rewrite rmatch_seq. now rewrite Hin.
  - (* bold, without the colon *)
    cbn [Seqs]. rewrite rmatch_seq. unfold L at 1.
    rewrite <- !app_assoc in Hr.
    rewrite (rmatch_lit true _ (lit "**") st _ Hr).
    assert (Hin : rmatch true updateWords
                    (rmatch true (Seq (Opt (Chr ":")) (L "**")) k)
                    (adv st (lit "**") (w ++ lit "**" ++ t)) = Some res).
    { apply (updateWords_at w _ _ (lit "**" ++ t) res Hw); [reflexivity|].
      rewrite rmatch_seq, rmatch_opt_skip
        by (intros k'; now rewrite rmatch_chr_cases).
      unfold L. rewrite (rmatch_lit true _ (lit "**") _ t) by reflexivity.
      rewrite !adv_app. exact Hk. }
    rewrite rmatch_seq. now rewrite Hin.
Qed.

(** The characters a match of the pattern can start with. *)
Definition update_start (c : ascii) : bool :=
  in_class (COneOf (map CChar (lit "*UMCL"))) c.

Lemma updateRegex_starts : starts update_start updateRegex = true.
Proof. vm_compute. reflexivity. Qed.

Lemma updateRegex_at (p : option ascii) (l : str) (a : ascii) (d tail : str) :
  In l updateLabels ->
  forallb in_line (a :: d) = true ->
  at_line_end tail = true ->
  exists e,
    exec_at true updateRegex
      (start_state p (l ++ " "%char :: (a :: d) ++ tail)) = Some e
    /\ cap 1 e = a :: d.
Proof.
  intros Hl Hd Ht. unfold exec_at.
  set (st0 := start_state p _).
  destruct (dateTail_at st0 (adv st0 l (" "%char :: (a :: d) ++ tail)) a d tail
              eq_refl Hd Ht) as (e & He & Hc).
  exists e. split; [|exact Hc].
  change (rmatch true updateLabelRegex (rmatch true dateTail (finish st0)) st0
          = Some e).
  now apply (updateLabel_at l _ st0 (" "%char :: (a :: d) ++ tail) e Hl).
Qed.

Section UpdateDate.

Variable Date : Type.
Variable getTime : Date -> timeval.
Variable newDate : str -> Date.

(** X15.  [getUpdateDate] returns nothing for a text that holds none of the
    words Updated, Modified and Changed followed by a colon or by the two
    stars that close a bold label: unlike the creation labels, a label
    without colon counts only in bold. *)
Theorem getUpdateDate_without_label (content : str) :
  holds_none updateTriggers content = true ->
  getUpdateDate Date getTime newDate content = None.
Proof.
  intros H. unfold getUpdateDate, match_first.
  rewrite search_none; [reflexivity|].
  intros a b ->.
  destruct (exec_at true updateRegex (start_state (prev_after None a) b))
    as [e|] eqn:E; [|reflexivity].
  apply exec_at_sound in E as (w & Hr & Hl & _). simpl in Hr.
  apply updateRegex_trigger in Hl as (l & Hin & Hinc).
  pose proof (holds_none_spec _ _ l H Hin) as Hf.
  rewrite Hr in Hf.
  rewrite (includes_app_r l a _ (includes_app_l l w _ Hinc)) in Hf.
  discriminate.
Qed.

(** X16.  When no character that can start a label (a star or one of U, M, C,
    L) stands before a label followed by a blank and a non-empty rest of
    line, [getUpdateDate] builds the date from that rest of line, trimmed,
    and returns it unless its time value is NaN. *)
Theorem getUpdateDate_first_label (pre l : str) (a : ascii) (d tail : str) :
  none_of update_start pre = true ->
  In l updateLabels ->
  forallb in_line (a :: d) = true ->
  at_line_end tail = true ->
  getUpdateDate Date getTime newDate (pre ++ l ++ " "%char :: (a :: d) ++ tail)
  = if isNaN (getTime (newDate (trim (a :: d)))) then None
    else Some (newDate (trim (a :: d))).
Proof.
  intros Hpre Hl Hd Ht. unfold getUpdateDate, match_first.
  destruct (updateRegex_at (prev_after None pre) l a d tail Hl Hd Ht)
    as (e & He & Hc).
  rewrite (search_skip update_start true updateRegex updateRegex_starts
             pre None _ e Hpre He).
  unfold parseCaptured. now rewrite Hc.
Qed.

End UpdateDate.

Lemma getUpdateDate_without_label_witness :
  getUpdateDate Host.Date Host.getTime Host.newDate
    (lit "# Notes" ++ [nl] ++ lit "Updated 2024-12-08")
  = None.
Proof.
  apply (getUpdateDate_without_label Host.Date Host.getTime Host.newDate).
  vm_compute. reflexivity.
Defined.

Lemma getUpdateDate_first_label_witness :
  getUpdateDate Host.Date Host.getTime Host.newDate
    (lit "# Notes" ++ [nl] ++ lit "**Modified:**" ++ " "%char
       :: ("2"%char :: lit "024-12-08 ") ++ nl :: lit "text")
  = if isNaN (Host.getTime (Host.newDate (trim ("2"%char :: lit "024-12-08 "))))
    then None
    else Some (Host.newDate (trim ("2"%char :: lit "024-12-08 "))).
Proof.
  apply (getUpdateDate_first_label Host.Date Host.getTime Host.newDate
           (lit "# Notes" ++ [nl]) (lit "**Modified:**") "2" (lit "024-12-08 ")
           (nl :: lit "text"));
    [reflexivity | simpl; tauto | reflexivity | reflexivity].
Defined.

(* ----------------------------------------------------------------- *)
(** ** getUpdatedTimeFromPath *)

Lemma pathStampRegex_same : pathStampRegex = gitHashRegex.
Proof. reflexivity. Qed.

(** The first match of the hash pattern in a path carries a hash that is
    not empty and made of [a-f0-9]. *)
Lemma gitHash_match (path : str) (m : mstate) :
  match_first false gitHashRegex path = Some m ->
  exists a h, cap_opt 1 m = Some (a :: h) /\ is_hex a = true.
Proof.
  unfold match_first.
  destruct (search false gitHashRegex None path) as [[sk [st m']]|] eqn:S;
    [|discriminate].
  intros E. injection E as ->.
  pose proof S as S'.
  apply search_some in S' as (Hs & _ & He).
  apply exec_at_sound in He as (w & Hr & Hl & _).
  apply gitHashRegex_lang in Hl as (Ht & a & h & -> & Hh).
  rewrite Ht, app_nil_r in Hr. rewrite Hr in Hs.
  destruct (gitHash_search None sk a h Hh) as (m2 & S2 & Hc).
  rewrite <- Hs, S in S2. injection S2 as _ <-.
  exists a, h. split; [exact Hc|].
  cbn [forallb] in Hh. now apply andb_true_iff in Hh as [Ha _].
Qed.

Section UpdatedTimeFromPath.

Variable Date : Type.
Variable newDate : str -> Date.

(** X17.  [getUpdatedTimeFromPath] and [getGitHash] read the same part of a
    path: the first returns nothing exactly when the second returns ["-"],
    and otherwise the date built from the hash the second returns, with no
    check that this date is valid. *)
Theorem getUpdatedTimeFromPath_of_git_hash (path : str) :
  getUpdatedTimeFromPath Date newDate path
  = if str_eqb (getGitHash path) (lit "-") then None
    else Some (newDate (getGitHash path)).
Proof.
  unfold getUpdatedTimeFromPath, getGitHash. rewrite pathStampRegex_same.
  destruct (match_first false gitHashRegex path) as [m|] eqn:E;
    [|reflexivity].
  destruct (gitHash_match path m E) as (a & h & Hc & Ha).
  unfold cap. rewrite Hc.
  rewrite str_eqb_neq; [reflexivity|].
  intros F. injection F as -> _. discriminate Ha.
Qed.

End UpdatedTimeFromPath.

(* ----------------------------------------------------------------- *)
(** ** getUpdatedTimeFromContent *)

Lemma dark_in_line (a : ascii) : is_ws a = false -> in_line a = true.
Proof.
  intro H.
  pose proof (char_fact (fun a => implb (negb (is_ws a)) (in_line a)) a eq_refl)
    as E.
  cbv beta in E. now rewrite H in E.
Qed.

Lemma updatedLineRegex_at (p : option ascii) (lab sp : str) (a : ascii) (d : str) :
  toLowerCase lab = lit "updated:" ->
  forallb is_ws sp = true -> is_ws a = false ->
  exists e,
    exec_at false updatedLineRegex (start_state p (lab ++ sp ++ a :: d)) = Some e
    /\ cap 1 e = a :: takeWhile in_line d.
Proof.
  intros Hlab Hsp Ha. unfold exec_at, updatedLineRegex. cbn [Seqs].
  set (st0 := start_state p _).
  eexists. split.
  - rewrite rmatch_seq. unfold LI.
    rewrite (rmatch_LitI false _ (lit "updated:") lab st0 (sp ++ a :: d));
      [| reflexivity | exact Hlab | reflexivity].
    rewrite rmatch_seq.
    eapply (rmatch_star_first false CSpace _ _ sp (a :: d));
      [reflexivity | exact Hsp | exact Ha |].
    rewrite rmatch_grp. unfold Plus. rewrite rmatch_seq.
    rewrite (rmatch_cls false CDot _ _ a d)
      by (reflexivity || exact (dark_in_line a Ha)).
    eapply (rmatch_star_first false CDot _ _ (takeWhile in_line d)
              (dropWhile in_line d));
      [apply takeWhile_dropWhile | apply (takeWhile_all (in_class CDot))
      | apply (dropWhile_stops CDot) |].
    rewrite (consumed_adv _ (a :: takeWhile in_line d) (dropWhile in_line d));
      [| simpl; f_equal; apply takeWhile_dropWhile | reflexivity].
    unfold finish. reflexivity.
  - reflexivity.
Qed.

Section UpdatedTimeFromContent.

Variable Date : Type.
Variable newDate : str -> Date.

(** X18.  [getUpdatedTimeFromContent] reads the first of the lines, as cut at
    line feeds, that starts with [updated:] in any case: it skips the white
    space after the label and builds the date from what follows up to the
    end of the line, not trimmed at its end, and returns it without a check
    that it is valid. *)
Theorem getUpdatedTimeFromContent_first_update_line
  (content lab sp : str) (a : ascii) (d : str) :
  find isUpdateLine (split_char nl content) = Some (lab ++ sp ++ a :: d) ->
  toLowerCase lab = lit "updated:" ->
  forallb is_ws sp = true -> is_ws a = false ->
  getUpdatedTimeFromContent Date newDate content
  = Some (newDate (a :: takeWhile in_line d)).
Proof.
  unfold getUpdatedTimeFromContent.
  intros -> Hlab Hsp Ha.
  destruct (updatedLineRegex_at None lab sp a d Hlab Hsp Ha) as (e & He & Hc).
  unfold match_first.
  change (lab ++ sp ++ a :: d) with ([] ++ lab ++ sp ++ a :: d) at 1.
  rewrite (search_at false updatedLineRegex [] None (lab ++ sp ++ a :: d) e);
    [now rewrite Hc | | exact He].
  intros u c v E. now destruct u.
Qed.

End UpdatedTimeFromContent.

(** The first update line decides, and a text that is no date is passed on:
    the date returned is invalid. *)
Lemma getUpdatedTimeFromContent_first_update_line_witness :
  getUpdatedTimeFromContent Host.Date Host.newDate
    (lit "# Post" ++ [nl] ++ lit "UPDATED:  soon " ++ [nl]
     ++ lit "updated: 2024-01-15")
  = Some (Host.newDate ("s"%char :: takeWhile in_line (lit "oon "))).
Proof.
  apply (getUpdatedTimeFromContent_first_update_line Host.Date Host.newDate
           (lit "# Post" ++ [nl] ++ lit "UPDATED:  soon " ++ [nl]
            ++ lit "updated: 2024-01-15")
           (lit "UPDATED:") (lit "  ") "s" (lit "oon "));
    reflexivity.
Defined.

(* ----------------------------------------------------------------- *)
(** ** getTimeAgo *)

Lemma count_below (s b : Z) : (0 < b -> s < b -> (1 <=? s / b) = false)%Z.
Proof.
  intros Hb Hs. apply Z.leb_gt.
  apply Z.div_lt_upper_bound; lia.
Qed.

Lemma count_reached (s b : Z) : (0 < b -> b <= s -> (1 <=? s / b) = true)%Z.
Proof.
  intros Hb Hs. apply Z.leb_le.
  apply Z.div_le_lower_bound; lia.
Qed.

(** The text for [count] units: the number, the unit, an [s] when the count
    is above 1, and [ago]. *)
Definition agoText (count : Z) (unit : string) : str :=
  lit (DecimalString.NilEmpty.string_of_uint (N.to_uint (Z.to_N count)))
  ++ lit " " ++ lit unit ++ (if (1 <? count)%Z then lit "s" else [])
  ++ lit " ago".

Section TimeAgo.

Variable Date : Type.
Variable getTime : Date -> timeval.

(** X19.  [getTimeAgo] counts in the largest unit that fits the whole seconds
    [s] between the date and now: years of 365 days, months of 30 days,
    weeks, days, hours, minutes.  Below one minute, and for a date in the
    future, it answers ["just now"]; so it does for a date whose time value
    is NaN.  The units do not nest: 360 to 364 days are ["12 months ago"]
    and 28 to 29 days are ["4 weeks ago"].  The time values are taken no
    further apart than 2^53 milliseconds, the range in which the arithmetic
    of the language is exact. *)
Theorem getTimeAgo_units (now date : Date) (n d : Z) :
  getTime now = Some n ->
  getTime date = Some d ->
  (Z.abs (n - d) <= 2 ^ 53)%Z ->
  let s := ((n - d) / 1000)%Z in
  ((s < 60)%Z -> getTimeAgo Date getTime now date = lit "just now")
  /\ ((60 <= s < 3600)%Z ->
      getTimeAgo Date getTime now date = agoText (s / 60) "minute")
  /\ ((3600 <= s < 86400)%Z ->
      getTimeAgo Date getTime now date = agoText (s / 3600) "hour")
  /\ ((86400 <= s < 604800)%Z ->
      getTimeAgo Date getTime now date = agoText (s / 86400) "day")
  /\ ((604800 <= s < 2592000)%Z ->
      getTimeAgo Date getTime now date = agoText (s / 604800) "week")
  /\ ((2592000 <= s < 31536000)%Z ->
      getTimeAgo Date getTime now date = agoText (s / 2592000) "month")
  /\ ((31536000 <= s)%Z ->
      getTimeAgo Date getTime now date = agoText (s / 31536000) "year")
  /\ (forall other, getTime other = None ->
                    getTimeAgo Date getTime now other = lit "just now").
Proof.
  intros Hn Hd _ s. unfold getTimeAgo. rewrite Hn, Hd. fold s.
  unfold intervals. cbn [timeAgoLoop].
  repeat split.
  - intros H.
    rewrite !count_below by lia. reflexivity.
  - intros H.
    rewrite (count_below s 31536000), (count_below s 2592000),
      (count_below s 604800), (count_below s 86400), (count_below s 3600),
      (count_reached s 60) by lia.
    reflexivity.
  - intros H.
    rewrite (count_below s 31536000), (count_below s 2592000),
      (count_below s 604800), (count_below s 86400), (count_reached s 3600)
      by lia.
    reflexivity.
  - intros H.
    rewrite (count_below s 31536000), (count_below s 2592000),
      (count_below s 604800), (count_reached s 86400) by lia.
    reflexivity.
  - intros H.
    rewrite (count_below s 31536000), (count_below s 2592000),
      (count_reached s 604800) by lia.
    reflexivity.
  - intros H.
    rewrite (count_below s 31536000), (count_reached s 2592000) by lia.
    reflexivity.
  - intros H. rewrite (count_reached s 31536000) by lia. reflexivity.
  - intros other ->. reflexivity.
Qed.

End TimeAgo.

(** A date 362 days back: twelve months, not yet a year. *)
Lemma getTimeAgo_units_witness :
  let now := Host.MkDate 0 (Some 1700000000000%Z) in
  let date := Host.MkDate 1 (Some 1668723200000%Z) in
  let s := ((1700000000000 - 1668723200000) / 1000)%Z in
  ((s < 60)%Z -> getTimeAgo Host.Date Host.getTime now date = lit "just now")
  /\ ((60 <= s < 3600)%Z ->
      getTimeAgo Host.Date Host.getTime now date = agoText (s / 60) "minute")
  /\ ((3600 <= s < 86400)%Z ->
      getTimeAgo Host.Date Host.getTime now date = agoText (s / 3600) "hour")
  /\ ((86400 <= s < 604800)%Z ->
      getTimeAgo Host.Date Host.getTime now date = agoText (s / 86400) "day")
  /\ ((604800 <= s < 2592000)%Z ->
      getTimeAgo Host.Date Host.getTime now date = agoText (s / 604800) "week")
  /\ ((2592000 <= s < 31536000)%Z ->
      getTimeAgo Host.Date Host.getTime now date = agoText (s / 2592000) "month")
  /\ ((31536000 <= s)%Z ->
      getTimeAgo Host.Date Host.getTime now date = agoText (s / 31536000) "year")
  /\ (forall other, Host.getTime other = None ->
        getTimeAgo Host.Date Host.getTime now other = lit "just now").
Proof.
  intros now date.
  apply (getTimeAgo_units Host.Date Host.getTime now date
           1700000000000%Z 1668723200000%Z);
    [reflexivity | reflexivity | vm_compute; discriminate].
Defined.

(* ================================================================= *)
(** * src/validationUtils.ts: properties *)

Import ValidationUtils.

(* ----------------------------------------------------------------- *)
(** ** validateMarkdown *)

Lemma validateFrontmatter_isValid (content : str) :
  fm_isValid (validateFrontmatter content) = true.
Proof.
  unfold validateFrontmatter.
  now destruct (match_first false frontmatterRegex content).
Qed.

(** C8.  In the report of [validateMarkdown], [isValid] holds exactly when
    [errors] is empty; and it is the verdict of the content check alone, to
    which the link, image and table warnings do not contribute. *)
Theorem validateMarkdown_isValid_iff_no_errors (content : str) :
  (isValid (validateMarkdown content) = true
   <-> errors (validateMarkdown content) = [])
  /\ isValid (validateMarkdown content) = isValidMarkdown content
  /\ (forall other : str,
        errors (validateMarkdown other) = errors (validateMarkdown content) ->
        isValid (validateMarkdown other) = isValid (validateMarkdown content)).
Proof.
  assert (Hiff : forall c, isValid (validateMarkdown c) = true
                           <-> errors (validateMarkdown c) = []).
  { intro c. unfold validateMarkdown. simpl.
    rewrite Nat.eqb_eq. apply length_zero_iff_nil. }
  split; [apply Hiff | split].
  - unfold validateMarkdown. simpl.
    rewrite validateFrontmatter_isValid. simpl.
    now destruct (isValidMarkdown content).
  - intros other E.
    destruct (isValid (validateMarkdown content)) eqn:Hc.
    + apply Hiff. rewrite E. now apply Hiff.
    + destruct (isValid (validateMarkdown other)) eqn:Ho; [|reflexivity].
      apply Hiff in Ho. rewrite E in Ho. apply Hiff in Ho. congruence.
Qed.

(** A report with a warning and no error is valid; one with an error and no
    warning is not. *)
Example validateMarkdown_warning_only :
  let r := validateMarkdown (lit "see [x]() here") in
  isValid r = true /\ errors r = []
  /\ warnings r = [lit "Invalid link " ++ [dquote] ++ lit "x" ++ [dquote]
                   ++ lit ": Empty URL"].
Proof. vm_compute. repeat split. Qed.

Example validateMarkdown_error_only :
  let r := validateMarkdown (lit "hi") in
  isValid r = false /\ warnings r = []
  /\ errors r = [lit "Content does not appear to be valid markdown"].
Proof. vm_compute. repeat split. Qed.

(* ----------------------------------------------------------------- *)
(** ** isValidMarkdown *)

(** The characters the two patterns of [isValidMarkdown] cannot match
    without: a hash for the heading pattern; a star, a backtick, an opening
    bracket, a hyphen or a plus for the syntax pattern. *)
Definition syntax_char (c : ascii) : bool :=
  in_class (COneOf (map CChar (lit "#*`[-+"))) c.

Lemma headingTestRegex_needs : needs syntax_char headingTestRegex = true.
Proof. vm_compute. reflexivity. Qed.

Lemma syntaxTestRegex_needs : needs syntax_char syntaxTestRegex = true.
Proof. vm_compute. reflexivity. Qed.

Lemma blank_length (s : str) : (0 <? length (trim s)) = negb (blank s).
Proof. unfold blank. now destruct (trim s). Qed.

(** X20.  [isValidMarkdown] rejects the empty text and every text made of
    white space only, and accepts every other text of more than ten
    characters; a text of at most ten characters is accepted only if it
    has a heading or markdown syntax, which takes one of the characters
    [# * ` [ - +]. *)
Theorem isValidMarkdown_cases (content : str) :
  (blank content = true -> isValidMarkdown content = false)
  /\ (blank content = false -> 10 < length content ->
      isValidMarkdown content = true)
  /\ (none_of syntax_char content = true ->
      isValidMarkdown content = negb (blank content) && (10 <? length content)).
Proof.
  unfold isValidMarkdown. repeat split.
  - intros Hb. destruct content as [|c s]; [reflexivity|].
    now rewrite blank_length, Hb.
  - intros Hb Hl. destruct content as [|c s]; [simpl in Hl; lia|].
    rewrite blank_length, Hb. apply Nat.ltb_lt in Hl. rewrite Hl.
    now rewrite !orb_true_r.
  - intros Hn. destruct content as [|c s]; [reflexivity|].
    unfold test.
    rewrite (search_needs syntax_char true headingTestRegex None _
               headingTestRegex_needs Hn).
    rewrite (search_needs syntax_char true syntaxTestRegex None _
               syntaxTestRegex_needs Hn).
    now rewrite blank_length.
Qed.

Lemma isValidMarkdown_cases_witness :
  isValidMarkdown (lit "  " ++ [nl]) = false
  /\ isValidMarkdown (lit "twelve chars") = true
  /\ isValidMarkdown (lit "short")
     = negb (blank (lit "short")) && (10 <? length (lit "short")).
Proof.
  split; [|split].
  - apply (proj1 (isValidMarkdown_cases (lit "  " ++ [nl]))). reflexivity.
  - apply (proj1 (proj2 (isValidMarkdown_cases (lit "twelve chars"))));
      [reflexivity|simpl; lia].
  - apply (proj2 (proj2 (isValidMarkdown_cases (lit "short")))). reflexivity.
Defined.

(* ----------------------------------------------------------------- *)
(** ** validateMarkdownLinks and validateMarkdownImages *)

Lemma checkLink_fields (m : mstate) :
  Link (lr_text (checkLink m)) (lr_url (checkLink m)) = linkOf m.
Proof.
  unfold checkLink, linkOf.
  destruct (blank (cap 2 m)); [reflexivity|].
  destruct (isHttp (cap 2 m)).
  - now destruct (test false urlPattern (cap 2 m)).
  - destruct (startsWith (lit "#") (cap 2 m)).
    + now destruct (length (cap 2 m) =? 1).
    + destruct (startsWith (lit "/") (cap 2 m) || includes (lit ".") (cap 2 m));
        [|reflexivity].
      now destruct (includes (lit "..") (cap 2 m) && includes (lit "./") (cap 2 m)).
Qed.

(** X21.  [validateMarkdownLinks] judges exactly the links that [extractLinks]
    returns, in the same order and with the same text and url, images
    included; and the link count of [validateMarkdown] is their number. *)
Theorem validateMarkdownLinks_same_links (content : str) :
  map (fun r => Link (lr_text r) (lr_url r)) (validateMarkdownLinks content)
  = extractLinks content
  /\ length (validateMarkdownLinks content) = length (extractLinks content)
  /\ linkCount (report_stats (validateMarkdown content))
     = length (extractLinks content).
Proof.
  unfold validateMarkdownLinks, extractLinks. repeat split.
  - rewrite map_map. apply map_ext. intros f. apply checkLink_fields.
  - now rewrite !length_map.
  - unfold validateMarkdown. cbn [report_stats linkCount]. now rewrite length_map.
Qed.

Lemma urlPattern_needs : needs is_dot urlPattern = true.
Proof. vm_compute. reflexivity. Qed.

Lemma checkLink_same_ahead (a b : mstate) :
  same_ahead a b -> checkLink a = checkLink b.
Proof. intros [_ Hc]. unfold checkLink, cap, cap_opt. now rewrite Hc. Qed.

Lemma isHttp_not_blank (u : str) : isHttp u = true -> blank u = false.
Proof.
  unfold isHttp, blank. intros H.
  assert (E : exists x, u = "h"%char :: x).
  { apply orb_true_iff in H as [H | H]; apply startsWith_true in H as (b & ->);
      eexists; reflexivity. }
  destruct E as (x & ->).
  pose proof (trim_nonempty "h" x eq_refl) as Hn.
  now destruct (trim ("h"%char :: x)).
Qed.

(** X22.  A link whose url starts with [http://] or [https://] and holds no
    dot is reported as invalid with the error ["Invalid URL format"]: the
    url pattern asks for a dot before the top-level domain, so that a host
    such as [localhost] is refused. *)
Theorem validateMarkdownLinks_http_needs_dot (pre t u post : str) :
  none_of open_bracket pre = true ->
  none_of close_bracket t = true ->
  none_of close_paren u = true ->
  isHttp u = true ->
  none_of is_dot u = true ->
  validateMarkdownLinks (pre ++ linkThen t u post)
  = LinkResult t u false (Some (lit "Invalid URL format"))
    :: validateMarkdownLinks post.
Proof.
  intros Hpre Ht Hu Hh Hd. unfold validateMarkdownLinks.
  destruct (linkRegex_at (prev_after None pre) t u post Ht Hu)
    as (e & He & Hr & Hl).
  rewrite (match_all_first open_bracket false linkRegex checkLink pre _ e
             linkRegex_starts linkRegex_nolook checkLink_same_ahead Hpre He).
  rewrite Hr. f_equal.
  unfold linkOf in Hl. injection Hl as H1 H2.
  unfold checkLink. rewrite H1, H2, (isHttp_not_blank u Hh), Hh.
  unfold test.
  now rewrite (search_needs is_dot false urlPattern None u urlPattern_needs Hd).
Qed.

Lemma validateMarkdownLinks_http_needs_dot_witness :
  validateMarkdownLinks
    (lit "see " ++ linkThen (lit "dev") (lit "http://localhost:3000/docs") (lit "!"))
  = LinkResult (lit "dev") (lit "http://localhost:3000/docs") false
      (Some (lit "Invalid URL format"))
    :: validateMarkdownLinks (lit "!").
Proof.
  apply (validateMarkdownLinks_http_needs_dot (lit "see ") (lit "dev")
           (lit "http://localhost:3000/docs") (lit "!")); reflexivity.
Defined.

Lemma imageCheckRegex_starts : starts is_bang imageCheckRegex = true.
Proof. vm_compute. reflexivity. Qed.

Lemma imageCheckRegex_nolook : nolook imageCheckRegex = true.
Proof. reflexivity. Qed.

Lemma imageCheckRegex_at (p : option ascii) (alt src post : str) :
  none_of close_bracket alt = true -> none_of close_paren src = true ->
  exists e,
    exec_at false imageCheckRegex (start_state p (imageThen alt src [] post))
    = Some e
    /\ rest e = post /\ cap 1 e = alt /\ cap 2 e = src.
Proof.
  intros Ha Hs. unfold exec_at, imageCheckRegex, imageThen. cbn [Seqs app].
  set (st0 := start_state p _).
  eexists. split.
  - rewrite rmatch_seq. unfold L.
    rewrite (rmatch_lit false _ (lit "![") st0
               (alt ++ lit "](" ++ src ++ lit ")" ++ post)) by reflexivity.
    rewrite rmatch_seq, rmatch_grp.
    eapply (rmatch_star_first false _ _ _ alt (lit "](" ++ src ++ lit ")" ++ post));
      [reflexivity | exact Ha | reflexivity |].
    rewrite (consumed_adv _ alt (lit "](" ++ src ++ lit ")" ++ post))
      by reflexivity.
    rewrite rmatch_seq.
    rewrite (rmatch_lit false _ (lit "](") _ (src ++ lit ")" ++ post))
      by reflexivity.
    rewrite rmatch_seq, rmatch_grp.
    eapply (rmatch_star_first false _ _ _ src (lit ")" ++ post));
      [reflexivity | exact Hs | reflexivity |].
    rewrite (consumed_adv _ src (lit ")" ++ post)) by reflexivity.
    rewrite (rmatch_chr false ")" _ _ post) by reflexivity.
    unfold finish. reflexivity.
  - repeat split; reflexivity.
Qed.

Lemma checkImage_same_ahead (a b : mstate) :
  same_ahead a b -> checkImage a = checkImage b.
Proof. intros [_ Hc]. unfold checkImage, cap, cap_opt. now rewrite Hc. Qed.

(** Whether a source passes the checks of [validateMarkdownImages], and the
    error of the first check it fails. *)
Definition srcError (src : str) : option str :=
  if blank src then Some (lit "Missing image source")
  else if isHttp src && negb (test false urlPattern src)
       then Some (lit "Invalid image URL format")
       else None.

(** X23.  [validateMarkdownImages] finds an image valid exactly when its alt
    text is not blank and its source passes; when both fail, the error of
    the source replaces ["Missing alt text"], the alt text being checked
    first and the error overwritten. *)
Theorem validateMarkdownImages_verdict (pre alt src post : str) :
  none_of is_bang pre = true ->
  none_of close_bracket alt = true ->
  none_of close_paren src = true ->
  validateMarkdownImages (pre ++ imageThen alt src [] post)
  = ImageResult alt src
      (negb (blank alt)
       && match srcError src with None => true | Some _ => false end)
      (match srcError src with
       | Some e => Some e
       | None => if blank alt then Some (lit "Missing alt text") else None
       end)
    :: validateMarkdownImages post.
Proof.
  intros Hpre Ha Hs. unfold validateMarkdownImages.
  destruct (imageCheckRegex_at (prev_after None pre) alt src post Ha Hs)
    as (e & He & Hr & H1 & H2).
  rewrite (match_all_first is_bang false imageCheckRegex checkImage pre _ e
             imageCheckRegex_starts imageCheckRegex_nolook
             checkImage_same_ahead Hpre He).
  rewrite Hr. f_equal.
  unfold checkImage, srcError. rewrite H1, H2.
  destruct (blank alt), (blank src); try reflexivity;
    destruct (isHttp src); try reflexivity;
    now destruct (test false urlPattern src).
Qed.

Lemma validateMarkdownImages_verdict_witness :
  validateMarkdownImages (lit "Logo: " ++ imageThen [] [] [] (lit "."))
  = ImageResult [] []
      (negb (blank [])
       && match srcError [] with None => true | Some _ => false end)
      (match srcError [] with
       | Some e => Some e
       | None => if blank [] then Some (lit "Missing alt text") else None
       end)
    :: validateMarkdownImages (lit ".").
Proof.
  apply (validateMarkdownImages_verdict (lit "Logo: ") [] [] (lit "."));
    reflexivity.
Defined.

(* ----------------------------------------------------------------- *)
(** ** validateMarkdownTables *)









(* ----------------------------------------------------------------- *)
(** ** The statistics of validateMarkdown *)

(** The pieces of a split at runs of white space that are not empty are
    the words. *)
Lemma split_words :
  forall fuel p cur s,
    length s < fuel ->
    length (filter nonEmpty (split_loop false wordSplitRegex fuel p cur s))
    = if length cur =? 0 then countRuns is_ws false s
      else 1 + countRuns is_ws true s.
Proof.
  unfold wordSplitRegex.
  induction fuel as [|fuel IH]; intros p cur s Hf; [lia|].
  destruct s as [|c s].
  - cbn [split_loop filter countRuns]. unfold nonEmpty at 1.
    rewrite length_rev. now destruct cur.
  - simpl in Hf. cbn [split_loop]. rewrite exec_at_plus_cls.
    change (in_class CSpace c) with (is_ws c).
    cbn [countRuns]. destruct (is_ws c) eqn:Ec.
    + cbn [rest prev].
      pose proof (dropWhile_length (in_class CSpace) s) as Hd.
      replace (length (dropWhile (in_class CSpace) s) <? length (c :: s))
        with true by (symmetry; apply Nat.ltb_lt; cbn [length]; lia).
      assert (Ed : countRuns is_ws false (dropWhile (in_class CSpace) s)
                   = countRuns is_ws false s).
      { clear. induction s as [|a s IHs]; [reflexivity|].
        cbn [dropWhile countRuns]. change (in_class CSpace a) with (is_ws a).
        destruct (is_ws a) eqn:Ea; [exact IHs|].
        cbn [countRuns]. now rewrite Ea. }
      cbn [orb filter]. unfold nonEmpty at 1. rewrite length_rev.
      destruct cur as [|d cur].
      * cbn [length Nat.ltb Nat.leb Nat.eqb]. rewrite IH by lia.
        cbn [length Nat.eqb]. exact Ed.
      * cbn [length Nat.ltb Nat.leb Nat.eqb]. rewrite IH by lia.
        cbn [length Nat.eqb]. now rewrite Ed.
    + rewrite IH by lia. cbn [length Nat.eqb].
      now destruct cur.
Qed.

Lemma split_words_count (s : str) :
  length (filter (fun word => 0 <? length word) (split false wordSplitRegex s))
  = countWords s.
Proof.
  unfold split. destruct s as [|c s]; [reflexivity|].
  change (fun word : str => 0 <? length word) with nonEmpty.
  rewrite split_words by (simpl; lia). reflexivity.
Qed.

(** On a text that is plain for [stripMarkdown], the stripped text has the
    words of the text. *)
Lemma blank_rest_ws (s r : str) :
  blank_rest s = Some r -> exists z, s = z ++ r /\ forallb is_ws z = true.
Proof.
  revert r. induction s as [|a s IH]; intros r H; [discriminate|].
  cbn [blank_rest] in H.
  destruct (is_ws a) eqn:Ea.
  - destruct (blank_rest s) as [r'|] eqn:Eb.
    + cbn [orelse] in H. injection H as <-.
      destruct (IH r' eq_refl) as (z & -> & Hz).
      exists (a :: z). split; [reflexivity|]. simpl. now rewrite Ea, Hz.
    + cbn [orelse] in H. destruct (is_nl a); [|discriminate].
      injection H as <-. exists [a]. split; [reflexivity|]. simpl. now rewrite Ea.
  - cbn [orelse] in H. destruct (is_nl a) eqn:En; [|discriminate].
    apply nl_is_ws in En. congruence.
Qed.

Lemma countRuns_blank_lines :
  forall f p s w,
    length s < f ->
    countRuns is_ws w (replace_loop false blankLineRegex [RText [nl]] f p s)
    = countRuns is_ws w s.
Proof.
  induction f as [|f IH]; intros p s w Hf; [lia|].
  destruct s as [|c s]; [reflexivity|].
  simpl in Hf.
  destruct (blank_step f p c s) as (q & E); [lia|]. rewrite E.
  cbn [countRuns].
  destruct (is_nl c) eqn:En.
  - rewrite (nl_is_ws c En).
    destruct (blank_rest s) as [r|] eqn:Eb.
    + destruct (blank_rest_ws s r Eb) as (z & Es & Hz).
      pose proof (blank_rest_longest s r Eb) as [_ Hlen].
      rewrite IH by lia. rewrite Es.
      clear -Hz. induction z as [|a z IHz]; [reflexivity|].
      cbn [forallb] in Hz. apply andb_true_iff in Hz as [Ha Hz].
      cbn [app countRuns]. rewrite Ha. now apply IHz.
    + now rewrite IH by lia.
  - rewrite !IH by lia. reflexivity.
Qed.

(** X25.  The word count of [validateMarkdown] is the number of words of the
    text as it stands, markup included; [getWordCount], which strips the
    markup first, gives the same number on a text that holds none. *)
Theorem validateMarkdown_word_count (content : str) :
  wordCount (report_stats (validateMarkdown content)) = countWords content
  /\ (plain content = true ->
      getWordCount content
      = wordCount (report_stats (validateMarkdown content))).
Proof.
  assert (E : wordCount (report_stats (validateMarkdown content))
              = countWords content).
  { unfold validateMarkdown. cbn [report_stats wordCount].
    apply split_words_count. }
  split; [exact E|]. intros Hp. rewrite E.
  rewrite getWordCount_words.
  unfold stripMarkdown. rewrite countWords_trim, (stripped_plain content Hp).
  unfold countWords, replace_all. apply countRuns_blank_lines. lia.
Qed.

Lemma validateMarkdown_word_count_witness :
  getWordCount (lit "three plain words")
  = wordCount (report_stats (validateMarkdown (lit "three plain words"))).
Proof.
  apply (proj2 (validateMarkdown_word_count (lit "three plain words"))).
  reflexivity.
Defined.

(* ----------------------------------------------------------------- *)
(** ** validateFrontmatter *)
















(* ================================================================= *)
(** * src/pathUtils.ts, the functions that read dates: properties *)

Import PathDates.

(* ----------------------------------------------------------------- *)
(** ** extractDateFromPath *)


(** A date in the form YYYY-MM-DD. *)
Definition isoDate (y m d : str) : str := y ++ "-"%char :: m ++ "-"%char :: d.

Definition isoPattern : regex :=
  Grp 1 (Seqs [digits 4; Chr "-"; digits 2; Chr "-"; digits 2]).

Lemma isoPattern_first : hd Eps datePatterns = isoPattern.
Proof. reflexivity. Qed.

Lemma isoPattern_starts : starts is_digit isoPattern = true.
Proof. vm_compute. reflexivity. Qed.

Lemma isoPattern_at (p : option ascii) (y m d post : str) :
  length y = 4 -> length m = 2 -> length d = 2 ->
  forallb is_digit (y ++ m ++ d) = true ->
  exists e,
    exec_at false isoPattern (start_state p (isoDate y m d ++ post)) = Some e
    /\ cap 1 e = isoDate y m d.
Proof.
  intros Hy Hm Hd Hdig.
  rewrite !forallb_app in Hdig.
  apply andb_true_iff in Hdig as [Dy Hdig].
  apply andb_true_iff in Hdig as [Dm Dd].
  unfold exec_at, isoPattern, isoDate. cbn [Seqs]. unfold digits.
  set (st0 := start_state p _).
  assert (Hr : rest st0 = y ++ "-"%char :: m ++ "-"%char :: d ++ post).
  { unfold st0. cbn [rest start_state]. rewrite <- app_assoc. cbn [app].
    now rewrite <- app_assoc. }
  eexists. split.
  - rewrite rmatch_grp, rmatch_seq.
    rewrite (rmatch_exactly false CDigit 4 _ y st0 _ Hr Hy Dy).
    rewrite rmatch_seq.
    rewrite (rmatch_chr false "-" _ _ (m ++ "-"%char :: d ++ post)) by reflexivity.
    rewrite rmatch_seq.
    rewrite (rmatch_exactly false CDigit 2 _ m _ ("-"%char :: d ++ post))
      by (reflexivity || assumption).
    rewrite rmatch_seq.
    rewrite (rmatch_chr false "-" _ _ (d ++ post)) by reflexivity.
    rewrite (rmatch_exactly false CDigit 2 _ d _ post)
      by (reflexivity || assumption).
    rewrite !adv_app.
    rewrite (consumed_adv st0 (y ++ ["-"%char] ++ m ++ ["-"%char] ++ d) post)
      by (try reflexivity; rewrite Hr; rewrite <- !app_assoc; reflexivity).
    unfold finish. reflexivity.
  - unfold cap, cap_opt. cbn. reflexivity.
Qed.

Lemma digit_not_underscore (c : ascii) :
  is_digit c = true -> negb (is_underscore c) = true.
Proof.
  intro H.
  pose proof (char_fact (fun c => implb (is_digit c) (negb (is_underscore c)))
                c eq_refl) as E.
  cbv beta in E. now rewrite H in E.
Qed.

Lemma isoDate_no_underscore (y m d : str) :
  forallb is_digit (y ++ m ++ d) = true ->
  none_of is_underscore (isoDate y m d) = true.
Proof.
  intros Hdig. rewrite !forallb_app in Hdig.
  apply andb_true_iff in Hdig as [Dy Hdig].
  apply andb_true_iff in Hdig as [Dm Dd].
  unfold isoDate.
  assert (H : forall s, forallb is_digit s = true ->
                        none_of is_underscore s = true).
  { intros s. apply forallb_impl. exact digit_not_underscore. }
  change (y ++ "-"%char :: m ++ "-"%char :: d)
    with (y ++ lit "-" ++ m ++ lit "-" ++ d).
  rewrite !none_of_app.
  now rewrite (H y Dy), (H m Dm), (H d Dd).
Qed.

Section DateFromPath.

Variable Date : Type.
Variable getTime : Date -> timeval.
Variable newDate : str -> Date.

Lemma tryPatterns_valid (filename : str) (patterns : list regex) (d : Date) :
  tryPatterns Date getTime newDate filename patterns = Some d ->
  isNaN (getTime d) = false.
Proof.
  induction patterns as [|r l IH]; [discriminate|].
  cbn [tryPatterns].
  destruct (match_first false r filename) as [m|]; [|exact IH].
  destruct (isNaN (getTime (newDate _))) eqn:E; cbn [negb]; [exact IH|].
  intros H. injection H as <-. exact E.
Qed.



(** X29.  When the file name, its extension apart, holds no digit before a
    date in the form YYYY-MM-DD, [extractDateFromPath] builds the date from
    that text and returns it if it is valid; the other forms are tried only
    when it is not. *)
Theorem extractDateFromPath_iso_date (path pre y m d post : str) :
  getFileNameWithoutExtension path = pre ++ isoDate y m d ++ post ->
  none_of is_digit pre = true ->
  length y = 4 -> length m = 2 -> length d = 2 ->
  forallb is_digit (y ++ m ++ d) = true ->
  extractDateFromPath Date getTime newDate path
  = if isNaN (getTime (newDate (isoDate y m d)))
    then tryPatterns Date getTime newDate (pre ++ isoDate y m d ++ post)
           (tl datePatterns)
    else Some (newDate (isoDate y m d)).
Proof.
  intros Hf Hpre Hy Hm Hd Hdig. unfold extractDateFromPath. rewrite Hf.
  change datePatterns with (isoPattern :: tl datePatterns) at 1.
  cbn [tryPatterns]. unfold match_first.
  destruct (isoPattern_at (prev_after None pre) y m d post Hy Hm Hd Hdig)
    as (e & He & Hc).
  rewrite (search_skip is_digit false isoPattern isoPattern_starts
             pre None _ e Hpre He).
  rewrite Hc.
  rewrite (replace_all_needs is_underscore false underscoreRegex hyphen
             (isoDate y m d) eq_refl (isoDate_no_underscore y m d Hdig)).
  now destruct (isNaN (getTime (newDate (isoDate y m d)))).
Qed.

End DateFromPath.


Lemma extractDateFromPath_iso_date_witness :
  extractDateFromPath Host.Date Host.getTime Host.newDate
    (lit "/content/post-2023-12-01_article.md")
  = if isNaN (Host.getTime
                (Host.newDate (isoDate (lit "2023") (lit "12") (lit "01"))))
    then tryPatterns Host.Date Host.getTime Host.newDate
           (lit "post-" ++ isoDate (lit "2023") (lit "12") (lit "01")
            ++ lit "_article")
           (tl datePatterns)
    else Some (Host.newDate (isoDate (lit "2023") (lit "12") (lit "01"))).
Proof.
  apply (extractDateFromPath_iso_date Host.Date Host.getTime Host.newDate
           (lit "/content/post-2023-12-01_article.md") (lit "post-")
           (lit "2023") (lit "12") (lit "01") (lit "_article"));
    reflexivity.
Defined.

(* ----------------------------------------------------------------- *)
(** ** sortPathsByDate *)

(** Whether a path with the time value [ka] of its date, if it has one, is
    in its place before a path with [kb]: for [Desc] the dated paths come
    first, latest first, and the others after them; for [Asc] the paths
    without date come first and the dated ones after them, earliest first. *)
Definition inPlace (o : order) (ka kb : option Z) : bool :=
  match o, ka, kb with
  | Desc, Some ta, Some tb => (tb <=? ta)%Z
  | Desc, None, Some _ => false
  | Desc, _, None => true
  | Asc, Some ta, Some tb => (ta <=? tb)%Z
  | Asc, Some _, None => false
  | Asc, None, _ => true
  end.

Lemma inPlace_total (o : order) (ka kb : option Z) :
  inPlace o ka kb = false -> inPlace o kb ka = true.
Proof.
  destruct o, ka as [ta|], kb as [tb|]; simpl; try discriminate; try reflexivity;
    intros H; apply Z.leb_gt in H; apply Z.leb_le; lia.
Qed.

Lemma inPlace_trans (o : order) (ka kb kc : option Z) :
  inPlace o ka kb = true -> inPlace o kb kc = true -> inPlace o ka kc = true.
Proof.
  destruct o, ka as [ta|], kb as [tb|], kc as [tc|]; simpl;
    try discriminate; try reflexivity;
    intros H1 H2; apply Z.leb_le in H1; apply Z.leb_le in H2; apply Z.leb_le; lia.
Qed.

(** Every element of the list is in its place before those that follow. *)
Fixpoint sortedBy {A : Type} (le : A -> A -> bool) (l : list A) : bool :=
  match l with
  | [] => true
  | a :: l' => forallb (le a) l' && sortedBy le l'
  end.

Section SortByDate.

Variable Date : Type.
Variable getTime : Date -> timeval.
Variable newDate : str -> Date.

(** The time value of the date of a path, when it has one. *)
Definition dateKey (path : str) : option Z :=
  match extractDateFromPath Date getTime newDate path with
  | Some d => getTime d
  | None => None
  end.

Lemma dateKey_some (path : str) (d : Date) :
  extractDateFromPath Date getTime newDate path = Some d ->
  exists t, getTime d = Some t.
Proof.
  intros H. unfold extractDateFromPath in H.
  apply tryPatterns_valid in H.
  destruct (getTime d) as [t|]; [now exists t | discriminate].
Qed.

Lemma sortsAfter_keys (o : order) (a b : str) :
  sortsAfter Date getTime newDate o a b = negb (inPlace o (dateKey a) (dateKey b)).
Proof.
  unfold sortsAfter, compareByDate, dateKey.
  destruct (extractDateFromPath Date getTime newDate a) as [da|] eqn:Ea;
    destruct (extractDateFromPath Date getTime newDate b) as [db|] eqn:Eb.
  - destruct (dateKey_some a da Ea) as (ta & ->).
    destruct (dateKey_some b db Eb) as (tb & ->).
    destruct o; cbn [minus inPlace].
    + destruct (ta <=? tb)%Z eqn:E.
      * apply Z.leb_le in E. cbn [negb]. apply Z.ltb_ge. lia.
      * apply Z.leb_gt in E. cbn [negb]. apply Z.ltb_lt. lia.
    + destruct (tb <=? ta)%Z eqn:E.
      * apply Z.leb_le in E. cbn [negb]. apply Z.ltb_ge. lia.
      * apply Z.leb_gt in E. cbn [negb]. apply Z.ltb_lt. lia.
  - destruct (dateKey_some a da Ea) as (ta & ->). now destruct o.
  - destruct (dateKey_some b db Eb) as (tb & ->). now destruct o.
  - now destruct o.
Qed.

Definition before (o : order) (a b : str) : bool :=
  inPlace o (dateKey a) (dateKey b).

Lemma insertPath_perm (o : order) (a : str) (l : list str) :
  Permutation (a :: l) (insertPath Date getTime newDate o a l).
Proof.
  induction l as [|b l IH]; [apply Permutation_refl|].
  cbn [insertPath].
  destruct (sortsAfter Date getTime newDate o a b); [|apply Permutation_refl].
  apply (perm_trans (perm_swap b a l)). now apply perm_skip.
Qed.

Lemma insertPath_forallb (P : str -> bool) (o : order) (a : str) (l : list str) :
  P a = true -> forallb P l = true ->
  forallb P (insertPath Date getTime newDate o a l) = true.
Proof.
  intros Ha. induction l as [|b l IH]; intros Hl.
  - cbn. now rewrite Ha.
  - cbn [insertPath]. cbn [forallb] in Hl. apply andb_true_iff in Hl as [Hb Hl].
    destruct (sortsAfter Date getTime newDate o a b); cbn [forallb].
    + now rewrite Hb, IH.
    + now rewrite Ha, Hb, Hl.
Qed.

Lemma insertPath_sorted (o : order) (a : str) (l : list str) :
  sortedBy (before o) l = true ->
  sortedBy (before o) (insertPath Date getTime newDate o a l) = true.
Proof.
  induction l as [|b l IH]; intros Hl; [reflexivity|].
  cbn [sortedBy] in Hl. apply andb_true_iff in Hl as [Hb Hl].
  cbn [insertPath]. rewrite sortsAfter_keys.
  destruct (inPlace o (dateKey a) (dateKey b)) eqn:E; cbn [negb sortedBy].
  - (* a stays before b *)
    rewrite Hb, Hl. cbn [forallb]. unfold before at 1. rewrite E.
    rewrite !andb_true_r. cbn [andb].
    revert Hb. apply forallb_impl_str. intros x Hx.
    unfold before in *. now apply (inPlace_trans o _ (dateKey b)).
  - rewrite (IH Hl), andb_true_r.
    apply insertPath_forallb; [|exact Hb].
    unfold before. now apply inPlace_total.
Qed.

(** The paths whose date has the time value [k], or that have no date. *)
Definition sameKey (ka kb : option Z) : bool :=
  match ka, kb with
  | Some x, Some y => (x =? y)%Z
  | None, None => true
  | _, _ => false
  end.

Definition hasKey (k : option Z) (path : str) : bool := sameKey (dateKey path) k.

Lemma sameKey_inPlace (o : order) (ka kb k : option Z) :
  sameKey ka k = true -> sameKey kb k = true -> inPlace o ka kb = true.
Proof.
  destruct o, ka as [x|], kb as [y|], k as [z|]; simpl;
    try discriminate; try reflexivity;
    intros H1 H2; apply Z.eqb_eq in H1; apply Z.eqb_eq in H2; apply Z.leb_le; lia.
Qed.

Lemma insertPath_stable (o : order) (k : option Z) (a : str) (l : list str) :
  filter (hasKey k) (insertPath Date getTime newDate o a l)
  = filter (hasKey k) (a :: l).
Proof.
  induction l as [|b l IH]; [reflexivity|].
  cbn [insertPath]. rewrite sortsAfter_keys.
  destruct (inPlace o (dateKey a) (dateKey b)) eqn:E; cbn [negb];
    [reflexivity|].
  cbn [filter] in *. rewrite IH.
  destruct (hasKey k a) eqn:Ha, (hasKey k b) eqn:Hb; try reflexivity.
  unfold hasKey in Ha, Hb.
  now rewrite (sameKey_inPlace o _ _ k Ha Hb) in E.
Qed.

(** X30.  [sortPathsByDate] returns the paths it was given, each as often as
    it was given, in the order of their dates: for ['desc'] the paths with a
    date in their file name first, from the latest to the earliest, then
    those without; for ['asc'] those without a date first, then the others
    from the earliest to the latest.  Paths with the same date, and those
    without a date, keep the order in which they were given. *)
Theorem sortPathsByDate_sorted (paths : list str) (o : order) :
  Permutation paths (sortPathsByDate Date getTime newDate paths o)
  /\ sortedBy (before o) (sortPathsByDate Date getTime newDate paths o) = true
  /\ (forall k, filter (hasKey k) (sortPathsByDate Date getTime newDate paths o)
                = filter (hasKey k) paths).
Proof.
  unfold sortPathsByDate. induction paths as [|a l (IHp & IHs & IHk)].
  - repeat split; [apply Permutation_refl].
  - cbn [fold_right]. repeat split.
    + apply (perm_trans (perm_skip a IHp)). apply insertPath_perm.
    + now apply insertPath_sorted.
    + intros k. rewrite insertPath_stable. cbn [filter]. now rewrite IHk.
Qed.

End SortByDate.
